(** * Zangetsu: the group container and the replica-slave session

    A shallow embedding of [lib/zangetsu/group.js] and of the replicator
    closure of [lib/zangetsu/replica_slave.js], with the properties of the
    specification stated and settled against it.

    Conventions of the embedding.
    - A JavaScript object used as a dictionary is a [gmap].  [for (k in o)]
      on an object whose keys are day timestamps walks the keys in
      ascending order, as JavaScript does for integer keys: it walks
      [ascending o].  On an object whose keys are group names it walks
      them in the order in which they were inserted, which the map does
      not record: it walks [map_to_list o], and no statement below depends
      on the order of the group names.
    - Objects that are shared and mutated (time entries, work items) live
      in a store and are named by their index in it.
    - [undefined] is [None]; a missing property reads as [None].
    - Calls into modules that are not part of the sources (the socket, the
      file system, [time_entry.js]) are recorded in a chronological log. *)

From stdpp Require Import gmap strings list fin_maps sorting.
From Stdlib Require Import ZArith Lia Ascii String.

Local Open Scope string_scope.
Local Open Scope list_scope.
Local Open Scope Z_scope.

(** ** Data model shared by both files *)

(** A reference to a [TimeEntry] object: its index in the store. *)
Abbreviation teRef := nat.

(** The fields of a [TimeEntry] that the two files read or change. *)
Record TimeEntry := mkTimeEntry {
  te_path        : string;
  writtenSize    : Z;
  readOperations : Z
}.

Global Instance TimeEntry_inhabited : Inhabited TimeEntry :=
  populate (mkTimeEntry "" 0 0).

(** [function Group(name, path)] *)
Record Group := mkGroup {
  name           : string;
  path           : string;
  timeEntryCount : Z;
  timeEntries    : gmap Z teRef;
  closed         : bool
}.

(** Truthiness of the JavaScript values that the code tests. *)
Definition truthyNumber (n : option Z) : bool :=
  match n with Some d => negb (d =? 0)%Z | None => false end.

Definition truthyString (s : string) : bool :=
  negb (String.eqb s "").

(** [Array.prototype.pop]: the last element, and the array without it. *)
Definition pop {A} (l : list A) : option A * list A :=
  (last l, removelast l).

(** [for (key in object)] on an object whose keys are day timestamps
    (days since the epoch, so array indices for JavaScript): the keys come
    in ascending numeric order. *)
Definition keyLe {A} (a b : Z * A) : Prop := a.1 <= b.1.

Global Instance keyLe_dec {A} (a b : Z * A) : Decision (keyLe a b) :=
  Z_le_dec a.1 b.1.

Definition ascending {A} (m : gmap Z A) : list (Z * A) :=
  merge_sort keyLe (map_to_list m).

(** ** lib/zangetsu/group.js *)

Module GroupJs.

(** [validateGroupNameChar(ch)] *)
Definition validateGroupNameChar (ch : ascii) : bool :=
  let c := N_of_ascii ch in
  ((N_of_ascii "a" <=? c) && (c <=? N_of_ascii "z")
   || (N_of_ascii "A" <=? c) && (c <=? N_of_ascii "Z")
   || (N_of_ascii "0" <=? c) && (c <=? N_of_ascii "9")
   || (c =? N_of_ascii "_")
   || (c =? N_of_ascii "-")
   || (c =? N_of_ascii "."))%N.

(** [name.legth]: a string has no property of that name, so the read
    yields [undefined]. *)
Definition legth (name : string) : option nat := None.

(** [i < bound] where [bound] may be [undefined]: a comparison with
    [undefined] is false. *)
Definition ltJs (i : nat) (bound : option nat) : bool :=
  match bound with
  | Some n => Nat.ltb i n
  | None => false
  end.

(** The [for] loop of [validateGroupName], from index [i]; [fuel] bounds
    the number of iterations and [String.length name] always suffices,
    since [i] only grows towards the bound. *)
Fixpoint validateGroupNameLoop (name : string) (i fuel : nat) : bool :=
  match fuel with
  | O => true
  | S fuel' =>
      if ltJs i (legth name) then
        match String.get i name with
        | Some ch =>
            if negb (validateGroupNameChar ch) then false
            else validateGroupNameLoop name (S i) fuel'
        | None => false
        end
      else true
  end.

(** [exports.validateGroupName] *)
Definition validateGroupName (name : string) : bool :=
  if (String.length name =? 0)%nat || bool_decide (String.get 0 name = Some "."%char)
  then false
  else validateGroupNameLoop name 0 (String.length name).

(** What the specification asks of a group name. *)
Fixpoint allChars (p : ascii -> bool) (s : string) : bool :=
  match s with
  | EmptyString => true
  | String c s' => p c && allChars p s'
  end.

Definition validNameSpec (name : string) : Prop :=
  name <> "" /\ String.get 0 name <> Some "."%char
  /\ allChars validateGroupNameChar name = true.

(** Effects of [group.js] on the outside world, in the order they happen. *)
Inductive Effect :=
| Rename (from to : string)        (* fs rename done by IOUtils.renameToHidden *)
| TimeEntryClose (te : teRef)      (* timeEntry.close(...) *)
| SpawnRm (dir : string)           (* child_process.spawn('rm', ['-rf', dir]) *)
| Callback (err : option string).  (* callback(err) or callback() *)

Global Instance Effect_eq_dec : EqDecision Effect.
Proof. solve_decision. Defined.

(** What a call leaves behind: the group object, the effects performed
    before it returned, and the directories still held by the
    [deleteNextDir] closure, each to be removed when the previous [rm]
    exits. *)
Record Outcome := mkOutcome {
  group        : Group;
  effects      : list Effect;
  dirsToRemove : list string
}.

Section WithFileSystem.

(** [IOUtils.renameToHidden(path)] ([io_utils.js] is not part of the
    sources): [Some newFilename] when the rename succeeds, [None] when it
    throws. *)
Variable renameToHidden : string -> option string.

(** The store of time entry objects. *)
Variable heap : list TimeEntry.

(** [Group.prototype.close(callback)].  The callbacks handed to the time
    entries run later, see [timeEntryClosed]. *)
Definition close (g : Group) (callback : bool) : Group * list Effect :=
  let counter := timeEntryCount g in
  let entries := timeEntries g in
  let g' := mkGroup (name g) (path g) 0 ∅ true in
  if (counter =? 0)%Z
  then (g', if callback then [Callback None] else [])
  else (g', (fun '(_, te) => TimeEntryClose te) <$> ascending entries).

(** The function passed to [timeEntry.close] by [close]:
    [counter--; if (counter == 0 && callback) callback()]. *)
Definition timeEntryClosed (counter : Z) (callback : bool) : Z * list Effect :=
  let counter' := counter - 1 in
  (counter', if (counter' =? 0)%Z && callback then [Callback None] else []).

(** The local function [deleteNextDir] of [remove]. *)
Definition deleteNextDir (dirs : list string) : list Effect * list string :=
  match pop dirs with
  | (Some dir, rest) =>
      if truthyString dir then ([SpawnRm dir], rest) else ([], rest)
  | (None, rest) => ([], rest)
  end.

(** The second [for] loop of [remove], over [dayTimestampsToRemove]. *)
Fixpoint removeLoop (todo : list Z) (g : Group) (dirs : list string)
    (log : list Effect) : Outcome :=
  match todo with
  | [] =>
      let '(spawned, dirs') := deleteNextDir dirs in
      mkOutcome g (log ++ spawned ++ [Callback None]) dirs'
  | dts :: todo' =>
      match timeEntries g !! dts with
      | Some te =>
          let p := te_path (heap !!! te) in
          match renameToHidden p with
          | Some newFilename =>
              let g' := mkGroup (name g) (path g) (timeEntryCount g - 1)
                          (delete dts (timeEntries g)) (closed g) in
              removeLoop todo' g' (dirs ++ [newFilename])
                (log ++ [Rename p newFilename; TimeEntryClose te])
          | None =>
              let '(spawned, dirs') := deleteNextDir dirs in
              mkOutcome g (log ++ spawned ++ [Callback (Some p)]) dirs'
          end
      | None =>
          (* [timeEntry.path] throws inside the [try] block *)
          let '(spawned, dirs') := deleteNextDir dirs in
          mkOutcome g (log ++ spawned ++ [Callback (Some "")]) dirs'
      end
  end.

(** The first [for] loop of [remove]: the keys to delete. *)
Definition dayTimestampsToRemove (g : Group) (dayTimestamp : Z) : list Z :=
  filter (fun dts => dts < dayTimestamp) (ascending (timeEntries g)).*1.

(** [Group.prototype.remove(dayTimestamp, callback)] *)
Definition remove (g : Group) (dayTimestamp : option Z) : Outcome :=
  if truthyNumber dayTimestamp then
    let d := default 0 dayTimestamp in
    removeLoop (dayTimestampsToRemove g d) g [] []
  else
    match renameToHidden (path g) with
    | None => mkOutcome g [Callback (Some (path g))] []
    | Some newFilename =>
        let '(g', closing) := close g false in
        mkOutcome g'
          ([Rename (path g) newFilename] ++ closing
             ++ [SpawnRm newFilename; Callback None]) []
    end.

(** [Group.prototype.removeOne(dayTimestamp, callback)] *)
Definition removeOne (g : Group) (dayTimestamp : Z) : Outcome :=
  match timeEntries g !! dayTimestamp with
  | None => mkOutcome g [Callback None] []
  | Some te =>
      let p := te_path (heap !!! te) in
      match renameToHidden p with
      | None => mkOutcome g [Callback (Some p)] []
      | Some newFilename =>
          let g' := mkGroup (name g) (path g) (timeEntryCount g - 1)
                      (delete dayTimestamp (timeEntries g)) (closed g) in
          mkOutcome g'
            [Rename p newFilename; TimeEntryClose te;
             SpawnRm newFilename; Callback None] []
      end
  end.




(** The background part of [remove]: every exit of an [rm] child calls
    [deleteNextDir] again.  [dirs] are the directories still to remove. *)
Fixpoint childExits (fuel : nat) (dirs : list string) : list Effect :=
  match fuel with
  | O => []
  | S fuel' =>
      let '(spawned, dirs') := deleteNextDir dirs in
      match spawned with
      | [] => []
      | _ => spawned ++ childExits fuel' dirs'
      end
  end.

End WithFileSystem.

(** The directories handed to [rm -rf], in the order of the calls. *)
Definition spawnedRm (effs : list Effect) : list string :=
  omap (fun e => match e with SpawnRm dir => Some dir | _ => None end) effs.

(** A group with the time entries of day 3 and day 5, for the examples. *)
Definition exampleHeap : list TimeEntry :=
  [mkTimeEntry "/db/g/3" 10 0; mkTimeEntry "/db/g/5" 20 0].

Definition exampleGroup : Group :=
  mkGroup "g" "/db/g" 2 {[ 3 := 0%nat; 5 := 1%nat ]} false.

Definition exampleRename (p : string) : option string :=
  Some (String.append ".hidden-" p).

(** The characters that [validateGroupNameChar] lets through, written
    out one by one. *)
Definition groupNameChars : string :=
  "abcdefghijklmnopqrstuvwxyzABCDEFGHIJKLMNOPQRSTUVWXYZ0123456789_-.".

(** The functions that [close] hands to [timeEntry.close], called one
    after the other as the time entries finish closing: [n] calls, the
    first of which finds the value [counter].  The first component tells
    whether [console.assert(counter > 0)] held at every call. *)
Fixpoint timeEntriesClosed (n : nat) (counter : Z) (callback : bool)
    : bool * list Effect :=
  match n with
  | O => (true, [])
  | S n' =>
      let '(counter', called) := timeEntryClosed counter callback in
      let '(held, rest) := timeEntriesClosed n' counter' callback in
      ((0 <? counter) && held, called ++ rest)
  end.


(** What makes a directory fit for [rm -rf]: it is the hidden name that
    a rename recorded in the log has produced. *)
Definition hiddenBy (renameToHidden : string -> option string)
    (log : list Effect) (dir : string) : Prop :=
  exists p, renameToHidden p = Some dir /\ Rename p dir ∈ log.

End GroupJs.

(** ** lib/zangetsu/replica_slave.js *)

Module ReplicaSlave.

(** States *)
Inductive State :=
| UNINITIALIZED
| BACKGROUND_SYNCHRONIZING
| LOCKED_SYNCHRONIZING
| READY
| DISCONNECTED.

(** Replication command types *)
Inductive Command :=
| PRUNE_ONE_COMMAND
| PRUNE_ALL_COMMAND
| FILL_COMMAND
| CHECK_RESULTS_COMMAND.

Global Instance State_eq_dec : EqDecision State.
Proof. solve_decision. Defined.

Global Instance Command_eq_dec : EqDecision Command.
Proof. solve_decision. Defined.

Abbreviation Buffer := (list Byte.byte).

Global Instance byte_eq_dec : EqDecision Byte.byte := Byte.byte_eq_dec.

(** A [done] callback handed over by the database, named by a number. *)
Abbreviation cbRef := nat.

(** A reference to a work item object: its index in the store. *)
Abbreviation itemRef := nat.

(** One entry of the slave's table of contents, [{ size: n }]. *)
Record TocEntry := mkTocEntry { size : Z }.

(** The table of contents: group name, then day timestamp. *)
Abbreviation Toc := (gmap string (gmap Z TocEntry)).

(** A work item.  The object literals of the source set different subsets
    of these properties; a property that is not set reads as [undefined].
    [timeEntryOnReplica] aliases an entry of the table of contents: it is
    kept as the path of that entry, which names the same object for as
    long as the item is in flight, since entries are only deleted from the
    table by other work items and one item is in flight at a time.
    [itemSize] is the property [size]. *)
Record WorkItem := mkWorkItem {
  command            : option Command;
  groupName          : option string;
  group              : option string;
  dayTimestamp       : option Z;
  timeEntry          : option teRef;
  dataBuffers        : option (list Buffer);
  itemSize           : option Z;
  timeEntryOnReplica : option (string * Z);
  callback           : option cbRef;
  cleaned            : bool
}.

Definition emptyItem : WorkItem :=
  mkWorkItem None None None None None None None None None false.

Global Instance WorkItem_inhabited : Inhabited WorkItem := populate emptyItem.

Global Instance TocEntry_eq_dec : EqDecision TocEntry.
Proof. solve_decision. Defined.

Global Instance WorkItem_eq_dec : EqDecision WorkItem.
Proof. solve_decision. Defined.

Definition set_command v (i : WorkItem) : WorkItem :=
  let 'mkWorkItem c gn g dst te bufs sz r cb cl := i in
  mkWorkItem v gn g dst te bufs sz r cb cl.
Definition set_timeEntryOnReplica v (i : WorkItem) : WorkItem :=
  let 'mkWorkItem c gn g dst te bufs sz r cb cl := i in
  mkWorkItem c gn g dst te bufs sz v cb cl.
Definition set_callback v (i : WorkItem) : WorkItem :=
  let 'mkWorkItem c gn g dst te bufs sz r cb cl := i in
  mkWorkItem c gn g dst te bufs sz r v cl.
Definition set_cleaned v (i : WorkItem) : WorkItem :=
  let 'mkWorkItem c gn g dst te bufs sz r cb cl := i in
  mkWorkItem c gn g dst te bufs sz r cb v.

(** The object literals built by the source. *)
Definition pruneGroupItem (g : string) : WorkItem :=
  mkWorkItem (Some PRUNE_ONE_COMMAND) (Some g) None None None None None None None false.
Definition pruneOneItem (g : string) (dst : Z) : WorkItem :=
  mkWorkItem (Some PRUNE_ONE_COMMAND) (Some g) None (Some dst) None None None None None false.
Definition fillItem (g : string) (dst : Z) (te : teRef) : WorkItem :=
  mkWorkItem (Some FILL_COMMAND) (Some g) None (Some dst) (Some te) None None None None false.
Definition fillBuffersItem (g : string) (dst : Z) (te : teRef)
    (bufs : list Buffer) (sz : Z) : WorkItem :=
  mkWorkItem (Some FILL_COMMAND) (Some g) None (Some dst) (Some te) (Some bufs)
    (Some sz) None None false.
Definition pruneAllEventItem (g : string) (dst : Z) : WorkItem :=
  mkWorkItem (Some PRUNE_ALL_COMMAND) None (Some g) (Some dst) None None None None None false.
Definition pruneOneEventItem (g : string) : WorkItem :=
  mkWorkItem (Some PRUNE_ONE_COMMAND) None (Some g) None None None None None None false.
Definition checkResultsItem (cb : option cbRef) : WorkItem :=
  mkWorkItem (Some CHECK_RESULTS_COMMAND) None None None None None None None cb false.

(** The part of the database object that the session uses.
    [calculateRecordSize] belongs to [database.js], which is not part of
    the sources; it is carried as a method of the object. *)
Record Database := mkDatabase {
  groups              : gmap string Group;
  entries             : list TimeEntry;
  calculateRecordSize : list Buffer -> Z
}.

(** A record handed to the visitor of [timeEntry.each]. *)
Record RecordInfo := mkRecordInfo {
  data       : Buffer;
  dataSize   : Z;
  recordSize : Z;
  corrupted  : option bool;
  eof        : bool
}.

(** JSON commands written to the slave.  A property whose value is
    [undefined] is dropped by [JSON.stringify]; it is [None] here. *)
Inductive Message :=
| MsgRemoveOne (group : option string) (dayTimestamp : option Z)
| MsgRemove (group : option string)
| MsgAdd (group : option string) (timestamp : option Z) (size : Z) (opid : Z)
    (corrupted : option bool)
| MsgResults
| MsgPing.

Global Instance Message_eq_dec : EqDecision Message.
Proof. solve_decision. Defined.

(** Exceptions raised by the code. *)
Inductive Exn :=
| AssertionError (what : string)
| ReferenceError (name : string)
| TypeError (what : string)
| NotModelled (what : string).

(** The callback that the environment holds and will call next. *)
Inductive Cont :=
| KTick                                            (* process.nextTick(processNextReplicationCommand) *)
| KSentRemoveOne (details : itemRef) (dsts : list Z) (* pruneNextTimestamp: _writeJSON callback *)
| KReplyRemoveOne (details : itemRef) (dsts : list Z)
| KSentRemove (details : itemRef)                   (* pruneOne: _writeJSON callback *)
| KReplyRemove (details : itemRef)
| KWritten (details : itemRef)                      (* fillBySendingBuffers: written *)
| KGet (details : itemRef)                          (* fillByStreamingDataFile: timeEntry.get callback *)
| KReplyRefill (details : itemRef)
| KEach (details : itemRef)                         (* startStreamingDataFile: the visitor *)
| KRecordSent (details : itemRef) (record : RecordInfo)
| KSentResultsAfterRecord (details : itemRef) (record : RecordInfo)
| KReplyResultsAfterRecord (details : itemRef) (record : RecordInfo)
| KSentResultsAtEof (details : itemRef)
| KReplyResultsAtEof (details : itemRef)
| KSentResults (details : itemRef)                  (* checkResults *)
| KReplyResults (details : itemRef)
| KLock                                             (* database.lock callback *)
| KReplyPing.

(** What the session does to the outside world, in the order it happens. *)
Inductive Effect :=
| WriteJSON (m : Message)
| Write (buf : Buffer)
| ReadJSON (command : string) (status : string)  (* a reply handed to the callback that waits for it *)
| Invoke (cb : cbRef)
| TimeEntryGet (te : teRef) (offset : Z)
| TimeEntryEach (te : teRef) (offset : Z)
| RecordStop
| RecordReadNext
| SocketDestroy
| DisconnectWithError (message : string)
| NextTick
| DatabaseLock
| DatabaseUnlock
| AssertFailed (what : string)
| Uncaught (e : Exn).

(** The session: the fields of the [ReplicaSlave] object, the variables
    of the [_continueReplication] closure, the stores, and the callback
    registered with the environment. *)
Record World := mkWorld {
  state                : State;
  socketDestroyed      : bool;
  resultCheckThreshold : Z;
  toc                  : Toc;
  workQueue            : list itemRef;
  currentWorkItem      : option itemRef;
  resultCheckCounter   : Z;
  cleanupHandler       : bool;
  nextOpId             : Z;
  replicatorStarted    : bool;
  items                : list WorkItem;
  database             : Database;
  subscribed           : bool;
  assertThrows         : bool;
  pending              : option Cont;
  log                  : list Effect
}.

(** Assignment to a field, and update of a field by a function. *)
Definition set_state v (w : World) : World :=
  let 'mkWorld st sd th t q cur rc ch op rs its db sub ath p l := w in
  mkWorld v sd th t q cur rc ch op rs its db sub ath p l.
Definition set_socketDestroyed v (w : World) : World :=
  let 'mkWorld st sd th t q cur rc ch op rs its db sub ath p l := w in
  mkWorld st v th t q cur rc ch op rs its db sub ath p l.
Definition set_toc v (w : World) : World :=
  let 'mkWorld st sd th t q cur rc ch op rs its db sub ath p l := w in
  mkWorld st sd th v q cur rc ch op rs its db sub ath p l.
Definition set_workQueue v (w : World) : World :=
  let 'mkWorld st sd th t q cur rc ch op rs its db sub ath p l := w in
  mkWorld st sd th t v cur rc ch op rs its db sub ath p l.
Definition set_currentWorkItem v (w : World) : World :=
  let 'mkWorld st sd th t q cur rc ch op rs its db sub ath p l := w in
  mkWorld st sd th t q v rc ch op rs its db sub ath p l.
Definition set_resultCheckCounter v (w : World) : World :=
  let 'mkWorld st sd th t q cur rc ch op rs its db sub ath p l := w in
  mkWorld st sd th t q cur v ch op rs its db sub ath p l.
Definition set_cleanupHandler v (w : World) : World :=
  let 'mkWorld st sd th t q cur rc ch op rs its db sub ath p l := w in
  mkWorld st sd th t q cur rc v op rs its db sub ath p l.
Definition set_nextOpId v (w : World) : World :=
  let 'mkWorld st sd th t q cur rc ch op rs its db sub ath p l := w in
  mkWorld st sd th t q cur rc ch v rs its db sub ath p l.
Definition set_replicatorStarted v (w : World) : World :=
  let 'mkWorld st sd th t q cur rc ch op rs its db sub ath p l := w in
  mkWorld st sd th t q cur rc ch op v its db sub ath p l.
Definition set_items v (w : World) : World :=
  let 'mkWorld st sd th t q cur rc ch op rs its db sub ath p l := w in
  mkWorld st sd th t q cur rc ch op rs v db sub ath p l.
Definition set_database v (w : World) : World :=
  let 'mkWorld st sd th t q cur rc ch op rs its db sub ath p l := w in
  mkWorld st sd th t q cur rc ch op rs its v sub ath p l.
Definition set_subscribed v (w : World) : World :=
  let 'mkWorld st sd th t q cur rc ch op rs its db sub ath p l := w in
  mkWorld st sd th t q cur rc ch op rs its db v ath p l.
Definition set_pending v (w : World) : World :=
  let 'mkWorld st sd th t q cur rc ch op rs its db sub ath p l := w in
  mkWorld st sd th t q cur rc ch op rs its db sub ath v l.
Definition set_log v (w : World) : World :=
  let 'mkWorld st sd th t q cur rc ch op rs its db sub ath p l := w in
  mkWorld st sd th t q cur rc ch op rs its db sub ath p v.
Definition over_toc f (w : World) : World :=
  let 'mkWorld st sd th t q cur rc ch op rs its db sub ath p l := w in
  mkWorld st sd th (f t) q cur rc ch op rs its db sub ath p l.
Definition over_workQueue f (w : World) : World :=
  let 'mkWorld st sd th t q cur rc ch op rs its db sub ath p l := w in
  mkWorld st sd th t (f q) cur rc ch op rs its db sub ath p l.
Definition over_resultCheckCounter f (w : World) : World :=
  let 'mkWorld st sd th t q cur rc ch op rs its db sub ath p l := w in
  mkWorld st sd th t q cur (f rc) ch op rs its db sub ath p l.
Definition over_nextOpId f (w : World) : World :=
  let 'mkWorld st sd th t q cur rc ch op rs its db sub ath p l := w in
  mkWorld st sd th t q cur rc ch (f op) rs its db sub ath p l.
Definition over_items f (w : World) : World :=
  let 'mkWorld st sd th t q cur rc ch op rs its db sub ath p l := w in
  mkWorld st sd th t q cur rc ch op rs (f its) db sub ath p l.
Definition over_log f (w : World) : World :=
  let 'mkWorld st sd th t q cur rc ch op rs its db sub ath p l := w in
  mkWorld st sd th t q cur rc ch op rs its db sub ath p (f l).
Definition over_entries (f : list TimeEntry -> list TimeEntry) (w : World) : World :=
  let 'mkWorld st sd th t q cur rc ch op rs its db sub ath p l := w in
  let 'mkDatabase g es c := db in
  mkWorld st sd th t q cur rc ch op rs its (mkDatabase g (f es) c) sub ath p l.

(** *** The monad of the handlers: state and exceptions *)

Inductive Res (A : Type) :=
| Ok (a : A) (w : World)
| Throw (e : Exn) (w : World)
| OutOfFuel.
Arguments Ok {A} a w.
Arguments Throw {A} e w.
Arguments OutOfFuel {A}.

Definition M (A : Type) : Type := World -> Res A.

Definition ret {A} (a : A) : M A := fun w => Ok a w.

Definition bind {A B} (m : M A) (f : A -> M B) : M B :=
  fun w =>
    match m w with
    | Ok a w' => f a w'
    | Throw e w' => Throw e w'
    | OutOfFuel => OutOfFuel
    end.

Declare Scope js_scope.
Delimit Scope js_scope with js.
Notation "x ← y ; z" := (bind y (fun x => z))
  (at level 20, y at level 100, z at level 200, only parsing) : js_scope.
Notation "x ;; z" := (bind x (fun _ => z))
  (at level 100, z at level 200, only parsing, right associativity) : js_scope.
Local Open Scope js_scope.

Definition gets {A} (f : World -> A) : M A := fun w => Ok (f w) w.
Definition modify (f : World -> World) : M unit := fun w => Ok tt (f w).
Definition throw {A} (e : Exn) : M A := fun w => Throw e w.
Definition outOfFuel {A} : M A := fun _ => OutOfFuel.
Definition skip : M unit := ret tt.
Definition when (b : bool) (m : M unit) : M unit := if b then m else skip.
Definition emit (e : Effect) : M unit :=
  modify (over_log (fun l => l ++ [e])).

(** [for (...) { body }] over the elements of a list. *)
Fixpoint forEach {A} (l : list A) (body : A -> M unit) : M unit :=
  match l with
  | [] => skip
  | x :: l' => body x;; forEach l' body
  end.

(** *** Access to the stores *)

(** The key under which a value is looked up in an object: [undefined]
    becomes the string ["undefined"]. *)
Definition propertyKey (k : option string) : string := default "undefined" k.

Definition getItem (d : itemRef) : M WorkItem :=
  gets (fun w => items w !!! d).

Definition updateItem (d : itemRef) (f : WorkItem -> WorkItem) : M unit :=
  modify (over_items (alter f d)).

(** A fresh work item object. *)
Definition newItem (item : WorkItem) : M itemRef :=
  d ← gets (fun w => List.length (items w));
  modify (over_items (fun its => its ++ [item]));;
  ret d.

Definition getTimeEntry (te : teRef) : M TimeEntry :=
  gets (fun w => entries (database w) !!! te).

Definition updateTimeEntry (te : teRef) (f : TimeEntry -> TimeEntry) : M unit :=
  modify (over_entries (alter f te)).

(** Modelled from the spec: [TimeEntry.incReadOperations] and
    [TimeEntry.decReadOperations] of [time_entry.js], which is not part of
    the sources.  [readOperations] counts the readers; the deferred close
    that the last [decReadOperations] may trigger is not modelled. *)
Definition incReadOperations (te : teRef) : M unit :=
  updateTimeEntry te (fun e =>
    mkTimeEntry (te_path e) (writtenSize e) (readOperations e + 1)).

Definition decReadOperations (te : teRef) : M unit :=
  updateTimeEntry te (fun e =>
    mkTimeEntry (te_path e) (writtenSize e) (readOperations e - 1)).

(** [details.timeEntryOnReplica.size] *)
Definition lookupMirror (t : Toc) (p : string * Z) : option TocEntry :=
  t !! p.1 ≫= fun g => g !! p.2.

Definition readMirrorSize (d : itemRef) : M Z :=
  it ← getItem d;
  match timeEntryOnReplica it with
  | None => throw (TypeError "details.timeEntryOnReplica is undefined")
  | Some p =>
      t ← gets toc;
      match lookupMirror t p with
      | Some e => ret (size e)
      | None => throw (NotModelled "timeEntryOnReplica is no longer in the table")
      end
  end.

(** [details.timeEntryOnReplica.size = f(details.timeEntryOnReplica.size)] *)
Definition writeMirrorSize (d : itemRef) (f : Z -> Z) : M unit :=
  it ← getItem d;
  match timeEntryOnReplica it with
  | None => throw (TypeError "details.timeEntryOnReplica is undefined")
  | Some p =>
      t ← gets toc;
      match lookupMirror t p with
      | Some e =>
          modify (over_toc
            (alter (fun g => <[p.2 := mkTocEntry (f (size e))]> g) p.1))
      | None => throw (NotModelled "timeEntryOnReplica is no longer in the table")
      end
  end.

(** *** Methods of [ReplicaSlave] *)

(** [console.assert]: throws an [AssertionError] in the versions of Node
    the code was written for, and only prints in later ones; which of the
    two is a property of the runtime, [assertThrows]. *)
Definition console_assert (b : bool) (what : string) : M unit :=
  if b then skip
  else
    throws ← gets assertThrows;
    if throws then throw (AssertionError what) else emit (AssertFailed what).

(** [ReplicaSlave.prototype.connected] *)
Definition connected : M bool :=
  gets (fun w =>
    negb (bool_decide (state w = DISCONNECTED)) && negb (socketDestroyed w)).

(** [ReplicaSlave.prototype._disconnectWithError] *)
Definition _disconnectWithError (message : string) : M unit :=
  c ← connected;
  when c (
    emit (DisconnectWithError message);;
    modify (set_state DISCONNECTED)).

(** [ReplicaSlave.prototype._disconnect], always called without a
    callback by the replicator.  The socket is destroyed at once or when
    its buffer has drained; the request is logged. *)
Definition _disconnect : M unit :=
  c ← connected;
  when c (
    emit SocketDestroy;;
    modify (set_state DISCONNECTED)).

(** [ReplicaSlave.prototype._writeJSON] and [_write]: the optional
    callback is called by the socket when the write is done. *)
Definition _writeJSON (m : Message) (callback : option Cont) : M unit :=
  emit (WriteJSON m);;
  match callback with
  | Some k => modify (set_pending (Some k))
  | None => skip
  end.

Definition _write (buf : Buffer) (callback : option Cont) : M unit :=
  emit (Write buf);;
  match callback with
  | Some k => modify (set_pending (Some k))
  | None => skip
  end.

(** [ReplicaSlave.prototype._readJsonObject]: registers the callback ... *)
Definition _readJsonObject (k : Cont) : M unit :=
  modify (set_pending (Some k)).

(** What [readJsonObject] can hand to its callback. *)
Inductive JsonResult :=
| JsonError (isIoError : bool)
| JsonNull
| JsonObject (status : string).

(** ... and this is the function that [_readJsonObject] passes to
    [readJsonObject]; [command] names the command whose reply is read. *)
Definition readJsonObjectCallback (command : string) (r : JsonResult)
    (callback : string -> M unit) : M unit :=
  match r with
  | JsonError isIoError =>
      when (negb isIoError) (_disconnectWithError "Invalid JSON data.")
  | JsonNull =>
      c ← connected; when c _disconnect
  | JsonObject status =>
      c ← connected;
      when c (emit (ReadJSON command status);; callback status)
  end.

(** *** The closure of [_continueReplication] *)

(** [startReplicator] *)
Definition startReplicator : M unit :=
  started ← gets replicatorStarted;
  st ← gets state;
  c ← connected;
  when (negb started
        && negb (bool_decide (st = BACKGROUND_SYNCHRONIZING))
        && negb (bool_decide (st = LOCKED_SYNCHRONIZING))
        && c) (
    modify (set_replicatorStarted true);;
    emit NextTick;;
    modify (set_pending (Some KTick))).

(** [addToWorkQueue(item, callback)] *)
Definition addToWorkQueue (item : WorkItem) (cb : option cbRef) : M unit :=
  d ← newItem item;
  modify (over_workQueue (fun q => q ++ [d]));;
  checkResultsCommandAdded ← (
    if bool_decide (command item = Some FILL_COMMAND) && bool_decide (is_Some (dataBuffers item))
    then
      modify (over_resultCheckCounter (fun n => n + 1));;
      counter ← gets resultCheckCounter;
      threshold ← gets resultCheckThreshold;
      if threshold <=? counter then
        modify (set_resultCheckCounter 0);;
        c ← newItem (checkResultsItem cb);
        modify (over_workQueue (fun q => q ++ [c]));;
        ret true
      else ret false
    else ret false);
  when (negb checkResultsCommandAdded) (
    q ← gets workQueue;
    match last q with
    | Some l => updateItem l (set_callback cb)
    | None => throw (TypeError "workQueue is empty")
    end).

(** [scheduleSlaveSynchronizationCommands] *)
Definition scheduleSlaveSynchronizationCommands : M unit :=
  t ← gets toc;
  db ← gets database;
  forEach (map_to_list t) (fun '(groupName, groupOnReplica) =>
    match groups db !! groupName with
    | Some localGroup =>
        forEach (ascending groupOnReplica) (fun '(dst, timeEntryOnReplica) =>
          match timeEntries localGroup !! dst with
          | Some localTimeEntry =>
              e ← getTimeEntry localTimeEntry;
              when (writtenSize e <? size timeEntryOnReplica) (
                addToWorkQueue (pruneOneItem groupName dst) None;;
                addToWorkQueue (fillItem groupName dst localTimeEntry) None;;
                incReadOperations localTimeEntry)
          | None =>
              addToWorkQueue (pruneOneItem groupName dst) None
          end)
    | None =>
        addToWorkQueue (pruneGroupItem groupName) None
    end);;
  forEach (map_to_list (groups db)) (fun '(groupName, localGroup) =>
    let groupOnReplica := t !! groupName in
    forEach (ascending (timeEntries localGroup)) (fun '(dst, localTimeEntry) =>
      let timeEntryOnReplica := groupOnReplica ≫= fun g => g !! dst in
      e ← getTimeEntry localTimeEntry;
      match timeEntryOnReplica with
      | Some r =>
          when (size r <? writtenSize e) (
            addToWorkQueue (fillItem groupName dst localTimeEntry) None;;
            incReadOperations localTimeEntry)
      | None =>
          when (0 <? writtenSize e) (
            addToWorkQueue (fillItem groupName dst localTimeEntry) None;;
            incReadOperations localTimeEntry)
      end)).

(** [cleanupWorkItem(details)] *)
Definition cleanupWorkItem (d : itemRef) : M unit :=
  it ← getItem d;
  when (negb (cleaned it)) (
    updateItem d (set_cleaned true);;
    (if bool_decide (command it = Some FILL_COMMAND) then
       match timeEntry it with
       | Some te => decReadOperations te
       | None => throw (TypeError "details.timeEntry is undefined")
       end
     else skip);;
    match callback it with
    | Some cb => emit (Invoke cb)
    | None => skip
    end).

(** [cleanupWorkQueue] *)
Definition cleanupWorkQueue : M unit :=
  queue ← gets workQueue;
  modify (set_workQueue []);;
  currentItem ← gets currentWorkItem;
  modify (set_currentWorkItem None);;
  forEach queue cleanupWorkItem;;
  match currentItem with
  | Some d => cleanupWorkItem d
  | None => skip
  end.

(** [pruneNextTimestamp(details, dayTimestampsToPrune)]; [next] is the
    call of [processNextReplicationCommand]. *)
Definition pruneNextTimestamp (next : M unit) (d : itemRef)
    (dayTimestampsToPrune : list Z) : M unit :=
  match pop dayTimestampsToPrune with
  | (Some dst, rest) =>
      it ← getItem d;
      _writeJSON (MsgRemoveOne (group it) (Some dst)) (Some (KSentRemoveOne d rest))
  | (None, _) =>
      cleanupWorkItem d;;
      next
  end.

(** [pruneAll(details)] *)
Definition pruneAll (next : M unit) (d : itemRef) : M unit :=
  it ← getItem d;
  t ← gets toc;
  match t !! propertyKey (group it) with
  | Some groupOnReplica =>
      let dayTimestampsToPrune :=
        match dayTimestamp it with
        | Some limit => filter (fun dst => dst < limit) (ascending groupOnReplica).*1
        | None => []   (* [dst < undefined] is false *)
        end in
      modify (set_toc
        (<[propertyKey (group it) :=
             foldl (fun g dst => delete dst g) groupOnReplica dayTimestampsToPrune]> t));;
      pruneNextTimestamp next d dayTimestampsToPrune
  | None =>
      cleanupWorkItem d;;
      next
  end.

(** [sentRemoveOneCommand(err, details, dayTimestampsToPrune)] *)
Definition sentRemoveOneCommand (err : bool) (d : itemRef) (dsts : list Z) : M unit :=
  c ← connected;
  when (c && negb err) (_readJsonObject (KReplyRemoveOne d dsts)).

(** [receivedReplyForRemoveOneCommand(reply, details, dayTimestampsToPrune)] *)
Definition receivedReplyForRemoveOneCommand (next : M unit) (status : string)
    (d : itemRef) (dsts : list Z) : M unit :=
  if String.eqb status "ok" then pruneNextTimestamp next d dsts
  else _disconnect.

(** [pruneOne(details)] *)
Definition pruneOne (d : itemRef) : M unit :=
  it ← getItem d;
  t ← gets toc;
  let key := propertyKey (groupName it) in
  let groupOnReplica := t !! key in
  console_assert (bool_decide (is_Some groupOnReplica)) "groupOnReplica !== undefined";;
  message ← (
    match dayTimestamp it with
    | Some dst =>
        match groupOnReplica with
        | Some g =>
            console_assert (bool_decide (is_Some (g !! dst)))
              "groupOnReplica[details.dayTimestamp] !== undefined";;
            modify (set_toc (<[key := delete dst g]> t));;
            ret (MsgRemoveOne (groupName it) (Some dst))
        | None => throw (TypeError "groupOnReplica is undefined")
        end
    | None =>
        modify (set_toc (delete key t));;
        ret (MsgRemove (groupName it))
    end);
  _writeJSON message (Some (KSentRemove d)).

(** [sentRemoveCommand(err, details)] *)
Definition sentRemoveCommand (err : bool) (d : itemRef) : M unit :=
  c ← connected;
  when (c && negb err) (_readJsonObject (KReplyRemove d)).

(** [receivedReplyForRemoveCommand(reply, details)] *)
Definition receivedReplyForRemoveCommand (next : M unit) (status : string)
    (d : itemRef) : M unit :=
  if String.eqb status "ok" then cleanupWorkItem d;; next
  else _disconnect.

(** [details.dayTimestamp * 24 * 60 * 60] *)
Definition timestampOf (dayTimestamp : option Z) : option Z :=
  (fun d => d * 24 * 60 * 60) <$> dayTimestamp.

(** [fillBySendingBuffers(details)] *)
Definition fillBySendingBuffers (d : itemRef) : M unit :=
  st ← gets state;
  console_assert (bool_decide (st = READY)) "self.state == READY";;
  it ← getItem d;
  match dataBuffers it with
  | None => throw (TypeError "details.dataBuffers is undefined")
  | Some bufs =>
      let totalDataSize := foldl (fun n b => n + Z.of_nat (List.length b)) 0 bufs in
      opid ← gets nextOpId;
      let message :=
        MsgAdd (groupName it) (timestampOf (dayTimestamp it)) totalDataSize opid None in
      modify (over_nextOpId (fun n => n + 1));;
      _writeJSON message
        (if bool_decide (List.length bufs = 0%nat) then Some (KWritten d) else None);;
      forEach (imap (fun i b => (i, b)) bufs) (fun '(i, b) =>
        _write b
          (if bool_decide (i = (List.length bufs - 1)%nat) then Some (KWritten d) else None))
  end.

(** The local function [written] of [fillBySendingBuffers]. *)
Definition written (next : M unit) (d : itemRef) : M unit :=
  it ← getItem d;
  match itemSize it with
  | Some sz => writeMirrorSize d (fun n => n + sz)
  | None => throw (NotModelled "details.size is undefined")
  end;;
  cleanupWorkItem d;;
  next.

(** [startStreamingDataFile(details)]: the call of [timeEntry.each]. *)
Definition startStreamingDataFile (d : itemRef) : M unit :=
  st ← gets state;
  console_assert (bool_decide (st = BACKGROUND_SYNCHRONIZING)
                  || bool_decide (st = LOCKED_SYNCHRONIZING))
    "self.state == BACKGROUND_SYNCHRONIZING || self.state == LOCKED_SYNCHRONIZING";;
  it ← getItem d;
  offset ← readMirrorSize d;
  match timeEntry it with
  | Some te =>
      emit (TimeEntryEach te offset);;
      modify (set_pending (Some (KEach d)))
  | None => throw (TypeError "details.timeEntry is undefined")
  end.

(** [fillByStreamingDataFile(details)]: the call of [timeEntry.get]. *)
Definition fillByStreamingDataFile (d : itemRef) : M unit :=
  it ← getItem d;
  match timeEntry it with
  | Some te =>
      offset ← readMirrorSize d;
      emit (TimeEntryGet te offset);;
      modify (set_pending (Some (KGet d)))
  | None => throw (TypeError "details.timeEntry is undefined")
  end.

(** The callback given to [timeEntry.get] by [fillByStreamingDataFile]. *)
Definition gotRecord (err : bool) (d : itemRef) : M unit :=
  c ← connected;
  if negb c then skip
  else if err then
    it ← getItem d;
    _writeJSON (MsgRemoveOne (groupName it) (dayTimestamp it)) None;;
    _readJsonObject (KReplyRefill d)
  else startStreamingDataFile d.

(** The callback given to [_readJsonObject] by that callback. *)
Definition receivedReplyForRefill (status : string) (d : itemRef) : M unit :=
  if String.eqb status "ok" then
    writeMirrorSize d (fun _ => 0);;
    startStreamingDataFile d
  else _disconnect.

(** The visitor given to [timeEntry.each] by [startStreamingDataFile].
    The variable [progress] only feeds the debug log and is left out. *)
Definition visitRecord (next : M unit) (err : bool) (record : option RecordInfo)
    (d : itemRef) : M unit :=
  c ← connected;
  if negb c then
    match record with
    | Some _ => emit RecordStop
    | None => skip
    end
  else if err then
    _disconnectWithError "Cannot read data file on master"
  else
    match record with
    | None => throw (TypeError "record is undefined")
    | Some r =>
        if negb (eof r) then
          it ← getItem d;
          opid ← gets nextOpId;
          let message :=
            MsgAdd (groupName it) (timestampOf (dayTimestamp it)) (dataSize r) opid
              (corrupted r) in
          modify (over_nextOpId (fun n => n + 1));;
          writeMirrorSize d (fun n => n + recordSize r);;
          modify (set_cleanupHandler true);;
          _writeJSON message None;;
          _write (data r) (Some (KRecordSent d r))
        else
          counter ← gets resultCheckCounter;
          if counter =? 0 then
            cleanupWorkItem d;;
            next
          else
            modify (set_resultCheckCounter 0);;
            _writeJSON MsgResults (Some (KSentResultsAtEof d))
    end.

(** [dataFileRecordSent(err, details, progress, record)].  The function
    [continueReading] is not defined anywhere: the call throws. *)
Definition dataFileRecordSent (err : bool) (d : itemRef) (record : RecordInfo) : M unit :=
  c ← connected;
  if negb c || err then emit RecordStop
  else
    modify (over_resultCheckCounter (fun n => n + 1));;
    counter ← gets resultCheckCounter;
    threshold ← gets resultCheckThreshold;
    if threshold <=? counter then
      modify (set_resultCheckCounter 0);;
      _writeJSON MsgResults (Some (KSentResultsAfterRecord d record))
    else throw (ReferenceError "continueReading").

(** The callback of that [_writeJSON].  The function [stop] is not
    defined anywhere either. *)
Definition sentResultsAfterRecord (err : bool) (d : itemRef) (record : RecordInfo) : M unit :=
  c ← connected;
  if err || negb c then throw (ReferenceError "stop")
  else _readJsonObject (KReplyResultsAfterRecord d record).

(** [handleCheckResultAfterSendingDataFileRecord(reply, details, record)] *)
Definition handleCheckResultAfterSendingDataFileRecord (status : string)
    (d : itemRef) (record : RecordInfo) : M unit :=
  modify (set_cleanupHandler false);;
  if String.eqb status "ok" then
    modify (set_nextOpId 0);;
    emit RecordReadNext;;
    modify (set_pending (Some (KEach d)))
  else
    _disconnect;;
    emit RecordStop.

(** The callback of the [_writeJSON] at the end of the file. *)
Definition sentResultsAtEof (err : bool) (d : itemRef) : M unit :=
  c ← connected;
  when (negb err && c) (_readJsonObject (KReplyResultsAtEof d)).

(** [dataFileFullyStreamed(reply, details)] *)
Definition dataFileFullyStreamed (next : M unit) (status : string) (d : itemRef) : M unit :=
  if String.eqb status "ok" then
    modify (set_nextOpId 0);;
    cleanupWorkItem d;;
    next
  else _disconnect.

(** [checkResults(details)] and the callback of its [_writeJSON]. *)
Definition checkResults (d : itemRef) : M unit :=
  _writeJSON MsgResults (Some (KSentResults d)).

Definition sentResults (err : bool) (d : itemRef) : M unit :=
  c ← connected;
  when (negb err && c) (_readJsonObject (KReplyResults d)).

(** [handleCheckResult(reply, details)] *)
Definition handleCheckResult (next : M unit) (status : string) (d : itemRef) : M unit :=
  if String.eqb status "ok" then
    modify (set_nextOpId 0);;
    cleanupWorkItem d;;
    next
  else _disconnect.

(** [fill(details)] *)
Definition fill (d : itemRef) : M unit :=
  it ← getItem d;
  t ← gets toc;
  let key := propertyKey (groupName it) in
  let groupOnReplica := default ∅ (t !! key) in
  match dayTimestamp it with
  | None => throw (NotModelled "a fill without a dayTimestamp")
  | Some dst =>
      let entry := default (mkTocEntry 0) (groupOnReplica !! dst) in
      modify (set_toc (<[key := <[dst := entry]> groupOnReplica]> t));;
      updateItem d (set_timeEntryOnReplica (Some (key, dst)));;
      st ← gets state;
      if bool_decide (is_Some (dataBuffers it)) then
        console_assert (bool_decide (st = READY)) "self.state == READY";;
        fillBySendingBuffers d
      else
        console_assert (bool_decide (st = BACKGROUND_SYNCHRONIZING)
                        || bool_decide (st = LOCKED_SYNCHRONIZING))
          "self.state == BACKGROUND_SYNCHRONIZING || self.state == LOCKED_SYNCHRONIZING";;
        fillByStreamingDataFile d
  end.

(** [doneBackgroundSynchronizing]; [self.onJSON] is never assigned. *)
Definition doneBackgroundSynchronizing : M unit :=
  q ← gets workQueue;
  console_assert (bool_decide (q = [])) "workQueue.length == 0";;
  cur ← gets currentWorkItem;
  console_assert (bool_decide (cur = None)) "currentWorkItem === undefined";;
  modify (set_state LOCKED_SYNCHRONIZING);;
  emit DatabaseLock;;
  modify (set_pending (Some KLock)).

(** [doneLockedSynchronizing] *)
Definition doneLockedSynchronizing : M unit :=
  q ← gets workQueue;
  console_assert (bool_decide (q = [])) "workQueue.length == 0";;
  cur ← gets currentWorkItem;
  console_assert (bool_decide (cur = None)) "currentWorkItem === undefined";;
  _writeJSON MsgPing None;;
  _readJsonObject KReplyPing.

(** The callback given to [_readJsonObject] by [doneLockedSynchronizing]. *)
Definition receivedReplyForPing : M unit :=
  modify (set_state READY);;
  modify (set_subscribed true);;
  emit DatabaseUnlock.

(** [processNextReplicationCommand].  The function calls itself, directly
    and through [pruneAll]; [fuel] bounds the depth of these calls, and
    two more than the length of the work queue is always enough (see
    [processNextReplicationCommand_fuel]). *)
Fixpoint processNext (fuel : nat) : M unit :=
  match fuel with
  | O => outOfFuel
  | S fuel' =>
      c ← connected;
      if negb c then skip
      else
        q ← gets workQueue;
        match q with
        | d :: rest =>
            modify (set_workQueue rest);;
            modify (set_currentWorkItem (Some d));;
            it ← getItem d;
            match command it with
            | Some PRUNE_ONE_COMMAND =>
                updateItem d (set_command None);;
                pruneOne d
            | Some PRUNE_ALL_COMMAND =>
                updateItem d (set_command None);;
                pruneAll (processNext fuel') d
            | Some FILL_COMMAND =>
                updateItem d (set_command None);;
                fill d
            | Some CHECK_RESULTS_COMMAND =>
                updateItem d (set_command None);;
                checkResults d
            | None => console_assert false "false"
            end
        | [] =>
            st ← gets state;
            started ← gets replicatorStarted;
            if bool_decide (st = BACKGROUND_SYNCHRONIZING) then
              console_assert (negb started) "!replicatorStarted";;
              modify (set_currentWorkItem None);;
              scheduleSlaveSynchronizationCommands;;
              q' ← gets workQueue;
              if bool_decide (q' <> []) then processNext fuel'
              else doneBackgroundSynchronizing
            else if bool_decide (st = LOCKED_SYNCHRONIZING) then
              console_assert (negb started) "!replicatorStarted";;
              modify (set_currentWorkItem None);;
              scheduleSlaveSynchronizationCommands;;
              q' ← gets workQueue;
              console_assert (bool_decide (q' = [])) "workQueue.length == 0";;
              doneLockedSynchronizing
            else
              console_assert (bool_decide (st = READY)) "self.state == READY";;
              console_assert started "replicatorStarted";;
              modify (set_currentWorkItem None);;
              modify (set_replicatorStarted false)
        end
  end.

Definition processNextReplicationCommand : M unit :=
  fun w => processNext (S (S (List.length (workQueue w)))) w.

(** [onAddingToOurDatabase(localTimeEntry, groupName, dayTimestamp, dataBuffers, done)] *)
Definition onAddingToOurDatabase (localTimeEntry : teRef) (groupName : string)
    (dayTimestamp : Z) (dataBuffers : list Buffer) (done : cbRef) : M unit :=
  c ← connected;
  if negb c then emit (Invoke done)
  else
    st ← gets state;
    console_assert (negb (bool_decide (st = LOCKED_SYNCHRONIZING)))
      "self.state != LOCKED_SYNCHRONIZING";;
    if bool_decide (st = READY) then
      incReadOperations localTimeEntry;;
      db ← gets database;
      addToWorkQueue
        (fillBuffersItem groupName dayTimestamp localTimeEntry dataBuffers
           (calculateRecordSize db dataBuffers))
        (Some done);;
      startReplicator
    else emit (Invoke done).

(** [onRemoveFromOurDatabase(groupName, dayTimestamp)] *)
Definition onRemoveFromOurDatabase (groupName : string) (dayTimestamp : option Z) : M unit :=
  c ← connected;
  if negb c then skip
  else
    st ← gets state;
    console_assert (negb (bool_decide (st = LOCKED_SYNCHRONIZING)))
      "self.state != LOCKED_SYNCHRONIZING";;
    when (bool_decide (st = READY)) (
      (if truthyNumber dayTimestamp then
         addToWorkQueue (pruneAllEventItem groupName (default 0 dayTimestamp)) None
       else
         addToWorkQueue (pruneOneEventItem groupName) None);;
      startReplicator).

(** [onConnectionClose] *)
Definition onConnectionClose : M unit :=
  modify (set_subscribed false);;
  handler ← gets cleanupHandler;
  when handler (
    modify (set_cleanupHandler false);;
    emit RecordStop);;
  cleanupWorkQueue.

(** The callback given to [database.lock] by [doneBackgroundSynchronizing]. *)
Definition databaseLocked : M unit :=
  q ← gets workQueue;
  console_assert (bool_decide (q = [])) "workQueue.length == 0";;
  scheduleSlaveSynchronizationCommands;;
  processNextReplicationCommand.

(** *** The environment *)

(** What can happen to a session: the environment calls the callback it
    holds, the database emits an event, the socket is destroyed or
    closed, or somebody else changes the database. *)
Inductive Event :=
| Tick
| Written (err : bool)
| Json (r : JsonResult)
| GetDone (err : bool)
| Each (err : bool) (record : option RecordInfo)
| Locked
| Adding (localTimeEntry : teRef) (groupName : string) (dayTimestamp : Z)
    (dataBuffers : list Buffer) (done : cbRef)
| Removed (groupName : string) (dayTimestamp : option Z)
| SocketDestroyed
| Close
| DatabaseChanged (db : Database).

(** The handler that an event runs.  A callback is called once: it is
    taken out of [pending] when it runs.  An event that nothing waits
    for does nothing. *)
Definition handle (ev : Event) : M unit :=
  let next := processNextReplicationCommand in
  k ← gets pending;
  match ev, k with
  | Tick, Some KTick =>
      modify (set_pending None);; next
  | Written err, Some (KSentRemoveOne d dsts) =>
      modify (set_pending None);; sentRemoveOneCommand err d dsts
  | Written err, Some (KSentRemove d) =>
      modify (set_pending None);; sentRemoveCommand err d
  | Written err, Some (KWritten d) =>
      modify (set_pending None);; written next d
  | Written err, Some (KRecordSent d r) =>
      modify (set_pending None);; dataFileRecordSent err d r
  | Written err, Some (KSentResultsAfterRecord d r) =>
      modify (set_pending None);; sentResultsAfterRecord err d r
  | Written err, Some (KSentResultsAtEof d) =>
      modify (set_pending None);; sentResultsAtEof err d
  | Written err, Some (KSentResults d) =>
      modify (set_pending None);; sentResults err d
  | Json r, Some (KReplyRemoveOne d dsts) =>
      modify (set_pending None);;
      readJsonObjectCallback "removeOne" r (fun status =>
        receivedReplyForRemoveOneCommand next status d dsts)
  | Json r, Some (KReplyRemove d) =>
      modify (set_pending None);;
      readJsonObjectCallback "remove" r (fun status =>
        receivedReplyForRemoveCommand next status d)
  | Json r, Some (KReplyRefill d) =>
      modify (set_pending None);;
      readJsonObjectCallback "removeOne" r (fun status =>
        receivedReplyForRefill status d)
  | Json r, Some (KReplyResultsAfterRecord d rec) =>
      modify (set_pending None);;
      readJsonObjectCallback "results" r (fun status =>
        handleCheckResultAfterSendingDataFileRecord status d rec)
  | Json r, Some (KReplyResultsAtEof d) =>
      modify (set_pending None);;
      readJsonObjectCallback "results" r (fun status =>
        dataFileFullyStreamed next status d)
  | Json r, Some (KReplyResults d) =>
      modify (set_pending None);;
      readJsonObjectCallback "results" r (fun status =>
        handleCheckResult next status d)
  | Json r, Some KReplyPing =>
      modify (set_pending None);;
      readJsonObjectCallback "ping" r (fun _ => receivedReplyForPing)
  | GetDone err, Some (KGet d) =>
      modify (set_pending None);; gotRecord err d
  | Each err record, Some (KEach d) =>
      modify (set_pending None);; visitRecord next err record d
  | Locked, Some KLock =>
      modify (set_pending None);; databaseLocked
  | Adding te g dst bufs done, _ =>
      s ← gets subscribed;
      when s (onAddingToOurDatabase te g dst bufs done)
  | Removed g dst, _ =>
      s ← gets subscribed;
      when s (onRemoveFromOurDatabase g dst)
  | SocketDestroyed, _ => modify (set_socketDestroyed true)
  | Close, _ => onConnectionClose
  | DatabaseChanged db, _ => modify (set_database db)
  | _, _ => skip
  end.

(** One event: the handler runs to its end or until it throws; an
    exception that leaves the handler is recorded, and what the handler
    did before it stays done. *)
Definition step (w : World) (ev : Event) : World :=
  match handle ev w with
  | Ok _ w' => w'
  | Throw e w' => over_log (fun l => l ++ [Uncaught e]) w'
  | OutOfFuel => w
  end.

Definition run (w : World) (evs : list Event) : World := foldl step w evs.

(** [_continueReplication(toc)], entered in state
    [BACKGROUND_SYNCHRONIZING] once the slave has sent its table of
    contents: the closure variables are initialised, then the last two
    lines are run. *)
Definition newSession (threshold : Z) (throws : bool) (db : Database) (t : Toc) : World :=
  mkWorld BACKGROUND_SYNCHRONIZING false threshold t [] None 0 false 0 false []
    db false throws None [].

Definition _continueReplication (threshold : Z) (throws : bool) (db : Database)
    (t : Toc) : World :=
  let start :=
    scheduleSlaveSynchronizationCommands;;
    processNextReplicationCommand in
  match start (newSession threshold throws db t) with
  | Ok _ w' => w'
  | Throw e w' => over_log (fun l => l ++ [Uncaught e]) w'
  | OutOfFuel => newSession threshold throws db t
  end.

(** *** Vocabulary of the properties *)

(** [addToWorkQueue(item, callback)] in the words of the specification:
    a fill that carries data buffers counts; when the count reaches the
    threshold it starts again from 0 and a [CHECK_RESULTS] item with the
    callback follows the fill in the queue; otherwise the item alone joins
    the queue, with the callback. *)
Definition addToWorkQueueSpec (item : WorkItem) (cb : option cbRef) (w : World) : World :=
  let d := List.length (items w) in
  if bool_decide (command item = Some FILL_COMMAND /\ is_Some (dataBuffers item)) then
    if bool_decide (resultCheckThreshold w <= resultCheckCounter w + 1) then
      set_resultCheckCounter 0
        (over_workQueue (fun q => q ++ [d; S d])
           (over_items (fun its => its ++ [item; checkResultsItem cb]) w))
    else
      over_resultCheckCounter (fun n => n + 1)
        (over_workQueue (fun q => q ++ [d])
           (over_items (fun its => its ++ [set_callback cb item]) w))
  else
    over_workQueue (fun q => q ++ [d])
      (over_items (fun its => its ++ [set_callback cb item]) w).

(** The time entry that the master has for a group and a day. *)
Definition localEntry (db : Database) (g : string) (dst : Z) : option teRef :=
  groups db !! g ≫= fun localGroup => timeEntries localGroup !! dst.

(** [writtenSize] of a time entry of the database. *)
Definition writtenSizeOf (db : Database) (te : teRef) : Z :=
  writtenSize (entries db !!! te).

(** The readers that a batch of new work items adds: one for each fill. *)
Definition bumpReaders (its : list WorkItem) (es : list TimeEntry) : list TimeEntry :=
  foldl (fun es it =>
           match command it, timeEntry it with
           | Some FILL_COMMAND, Some te =>
               alter (fun e => mkTimeEntry (te_path e) (writtenSize e)
                                 (readOperations e + 1)) te es
           | _, _ => es
           end) es its.

(** The session after the work items [its] have joined the queue as new
    objects, each fill holding a reader on its time entry. *)
Definition enqueued (its : list WorkItem) (w : World) : World :=
  let n := List.length (items w) in
  over_entries (bumpReaders its)
    (over_workQueue (fun q => q ++ seq n (List.length its))
       (over_items (fun old => old ++ its) w)).

(** The work items that the first loop of
    [scheduleSlaveSynchronizationCommands] finds, over the table of
    contents of the slave, and those of the second loop, over the groups
    of the master. *)
Definition slaveSideItems (db : Database) (t : Toc) : list WorkItem :=
  map_to_list t ≫= fun '(g, groupOnReplica) =>
    match groups db !! g with
    | Some localGroup =>
        ascending groupOnReplica ≫= fun '(dst, r) =>
          match timeEntries localGroup !! dst with
          | Some te =>
              if writtenSizeOf db te <? size r
              then [pruneOneItem g dst; fillItem g dst te]
              else []
          | None => [pruneOneItem g dst]
          end
    | None => [pruneGroupItem g]
    end.

Definition masterSideItems (db : Database) (t : Toc) : list WorkItem :=
  map_to_list (groups db) ≫= fun '(g, localGroup) =>
    ascending (timeEntries localGroup) ≫= fun '(dst, te) =>
      match lookupMirror t (g, dst) with
      | Some r => if size r <? writtenSizeOf db te then [fillItem g dst te] else []
      | None => if 0 <? writtenSizeOf db te then [fillItem g dst te] else []
      end.

Definition scheduledItems (db : Database) (t : Toc) : list WorkItem :=
  slaveSideItems db t ++ masterSideItems db t.

(** The work items that the diff of the specification calls for, given
    the database of the master and the table of contents of the slave. *)
Inductive Due (db : Database) (t : Toc) : WorkItem -> Prop :=
| due_prune_group (g : string) :
    is_Some (t !! g) -> groups db !! g = None ->
    Due db t (pruneGroupItem g)
| due_prune_entry (g : string) (dst : Z) :
    is_Some (lookupMirror t (g, dst)) -> is_Some (groups db !! g) ->
    localEntry db g dst = None ->
    Due db t (pruneOneItem g dst)
| due_refill_prune (g : string) (dst : Z) (r : TocEntry) (te : teRef) :
    lookupMirror t (g, dst) = Some r -> localEntry db g dst = Some te ->
    writtenSizeOf db te < size r ->
    Due db t (pruneOneItem g dst)
| due_refill_fill (g : string) (dst : Z) (r : TocEntry) (te : teRef) :
    lookupMirror t (g, dst) = Some r -> localEntry db g dst = Some te ->
    writtenSizeOf db te < size r ->
    Due db t (fillItem g dst te)
| due_fill_larger (g : string) (dst : Z) (r : TocEntry) (te : teRef) :
    lookupMirror t (g, dst) = Some r -> localEntry db g dst = Some te ->
    size r < writtenSizeOf db te ->
    Due db t (fillItem g dst te)
| due_fill_missing (g : string) (dst : Z) (te : teRef) :
    lookupMirror t (g, dst) = None -> localEntry db g dst = Some te ->
    0 < writtenSizeOf db te ->
    Due db t (fillItem g dst te).

(** The opids of the [add] commands written since the last [results]
    command that the slave acknowledged with status ok, oldest first. *)
Definition opidStep (acc : list Z) (e : Effect) : list Z :=
  match e with
  | WriteJSON (MsgAdd _ _ _ opid _) => acc ++ [opid]
  | ReadJSON command status =>
      if String.eqb command "results" && String.eqb status "ok" then [] else acc
  | _ => acc
  end.

Definition opidsSinceAck (l : list Effect) : list Z := foldl opidStep [] l.

(** At every point of the exchange, the opids sent since the last
    acknowledged [results] are pairwise distinct. *)
Definition opidsAlwaysDistinct (l : list Effect) : Prop :=
  forall p, p `prefix_of` l -> NoDup (opidsSinceAck p).

(** No handler has thrown so far. *)
Definition noUncaught (l : list Effect) : Prop := forall e, Uncaught e ∉ l.

(** The opids have been distinct so far, and those sent since the last
    acknowledgement lie between 0 and [nextOpId]. *)
Definition opidsBounded (w : World) : Prop :=
  opidsAlwaysDistinct (log w)
  /\ 0 <= nextOpId w
  /\ forall o, o ∈ opidsSinceAck (log w) -> 0 <= o < nextOpId w.

(** As long as no handler has thrown, the opids sent since the last
    acknowledgement are 0, 1, ... up to [nextOpId], in this order: every
    [add] took the value of [nextOpId], which then went up by one, and
    every acknowledgement took it back to 0. *)
Definition opidsExact (w : World) : Prop :=
  noUncaught (log w) -> opidsSinceAck (log w) = seqZ 0 (nextOpId w).

(** The invariant of a session. *)
Definition opidsInvariant (w : World) : Prop :=
  opidsBounded w /\ opidsExact w.

(** The opid [o] has been taken for an [add] that is still to be written. *)
Definition opidReserved (o : Z) (w : World) : Prop :=
  opidsAlwaysDistinct (log w)
  /\ (forall x, x ∈ opidsSinceAck (log w) -> 0 <= x < o)
  /\ 0 <= o < nextOpId w
  /\ (noUncaught (log w) ->
      opidsSinceAck (log w) = seqZ 0 o /\ nextOpId w = o + 1).

(** The reply to [command] has been read, with this [status]: when it
    acknowledges the [results], no opid is in use any more, while
    [nextOpId] is still to be set back. *)
Definition replyRead (command status : string) (w : World) : Prop :=
  opidsBounded w
  /\ if String.eqb command "results" && String.eqb status "ok"
     then opidsSinceAck (log w) = []
     else opidsExact w.

(** Effects that neither send an [add] nor are a reply. *)
Definition quiet (e : Effect) : Prop :=
  match e with
  | WriteJSON (MsgAdd _ _ _ _ _) => False
  | ReadJSON _ _ => False
  | _ => True
  end.

(** [w'] comes from [w] without a change to [nextOpId] and with quiet
    effects only. *)
Definition calm (w w' : World) : Prop :=
  nextOpId w' = nextOpId w
  /\ exists es, log w' = log w ++ es /\ Forall quiet es.

(** A computation that does not touch the opids. *)
Definition neutral {A} (m : M A) : Prop :=
  forall w,
    match m w with
    | Ok _ w' | Throw _ w' => calm w w'
    | OutOfFuel => True
    end.

(** A computation that takes [P] to [Q] and, should it throw, leaves the
    opids distinct and bounded. *)
Definition triple {A} (P : World -> Prop) (m : M A) (Q : A -> World -> Prop) : Prop :=
  forall w, P w ->
    match m w with
    | Ok a w' => Q a w'
    | Throw _ w' => opidsBounded w'
    | OutOfFuel => True
    end.

Definition preserves {A} (m : M A) : Prop :=
  triple opidsInvariant m (fun _ => opidsInvariant).

(** A computation that never runs out of fuel. *)
Definition total {A} (m : M A) : Prop := forall w, m w <> OutOfFuel.

(** *** A session for the examples *)

(** The master has the group ["a"] with the time entry of day 1, 100
    bytes written; the slave reports the same.  [calculateRecordSize]
    adds 20 bytes of framing to the data. *)
Definition exampleDb : Database :=
  mkDatabase {[ "a" := mkGroup "a" "/db/a" 1 {[ 1 := 0%nat ]} false ]}
    [mkTimeEntry "/db/a/1" 100 0]
    (fun bufs => 20 + foldl (fun n b => n + Z.of_nat (List.length b)) 0 bufs).

Definition exampleToc : Toc := {[ "a" := {[ 1 := mkTocEntry 100 ]} ]}.

(** The session once it has gone through both synchronization phases:
    nothing to do in the background, the database is locked, the slave
    answers the ping. *)
Definition readySession (throws : bool) : World :=
  run (_continueReplication 10 throws exampleDb exampleToc)
    [Locked; Json (JsonObject "ok")].

(** The database announces the write of the two bytes ["hi"] to the time
    entry of day 1, with the callback number 7. *)
Definition addingHi : Event := Adding 0%nat "a" 1 [[Byte.x68; Byte.x69]] 7%nat.

(** A session in the background phase whose slave has 50 bytes of day 2
    where the master has 200: the fill of that entry is the current work
    item, and [fill] has just bound it to the entry of the mirror. *)
Definition streamingDb : Database :=
  mkDatabase {[ "a" := mkGroup "a" "/db/a" 1 {[ 2 := 0%nat ]} false ]}
    [mkTimeEntry "/db/a/2" 200 1] (fun _ => 0).

Definition streamingToc : Toc := {[ "a" := {[ 2 := mkTocEntry 50 ]} ]}.

Definition streamingItem : WorkItem :=
  mkWorkItem None (Some "a") None (Some 2) (Some 0%nat) None None
    (Some ("a", 2)) None false.

Definition streamingSession : World :=
  mkWorld BACKGROUND_SYNCHRONIZING false 10 streamingToc [] (Some 0%nat) 0 false 0
    false [streamingItem] streamingDb false true None [].

(** *** Vocabulary of the further properties *)

(** What [connected()] returns in a session. *)
Definition isConnected (w : World) : bool :=
  negb (bool_decide (state w = DISCONNECTED)) && negb (socketDestroyed w).

(** The number of bytes of a list of buffers, as [fillBySendingBuffers]
    adds them up. *)
Definition totalDataSize (bufs : list Buffer) : Z :=
  foldl (fun n b => n + Z.of_nat (List.length b)) 0 bufs.

(** The size that the mirror of the slave's table of contents records
    for a time entry; an entry that is not in the mirror counts as 0. *)
Definition mirrorSize (t : Toc) (p : string * Z) : Z :=
  default 0 (size <$> lookupMirror t p).




(** What [cleanupWorkItem] does for the work items [ds], taken in turn
    from the store [its]: the callbacks it calls, the time entries whose
    reader it gives back, and the items it marks. *)
Definition cleanupCalls (its : list WorkItem) (ds : list itemRef) : list Effect :=
  omap (fun d =>
          let it := its !!! d in
          if cleaned it then None else Invoke <$> callback it) ds.

Definition cleanupReleases (its : list WorkItem) (ds : list itemRef) : list teRef :=
  omap (fun d =>
          let it := its !!! d in
          if cleaned it then None
          else if bool_decide (command it = Some FILL_COMMAND) then timeEntry it
          else None) ds.

Definition releaseReaders (tes : list teRef) (es : list TimeEntry) : list TimeEntry :=
  foldl (fun es te =>
           alter (fun e => mkTimeEntry (te_path e) (writtenSize e)
                             (readOperations e - 1)) te es) es tes.

Definition markCleaned (ds : list itemRef) (its : list WorkItem) : list WorkItem :=
  foldl (fun its d => alter (set_cleaned true) d its) its ds.

(** A work item that [cleanupWorkItem] can clean up without a
    [TypeError]: a fill that still has its command has its time entry. *)
Definition cleanable (it : WorkItem) : Prop :=
  cleaned it = false -> command it = Some FILL_COMMAND -> is_Some (timeEntry it).

(** The work items that the session holds: the queue, then the item in
    flight. *)
Definition heldItems (w : World) : list itemRef :=
  workQueue w ++ option_list (currentWorkItem w).

(** The effects that need no connection: calling a callback of the
    database, stopping a read, a failed assertion, an exception that
    nobody catches. *)
Definition passive (e : Effect) : Prop :=
  match e with
  | Invoke _ | RecordStop | AssertFailed _ | Uncaught _ => True
  | _ => False
  end.

(** [w'] comes from [w] with the same state, the socket not revived,
    and passive effects only. *)
Definition still (w w' : World) : Prop :=
  state w' = state w
  /\ (socketDestroyed w = true -> socketDestroyed w' = true)
  /\ exists es, log w' = log w ++ es /\ Forall passive es.

(** A computation that is [still] in any session, and one that is
    [still] in a session that is not connected. *)
Definition inert {A} (m : M A) : Prop :=
  forall w,
    match m w with
    | Ok _ w' | Throw _ w' => still w w'
    | OutOfFuel => True
    end.

Definition idle {A} (m : M A) : Prop :=
  forall w, isConnected w = false ->
    match m w with
    | Ok _ w' | Throw _ w' => still w w'
    | OutOfFuel => True
    end.

(** The command whose reply a callback waits for, when the callback
    looks at the status of the reply. *)
Definition awaitsReply (k : Cont) : option string :=
  match k with
  | KReplyRemoveOne _ _ | KReplyRefill _ => Some "removeOne"
  | KReplyRemove _ => Some "remove"
  | KReplyResultsAfterRecord _ _ | KReplyResultsAtEof _ | KReplyResults _ =>
      Some "results"
  | _ => None
  end.

(** The streaming session of the examples once [timeEntry.get] has
    succeeded and [timeEntry.each] has been called, and a record of two
    bytes that takes 22 bytes in the data file. *)
Definition streamingStarted : World :=
  run (set_pending (Some (KGet 0%nat))
         (over_log (fun l => l ++ [TimeEntryGet 0%nat 50]) streamingSession))
    [GetDone false].

Definition exampleRecord : RecordInfo :=
  mkRecordInfo [Byte.x68; Byte.x69] 2 22 None false.

(** *** The phases of a session and the lock of the database *)

(** The order of the states: a session only moves forward. *)
Definition rank (s : State) : nat :=
  match s with
  | UNINITIALIZED => 0
  | BACKGROUND_SYNCHRONIZING => 1
  | LOCKED_SYNCHRONIZING => 2
  | READY => 3
  | DISCONNECTED => 4
  end.

(** How many times the session has called [database.lock] and
    [database.unlock]. *)
Fixpoint locks (l : list Effect) : nat :=
  match l with
  | [] => 0
  | DatabaseLock :: l' => S (locks l')
  | _ :: l' => locks l'
  end.

Fixpoint unlocks (l : list Effect) : nat :=
  match l with
  | [] => 0
  | DatabaseUnlock :: l' => S (unlocks l')
  | _ :: l' => unlocks l'
  end.

(** The two callbacks that belong to the locked phase: the one that
    waits for the lock and the one that waits for the reply to the
    ping. *)
Definition ofLockedPhase (k : option Cont) : Prop :=
  k = Some KLock \/ k = Some KReplyPing.

(** What holds of the lock in each state. *)
Definition phased (w : World) : Prop :=
  let nl := locks (log w) in
  let nu := unlocks (log w) in
  (subscribed w = true -> nu = 1%nat)
  /\ match state w with
     | UNINITIALIZED => False
     | BACKGROUND_SYNCHRONIZING =>
         nl = 0%nat /\ nu = 0%nat /\ ~ ofLockedPhase (pending w)
     | LOCKED_SYNCHRONIZING => nl = 1%nat /\ nu = 0%nat
     | READY => nl = 1%nat /\ nu = 1%nat /\ ~ ofLockedPhase (pending w)
     | DISCONNECTED =>
         (nu <= nl <= 1)%nat
         /\ (ofLockedPhase (pending w) -> nl = 1%nat /\ nu = 0%nat)
     end.

(** [w'] comes from [w] within the same phase, or by a disconnection:
    nothing is locked or unlocked, no subscription is made, and no
    callback of the locked phase is registered. *)
Definition steady (w w' : World) : Prop :=
  (state w' = state w \/ state w' = DISCONNECTED)
  /\ locks (log w') = locks (log w)
  /\ unlocks (log w') = unlocks (log w)
  /\ (subscribed w' = true -> subscribed w = true)
  /\ (pending w' = pending w \/ ~ ofLockedPhase (pending w')).

Definition keepsPhase {A} (m : M A) : Prop :=
  forall w,
    match m w with
    | Ok _ w' | Throw _ w' => steady w w'
    | OutOfFuel => True
    end.

(** A computation that keeps the lock discipline and moves the state
    forward only. *)
Definition advances {A} (m : M A) : Prop :=
  forall w, phased w ->
    match m w with
    | Ok _ w' | Throw _ w' =>
        phased w' /\ (rank (state w) <= rank (state w'))%nat
    | OutOfFuel => True
    end.

(** A computation that stays in the state it finds, and one that
    [advances] from the sessions that satisfy [P]. *)
Definition keepsState {A} (m : M A) : Prop :=
  forall w,
    match m w with
    | Ok _ w' | Throw _ w' => steady w w' /\ state w' = state w
    | OutOfFuel => True
    end.

Definition advancesFrom {A} (P : World -> Prop) (m : M A) : Prop :=
  forall w, phased w -> P w ->
    match m w with
    | Ok _ w' | Throw _ w' =>
        phased w' /\ (rank (state w) <= rank (state w'))%nat
    | OutOfFuel => True
    end.




(** *** The callbacks of the database *)

(** How many times the session has called the callback [cb]. *)
Fixpoint invoked (cb : cbRef) (l : list Effect) : nat :=
  match l with
  | [] => 0
  | Invoke c :: l' => ((if bool_decide (c = cb) then 1 else 0) + invoked cb l')%nat
  | _ :: l' => invoked cb l'
  end.

(** A work item owes the callback it carries until [cleanupWorkItem] has
    marked it. *)
Definition owes (cb : cbRef) (it : WorkItem) : bool :=
  negb (cleaned it) && bool_decide (callback it = Some cb).

Fixpoint owed (cb : cbRef) (its : list WorkItem) : nat :=
  match its with
  | [] => 0
  | it :: its' => ((if owes cb it then 1 else 0) + owed cb its')%nat
  end.

Definition owing (it : WorkItem) : Prop :=
  cleaned it = false /\ is_Some (callback it).

(** The [adding] events that reach [onAddingToOurDatabase]: the database
    calls the listener while it is registered.  [heard] counts them for
    one callback along a run, [announced] counts the events themselves. *)
Definition hears (cb : cbRef) (w : World) (ev : Event) : nat :=
  match ev with
  | Adding _ _ _ _ done =>
      if subscribed w && bool_decide (done = cb) then 1%nat else 0%nat
  | _ => 0%nat
  end.

Fixpoint heard (cb : cbRef) (w : World) (evs : list Event) : nat :=
  match evs with
  | [] => 0
  | ev :: evs' => (hears cb w ev + heard cb (step w ev) evs')%nat
  end.

Fixpoint announced (cb : cbRef) (evs : list Event) : nat :=
  match evs with
  | [] => 0
  | Adding _ _ _ _ done :: evs' =>
      ((if bool_decide (done = cb) then 1 else 0) + announced cb evs')%nat
  | _ :: evs' => announced cb evs'
  end.

(** A work item that [cleanupWorkItem] can clean up: a fill has its time
    entry. *)
Definition wfItem (it : WorkItem) : Prop :=
  command it = Some FILL_COMMAND -> is_Some (timeEntry it).

(** The work item that a callback held by the environment works for. *)
Definition claims (k : Cont) : option itemRef :=
  match k with
  | KTick | KLock | KReplyPing => None
  | KSentRemoveOne d _ | KReplyRemoveOne d _ | KSentRemove d | KReplyRemove d
  | KWritten d | KGet d | KReplyRefill d | KEach d | KRecordSent d _
  | KSentResultsAfterRecord d _ | KReplyResultsAfterRecord d _
  | KSentResultsAtEof d | KReplyResultsAtEof d | KSentResults d
  | KReplyResults d => Some d
  end.

(** The states in which [startReplicator] may start the replicator. *)
Definition mayStart (w : World) : Prop :=
  state w <> BACKGROUND_SYNCHRONIZING /\ state w <> LOCKED_SYNCHRONIZING
  /\ state w <> DISCONNECTED.

(** The current work item is [o], or it owes nothing. *)
Definition currentSettled (o : option itemRef) (w : World) : Prop :=
  forall c, currentWorkItem w = Some c -> o = Some c \/ ~ owing (items w !!! c).

(** The books of a session: every fill has its time entry; the queue and
    the current item refer to work items that exist; a work item that owes
    a callback is in the queue or is the current one; and the calls made
    and the calls owed add up to [n]. *)
Definition core (n : cbRef -> nat) (w : World) : Prop :=
  Forall wfItem (items w)
  /\ (forall d, d ∈ heldItems w -> (d < List.length (items w))%nat)
  /\ (forall d it, items w !! d = Some it -> owing it -> d ∈ heldItems w)
  /\ (forall cb, (invoked cb (log w) + owed cb (items w))%nat = n cb).

(** Between two events: the callback that the environment holds works for
    the current item, unless that item owes nothing; and a replicator at
    rest waits for no callback and has no item that owes one. *)
Definition due (w : World) : Prop :=
  (forall k, pending w = Some k -> currentSettled (claims k) w)
  /\ (mayStart w -> replicatorStarted w = false ->
      pending w = None /\ currentSettled None w).

Definition tidy (n : cbRef -> nat) (w : World) : Prop := core n w /\ due w.

(** Inside a handler that works for the item [o] (for none, if [o] is
    [None]): the replicator is started, and a callback registered so far
    works for [o]. *)
Definition flight (n : cbRef -> nat) (o : option itemRef) (w : World) : Prop :=
  core n w /\ currentSettled o w
  /\ (mayStart w -> replicatorStarted w = true)
  /\ (forall k, pending w = Some k -> is_Some o /\ claims k = o).

Definition aloft (n : cbRef -> nat) (o : option itemRef) (w : World) : Prop :=
  flight n o w /\ pending w = None.

(** What a step of a handler may do to a work item without disturbing the
    books: the callback stays, a cleaned item stays cleaned, a fill keeps
    its time entry. *)
Definition itemStep (it it' : WorkItem) : Prop :=
  callback it' = callback it
  /\ (cleaned it = true -> cleaned it' = true)
  /\ (wfItem it -> wfItem it').

(** [w'] comes from [w] by steps that leave the queue, the current item
    and the replicator as they are, keep the books, and register no
    callback but one that works for [r]. *)
Definition gentle (r : option (option itemRef)) (w w' : World) : Prop :=
  workQueue w' = workQueue w
  /\ currentWorkItem w' = currentWorkItem w
  /\ replicatorStarted w' = replicatorStarted w
  /\ (mayStart w' -> mayStart w)
  /\ Forall2 itemStep (items w) (items w')
  /\ (Forall wfItem (items w) ->
      forall cb, (invoked cb (log w') + owed cb (items w')
                  = invoked cb (log w) + owed cb (items w))%nat)
  /\ (pending w' = pending w
      \/ exists k, pending w' = Some k /\ r = Some (claims k)).

Definition mild {A} (r : option (option itemRef)) (m : M A) : Prop :=
  forall w,
    match m w with
    | Ok _ w' | Throw _ w' => gentle r w w'
    | OutOfFuel => True
    end.

(** A computation that takes [P] to [Q] and, should it throw, leaves the
    books in order. *)
Definition hoare {A} (n : cbRef -> nat) (P : World -> Prop) (m : M A)
    (Q : World -> Prop) : Prop :=
  forall w, P w ->
    match m w with
    | Ok _ w' => Q w'
    | Throw _ w' => tidy n w'
    | OutOfFuel => True
    end.

(** *** Pruning in the background *)

(** The work item that the diff schedules for a day, or for a whole
    group, that the slave has and the master has not; the command that
    [pruneOne] sends for it; and the mirror of the slave's table of
    contents once [pruneOne] has run. *)
Definition pruneItem (g : string) (day : option Z) : WorkItem :=
  mkWorkItem (Some PRUNE_ONE_COMMAND) (Some g) None day None None None None None false.

Definition pruneMessage (g : string) (day : option Z) : Message :=
  match day with
  | Some dst => MsgRemoveOne (Some g) (Some dst)
  | None => MsgRemove (Some g)
  end.

Definition pruned (g : string) (day : option Z) (t : Toc) : Toc :=
  match day with
  | Some dst => <[g := delete dst (default ∅ (t !! g))]> t
  | None => delete g t
  end.

(** A slave that has the day 7 of the group ["a"], which the master does
    not have. *)
Definition staleToc : Toc :=
  {[ "a" := {[ 1 := mkTocEntry 100; 7 := mkTocEntry 5 ]} ]}.

(** *** The recursion of the replicator *)

(** [m2] does what [m1] does wherever [m1] comes to an end. *)
Definition extends {A} (m1 m2 : M A) : Prop :=
  forall w, m1 w <> OutOfFuel -> m2 w = m1 w.

(** *** Filling in the background *)

(** The mirror of the slave's table of contents once [fill] has looked
    up, or created with size 0, the entry of a day. *)
Definition withEntry (g : string) (dst : Z) (t : Toc) : Toc :=
  <[g := <[dst := default (mkTocEntry 0) (default ∅ (t !! g) !! dst)]>
           (default ∅ (t !! g))]> t.

(** A slave that has the first 40 bytes of the day 1 of the group ["a"],
    of which the master has 100. *)
Definition shortToc : Toc := {[ "a" := {[ 1 := mkTocEntry 40 ]} ]}.

End ReplicaSlave.

(** * The enumeration of day timestamps *)

Lemma ascending_Permutation {A} (m : gmap Z A) : ascending m ≡ₚ map_to_list m.
Proof. apply merge_sort_Permutation. Qed.

Lemma elem_of_ascending {A} (m : gmap Z A) (k : Z) (v : A) :
  (k, v) ∈ ascending m <-> m !! k = Some v.
Proof. by rewrite ascending_Permutation, elem_of_map_to_list. Qed.

Lemma NoDup_ascending {A} (m : gmap Z A) : NoDup (ascending m).
Proof. rewrite ascending_Permutation. apply NoDup_map_to_list. Qed.

Lemma NoDup_fst_ascending {A} (m : gmap Z A) : NoDup (ascending m).*1.
Proof. rewrite ascending_Permutation. apply NoDup_fst_map_to_list. Qed.

Lemma length_ascending {A} (m : gmap Z A) : List.length (ascending m) = size m.
Proof. by rewrite ascending_Permutation, length_map_to_list. Qed.





(** * Properties of lib/zangetsu/group.js *)

Module GroupJsProofs.
Import GroupJs.

Lemma pop_snoc {A} (l : list A) (x : A) : pop (l ++ [x]) = (Some x, l).
Proof. unfold pop. by rewrite last_snoc, removelast_last. Qed.

Lemma pop_nil {A} : pop (@nil A) = (None, []).
Proof. reflexivity. Qed.

Section WithFileSystem.
Variable renameToHidden : string -> option string.
Variable heap : list TimeEntry.



Lemma elem_of_dayTimestampsToRemove (g : Group) (d dts : Z) :
  dts ∈ dayTimestampsToRemove g d <-> is_Some (timeEntries g !! dts) /\ dts < d.
Proof.
  unfold dayTimestampsToRemove. rewrite list_elem_of_filter.
  rewrite list_elem_of_fmap. split.
  - intros [Hlt ([k te] & -> & Hin)]. apply elem_of_ascending in Hin.
    split; [by exists te|done].
  - intros [[te Hte] Hlt]. split; [done|]. exists (dts, te). split; [done|].
    by apply elem_of_ascending.
Qed.



Lemma spawnedRm_app (l1 l2 : list Effect) :
  spawnedRm (l1 ++ l2) = spawnedRm l1 ++ spawnedRm l2.
Proof. unfold spawnedRm. apply omap_app. Qed.



(** C9 (as amended).  When the rename succeeds, [Group.remove] without a
    day timestamp renames the directory of the group to a hidden name,
    closes the group -- which sets [timeEntryCount] to [0], empties
    [timeEntries], marks the group closed and closes its time entries --
    starts [rm -rf] on the hidden name and calls the callback with no
    error. *)
Theorem remove_group_closes (g : Group) (newFilename : string) :
  renameToHidden (path g) = Some newFilename ->
  let out := remove renameToHidden heap g None in
  group out = mkGroup (name g) (path g) 0 ∅ true
  /\ effects out =
       [Rename (path g) newFilename]
       ++ (if timeEntryCount g =? 0 then []
           else (fun kv => TimeEntryClose kv.2) <$> ascending (timeEntries g))
       ++ [SpawnRm newFilename; Callback None]
  /\ dirsToRemove out = [].
Proof.
  intros Hren out. unfold out, remove, close. simpl. rewrite Hren.
  destruct (timeEntryCount g =? 0); simpl; repeat split; try done.
  do 2 f_equal. apply list_fmap_ext. by intros i [k te] _.
Qed.

(** C10.  [Group.removeOne(d, callback)], when no time entry is stored
    under [d], calls the callback with no error and does nothing else: the
    group object is the same and nothing touches the file system. *)
Theorem removeOne_absent (g : Group) (d : Z) :
  timeEntries g !! d = None ->
  removeOne renameToHidden heap g d = mkOutcome g [Callback None] [].
Proof. intros Hnone. unfold removeOne. by rewrite Hnone. Qed.

End WithFileSystem.

(** X2.  What [validateGroupName] computes: the loop over the characters
    never runs, so only the first two tests count.  A name is accepted
    exactly when it is not empty and does not start with a dot, whatever
    its other characters are. *)
Lemma validateGroupName_spec (name : string) :
  validateGroupName name = true <->
  name <> "" /\ String.get 0 name <> Some "."%char.
Proof.
  unfold validateGroupName. destruct name as [|c s]; simpl.
  { split; [done|]. by intros []. }
  destruct (bool_decide (Some c = Some "."%char)) eqn:Hc; simpl.
  - apply bool_decide_eq_true in Hc. split; [done|]. intros [_ Hne]. done.
  - apply bool_decide_eq_false in Hc. split; [|done]. intros _. by split.
Qed.

(** C8 (the code departs from the claim).  ["a/b"] holds a character
    outside of [[A-Za-z0-9_.-]], and [validateGroupName] accepts it. *)
Theorem validateGroupName_accepts_slash :
  validateGroupName "a/b" = true /\ ~ validNameSpec "a/b".
Proof.
  split; [reflexivity|]. intros (_ & _ & Hall). vm_compute in Hall. done.
Qed.

(** C7 (the code departs from the claim).  The day timestamp [0] is a
    defined day timestamp, and no time entry is older than day 0; but
    [if (dayTimestamp)] takes [0] for no day timestamp at all, so that
    [remove(0, callback)] does what [remove(undefined, callback)] does: on
    a group with the days 3 and 5 it renames the directory of the group,
    closes both time entries and removes the whole group, where the claim
    has every entry of day 0 or more left unchanged. *)
Theorem remove_zero_destroys_all :
  let out := remove exampleRename exampleHeap exampleGroup (Some 0) in
  timeEntries exampleGroup !! 3 = Some 0%nat
  /\ timeEntries exampleGroup !! 5 = Some 1%nat
  /\ ~ (3 < 0) /\ ~ (5 < 0)
  /\ group out = mkGroup "g" "/db/g" 0 ∅ true
  /\ effects out = [Rename "/db/g" ".hidden-/db/g"; TimeEntryClose 0;
                    TimeEntryClose 1; SpawnRm ".hidden-/db/g"; Callback None]
  /\ out = remove exampleRename exampleHeap exampleGroup None.
Proof. cbv zeta. split_and!; try done; lia. Qed.


(** C9, counterexample.  A group with two time entries has
    [timeEntryCount] 2 before [remove()] and 0 after. *)
Lemma remove_group_changes_count :
  timeEntryCount exampleGroup = 2
  /\ timeEntryCount (group (remove exampleRename exampleHeap exampleGroup None)) = 0.
Proof. vm_compute. done. Qed.

Lemma remove_group_closes_witness :
  group (remove exampleRename exampleHeap exampleGroup None)
  = mkGroup "g" "/db/g" 0 ∅ true.
Proof.
  destruct (remove_group_closes exampleRename exampleHeap exampleGroup ".hidden-/db/g")
    as (Hg & _); [reflexivity|exact Hg].
Defined.

Lemma removeOne_absent_witness :
  removeOne exampleRename exampleHeap exampleGroup 4
  = mkOutcome exampleGroup [Callback None] [].
Proof. apply removeOne_absent. reflexivity. Defined.

(** ** Further properties of the group container *)

(** X1.  [validateGroupNameChar] lets through the 26 lower-case letters,
    the 26 upper-case letters, the 10 digits, and [_], [-] and [.]; it
    rejects every other character. *)
Theorem validateGroupNameChar_charset (ch : ascii) :
  validateGroupNameChar ch = true <-> ch ∈ list_ascii_of_string groupNameChars.
Proof.
  assert (H : validateGroupNameChar ch
              = bool_decide (ch ∈ list_ascii_of_string groupNameChars)).
  { destruct ch as [[] [] [] [] [] [] [] []]; vm_compute; reflexivity. }
  rewrite H. apply bool_decide_eq_true.
Qed.

(** The callbacks of [close], counted: the assertion holds as long as no
    more of them run than the counter said, and the callback of [close] is
    called by the one that brings the counter to zero. *)
Lemma timeEntriesClosed_counts (m : nat) : forall (c : Z) (cb : bool),
  timeEntriesClosed m c cb
  = (bool_decide (m = 0%nat \/ Z.of_nat m <= c),
     if cb && bool_decide (1 <= c <= Z.of_nat m) then [Callback None] else []).
Proof.
  induction m as [|m IH]; intros c cb.
  - cbn. rewrite bool_decide_eq_true_2 by (by left).
    rewrite (bool_decide_eq_false_2 (1 <= c <= _)) by lia.
    by rewrite andb_false_r.
  - cbn [timeEntriesClosed]. unfold timeEntryClosed. rewrite IH.
    f_equal.
    + destruct (Z.ltb_spec 0 c) as [Hc|Hc]; cbn [andb].
      * apply bool_decide_ext. lia.
      * symmetry. apply bool_decide_eq_false_2. lia.
    + destruct cb; cbn [andb]; [|by rewrite andb_false_r].
      rewrite andb_true_r.
      destruct (Z.eqb_spec (c - 1) 0) as [Hc|Hc].
      * rewrite (bool_decide_eq_false_2 (1 <= c - 1 <= _)) by lia.
        by rewrite bool_decide_eq_true_2 by lia.
      * cbn [app].
        by rewrite (bool_decide_ext (1 <= c - 1 <= Z.of_nat m)
                      (1 <= c <= Z.of_nat (S m))) by lia.
Qed.

(** X3.  [Group.close(callback)] on a group whose [timeEntryCount] is the
    number of its time entries: the group is left closed, empty, with a
    count of 0; with no time entry the callback is called at once;
    otherwise [close] is called on every time entry once, and the callback
    of [close] is called exactly once, when the last of these has
    finished -- not before, and a further call of the function handed to
    the time entries would trip its assertion. *)
Theorem close_calls_back_once (g : Group) (m : nat) :
  timeEntryCount g = Z.of_nat (size (timeEntries g)) ->
  let n := size (timeEntries g) in
  (close g true).1 = mkGroup (name g) (path g) 0 ∅ true
  /\ (n = 0%nat -> (close g true).2 = [Callback None])
  /\ (n <> 0%nat ->
      (close g true).2 = TimeEntryClose <$> (ascending (timeEntries g)).*2
      /\ NoDup (ascending (timeEntries g)).*1
      /\ timeEntriesClosed m (timeEntryCount g) true
         = (bool_decide (m <= n)%nat,
            if bool_decide (n <= m)%nat then [Callback None] else [])).
Proof.
  intros Hcount n. unfold close. rewrite Hcount. fold n.
  destruct (Z.eqb_spec (Z.of_nat n) 0) as [Hn|Hn].
  - split; [done|]. split; [done|]. lia.
  - split; [done|]. split; [lia|]. intros _. split; [|split].
    + rewrite <- list_fmap_compose. apply list_fmap_ext. by intros i [k te] _.
    + apply NoDup_fst_ascending.
    + rewrite timeEntriesClosed_counts. cbn [andb]. f_equal.
      * apply bool_decide_ext. lia.
      * assert (bool_decide (1 <= Z.of_nat n <= Z.of_nat m)
                = bool_decide (n <= m)%nat) as -> by (apply bool_decide_ext; lia).
        done.
Qed.

Section Destruction.
Variable renameToHidden : string -> option string.
Variable heap : list TimeEntry.

(** X4.  [Group.removeOne(d, callback)] when a time entry is stored under
    [d] and its rename succeeds: the directory is renamed, the time entry
    closed, [rm -rf] started on the hidden name and the callback called
    with no error, in this order; the entry is gone from [timeEntries],
    every other entry is where it was, and [timeEntryCount] is one less.
    A second [removeOne(d)] then only calls the callback. *)
Theorem removeOne_present (g : Group) (d : Z) (te : teRef) (newFilename : string) :
  timeEntries g !! d = Some te ->
  renameToHidden (te_path (heap !!! te)) = Some newFilename ->
  let out := removeOne renameToHidden heap g d in
  effects out = [Rename (te_path (heap !!! te)) newFilename; TimeEntryClose te;
                 SpawnRm newFilename; Callback None]
  /\ timeEntries (group out) !! d = None
  /\ (forall k, k <> d -> timeEntries (group out) !! k = timeEntries g !! k)
  /\ timeEntryCount (group out) = timeEntryCount g - 1
  /\ (name (group out), path (group out), closed (group out))
     = (name g, path g, closed g)
  /\ removeOne renameToHidden heap (group out) d
     = mkOutcome (group out) [Callback None] [].
Proof.
  intros Hte Hren out. unfold out, removeOne. rewrite Hte, Hren. cbn.
  rewrite lookup_delete_eq. repeat split; try done.
  intros k Hk. by rewrite lookup_delete_ne.
Qed.

(** [deleteNextDir] only hands out directories of its list. *)
Lemma deleteNextDir_subset (dirs : list string) (dir : string) :
  dir ∈ spawnedRm (deleteNextDir dirs).1 ++ (deleteNextDir dirs).2 -> dir ∈ dirs.
Proof.
  unfold deleteNextDir.
  destruct dirs as [|x l _] using rev_ind; [done|].
  rewrite pop_snoc. destruct (truthyString x); cbn.
  - rewrite elem_of_cons, elem_of_app, list_elem_of_singleton. tauto.
  - rewrite elem_of_app. tauto.
Qed.

Lemma childExits_subset (n : nat) : forall (dirs : list string) (dir : string),
  dir ∈ spawnedRm (childExits n dirs) -> dir ∈ dirs.
Proof.
  induction n as [|n IH]; intros dirs dir Hin; [by apply elem_of_nil in Hin|].
  cbn [childExits] in Hin.
  pose proof (deleteNextDir_subset dirs) as Hsub.
  destruct (deleteNextDir dirs) as [[|e sp] rest]; [by apply elem_of_nil in Hin|].
  rewrite spawnedRm_app in Hin. apply elem_of_app in Hin as [Hin|Hin].
  - apply Hsub. cbn [fst snd]. apply elem_of_app. by left.
  - apply Hsub. cbn [fst snd]. apply elem_of_app. right. by apply IH.
Qed.

Lemma hiddenBy_app (log more : list Effect) (dir : string) :
  hiddenBy renameToHidden log dir -> hiddenBy renameToHidden (log ++ more) dir.
Proof. intros (p & Hp & Hin). exists p. split; [done|]. apply elem_of_app. by left. Qed.

Lemma spawnedRm_elem (effs : list Effect) (dir : string) :
  dir ∈ spawnedRm effs <-> SpawnRm dir ∈ effs.
Proof.
  unfold spawnedRm. rewrite list_elem_of_omap. split.
  - intros (e & He & Hd). destruct e; try done. by injection Hd as ->.
  - intros H. by exists (SpawnRm dir).
Qed.

Lemma removeLoop_hidden (todo : list Z) :
  forall (g : Group) (dirs : list string) (log : list Effect),
  (forall dir, dir ∈ spawnedRm log ++ dirs -> hiddenBy renameToHidden log dir) ->
  let out := removeLoop renameToHidden heap todo g dirs log in
  forall dir, dir ∈ spawnedRm (effects out) ++ dirsToRemove out ->
    hiddenBy renameToHidden (effects out) dir.
Proof.
  assert (Hend : forall (g : Group) dirs log err,
    (forall dir, dir ∈ spawnedRm log ++ dirs -> hiddenBy renameToHidden log dir) ->
    let out := (let '(spawned, dirs') := deleteNextDir dirs in
                mkOutcome g (log ++ spawned ++ [Callback err]) dirs') in
    forall dir, dir ∈ spawnedRm (effects out) ++ dirsToRemove out ->
      hiddenBy renameToHidden (effects out) dir).
  { intros g dirs log err Hinv.
    pose proof (deleteNextDir_subset dirs) as Hsub.
    destruct (deleteNextDir dirs) as [sp rest]. cbn [fst snd] in Hsub.
    intros out dir. unfold out. cbn [effects dirsToRemove].
    rewrite !spawnedRm_app. cbn [spawnedRm omap list_omap]. rewrite app_nil_r.
    rewrite <- app_assoc. intros Hin. apply hiddenBy_app, Hinv.
    apply elem_of_app in Hin as [Hin|Hin]; apply elem_of_app; [by left|right].
    by apply Hsub. }
  induction todo as [|dts todo IH]; intros g dirs log Hinv.
  - cbn [removeLoop]. by apply Hend.
  - cbn [removeLoop]. destruct (timeEntries g !! dts) as [te|]; [|by apply Hend].
    destruct (renameToHidden (te_path (heap !!! te))) as [new|] eqn:Hren;
      [|by apply Hend].
    apply IH. intros dir Hin. rewrite spawnedRm_app in Hin.
    cbn [spawnedRm omap list_omap] in Hin. rewrite app_nil_r in Hin.
    rewrite app_assoc in Hin. apply elem_of_app in Hin as [Hin|Hin].
    + by apply hiddenBy_app, Hinv.
    + apply list_elem_of_singleton in Hin as ->.
      exists (te_path (heap !!! te)). split; [done|].
      apply elem_of_app. right. by left.
Qed.

(** X5.  [rm -rf] is only ever started on a hidden name that a rename of
    the same call has produced: this holds for [removeOne], for both forms
    of [remove], whether the renames succeed or not, and for every [rm]
    that the exits of the [rm] children start later. *)
Theorem rm_only_on_hidden_names (g : Group) (d : Z) (dayTimestamp : option Z)
    (n : nat) (dir : string) :
  let out1 := removeOne renameToHidden heap g d in
  let out := remove renameToHidden heap g dayTimestamp in
  (SpawnRm dir ∈ effects out1 -> hiddenBy renameToHidden (effects out1) dir)
  /\ dirsToRemove out1 = []
  /\ (SpawnRm dir ∈ effects out ++ childExits n (dirsToRemove out) ->
      hiddenBy renameToHidden (effects out) dir).
Proof.
  cbv zeta. split; [|split].
  - unfold removeOne. destruct (timeEntries g !! d) as [te|]; cbn.
    + destruct (renameToHidden (te_path (heap !!! te))) as [new|] eqn:Hren; cbn.
      * intros Hin. repeat (apply elem_of_cons in Hin as [Hin|Hin]; [try done|]).
        -- injection Hin as ->. exists (te_path (heap !!! te)).
           split; [done|]. by left.
        -- by apply elem_of_nil in Hin.
      * intros Hin. repeat (apply elem_of_cons in Hin as [Hin|Hin]; [try done|]).
        by apply elem_of_nil in Hin.
    + intros Hin. repeat (apply elem_of_cons in Hin as [Hin|Hin]; [try done|]).
      by apply elem_of_nil in Hin.
  - unfold removeOne. destruct (timeEntries g !! d) as [te|]; [|done].
    by destruct (renameToHidden _).
  - unfold remove. destruct (truthyNumber dayTimestamp).
    + intros Hin%spawnedRm_elem.
      apply (removeLoop_hidden (dayTimestampsToRemove g (default 0 dayTimestamp))
               g [] []).
      { intros x Hx. by apply elem_of_nil in Hx. }
      rewrite spawnedRm_app in Hin.
      apply elem_of_app in Hin as [Hin|Hin]; apply elem_of_app; [by left|right].
      by eapply childExits_subset.
    + destruct (renameToHidden (path g)) as [new|] eqn:Hren.
      * unfold close. destruct (timeEntryCount g =? 0); cbn [effects dirsToRemove].
        -- destruct n; cbn; intros Hin;
             repeat (apply elem_of_cons in Hin as [Hin|Hin]; [try done|]);
             try (by apply elem_of_nil in Hin);
             injection Hin as ->; exists (path g); (split; [done|by left]).
        -- assert (Hnil : childExits n [] = []) by (by destruct n).
           rewrite Hnil, app_nil_r.
           intros Hin. apply elem_of_cons in Hin as [Hin|Hin]; [done|].
           apply elem_of_app in Hin as [Hin|Hin].
           ++ apply list_elem_of_fmap in Hin as ([k te] & Heq & _). done.
           ++ apply elem_of_cons in Hin as [Hin|Hin].
              ** injection Hin as ->. exists (path g). split; [done|by left].
              ** apply elem_of_cons in Hin as [Hin|Hin]; [done|].
                 by apply elem_of_nil in Hin.
      * cbn [effects dirsToRemove].
        assert (Hnil : childExits n [] = []) by (by destruct n).
        rewrite Hnil, app_nil_r. intros Hin.
        apply elem_of_cons in Hin as [Hin|Hin]; [done|].
        by apply elem_of_nil in Hin.
Qed.






(** X7.  [Group.remove(d, callback)] with a day timestamp other than 0
    and no time entry older than it: the callback is called with no
    error, nothing is renamed or closed, no [rm] is started, and the group
    is as it was. *)
Theorem remove_nothing_older (g : Group) (d : Z) :
  d <> 0 ->
  (forall dts te, timeEntries g !! dts = Some te -> d <= dts) ->
  remove renameToHidden heap g (Some d) = mkOutcome g [Callback None] [].
Proof.
  intros Hd Hall. unfold remove. simpl. destruct (Z.eqb_spec d 0); [done|]. simpl.
  assert (Hnil : dayTimestampsToRemove g d = []).
  { apply elem_of_nil_inv. intros k [[te Hte] Hlt]%elem_of_dayTimestampsToRemove.
    specialize (Hall k te Hte). lia. }
  by rewrite Hnil.
Qed.

End Destruction.

Lemma close_calls_back_once_witness :
  (close exampleGroup true).2 = TimeEntryClose <$> (ascending (timeEntries exampleGroup)).*2
  /\ timeEntriesClosed 1 2 true = (true, [])
  /\ timeEntriesClosed 2 2 true = (true, [Callback None]).
Proof.
  destruct (close_calls_back_once exampleGroup 1) as (_ & _ & H1); [reflexivity|].
  destruct (close_calls_back_once exampleGroup 2) as (_ & _ & H2); [reflexivity|].
  destruct H1 as (Hc & _ & H1); [done|]. destruct H2 as (_ & _ & H2); [done|].
  split; [exact Hc|]. split; [exact H1|exact H2].
Defined.

Lemma removeOne_present_witness :
  timeEntries (group (removeOne exampleRename exampleHeap exampleGroup 3)) !! 3 = None
  /\ timeEntryCount (group (removeOne exampleRename exampleHeap exampleGroup 3)) = 2 - 1.
Proof.
  destruct (removeOne_present exampleRename exampleHeap exampleGroup 3 0%nat
              ".hidden-/db/g/3") as (_ & H1 & _ & H2 & _);
    [reflexivity|reflexivity|].
  split; [exact H1|exact H2].
Defined.

Lemma remove_nothing_older_witness :
  remove exampleRename exampleHeap exampleGroup (Some 3)
  = mkOutcome exampleGroup [Callback None] [].
Proof.
  apply remove_nothing_older; [lia|].
  intros dts te Hte.
  destruct (decide (dts = 3)) as [->|H3]; [lia|].
  destruct (decide (dts = 5)) as [->|H5]; [lia|].
  unfold exampleGroup in Hte. cbn [timeEntries] in Hte.
  rewrite lookup_insert_ne in Hte by done.
  rewrite lookup_singleton_ne in Hte by done. done.
Defined.


End GroupJsProofs.

(** * Properties of lib/zangetsu/replica_slave.js *)

Module ReplicaSlaveProofs.
Import ReplicaSlave.
Local Open Scope js_scope.

(** ** The work queue *)

(** Symbolic execution of a handler: the primitives of the monad are
    unfolded and the state, once it is a record of known shape, flows
    through them. *)
Ltac unfold_monad :=
  unfold bind, ret, gets, modify, throw, skip, when, emit, newItem, updateItem,
    getItem, getTimeEntry, updateTimeEntry, incReadOperations, decReadOperations,
    _writeJSON, _write, _readJsonObject, connected, console_assert.

Ltac mrun :=
  repeat progress
    (unfold_monad;
     cbn -[Z.add Z.sub Z.mul Z.leb Z.ltb Z.eqb lookup lookup_total alter insert
           delete]).

Ltac simpl_fields :=
  cbn [state socketDestroyed resultCheckThreshold toc workQueue currentWorkItem
       resultCheckCounter cleanupHandler nextOpId replicatorStarted items database
       subscribed assertThrows pending log groups entries calculateRecordSize] in *.

Ltac destruct_world w :=
  destruct w as [?st ?sd ?th ?t ?q ?cur ?rc ?ch ?op ?rs ?its [?grps ?es ?calc]
                 ?sub ?ath ?p ?l].

Lemma alter_last (f : WorkItem -> WorkItem) (l : list WorkItem) (x : WorkItem) :
  alter f (List.length l) (l ++ [x]) = l ++ [f x].
Proof.
  rewrite alter_app_r_alt by lia. by rewrite Nat.sub_diag.
Qed.

(** Running [addToWorkQueue] by hand on any session: it always returns, and
    the session it leaves is [addToWorkQueueSpec]. *)
Lemma addToWorkQueue_run (item : WorkItem) (cb : option cbRef) (w : World) :
  addToWorkQueue item cb w = Ok tt (addToWorkQueueSpec item cb w).
Proof.
  destruct_world w. unfold addToWorkQueue, addToWorkQueueSpec. mrun.
  destruct (bool_decide (command item = Some FILL_COMMAND)) eqn:Hc;
    destruct (bool_decide (is_Some (dataBuffers item))) eqn:Hb; cbn [andb].
  - rewrite bool_decide_eq_true_2
      by (split; eapply bool_decide_eq_true; eassumption).
    mrun. destruct (Z.leb_spec th (rc + 1)).
    + rewrite bool_decide_eq_true_2 by lia. mrun.
      rewrite length_app, Nat.add_1_r, <- app_assoc, <- app_assoc. done.
    + rewrite bool_decide_eq_false_2 by lia. mrun. rewrite last_snoc.
      mrun. by rewrite alter_last.
  - rewrite bool_decide_eq_false_2
      by (intros [_ H]; apply bool_decide_eq_false in Hb; done).
    mrun. rewrite last_snoc. mrun. by rewrite alter_last.
  - rewrite bool_decide_eq_false_2
      by (intros [H _]; apply bool_decide_eq_false in Hc; done).
    mrun. rewrite last_snoc. mrun. by rewrite alter_last.
  - rewrite bool_decide_eq_false_2
      by (intros [H _]; apply bool_decide_eq_false in Hc; done).
    mrun. rewrite last_snoc. mrun. by rewrite alter_last.
Qed.

(** C6.  [addToWorkQueue(item, callback)] does what the specification
    says: the counter moves only for a fill that carries data buffers;
    when it reaches the threshold it is set to 0 and a [CHECK_RESULTS]
    item, holding the callback, is put in the queue right after the fill;
    in every other case the queue grows by the item alone, holding the
    callback. *)
Theorem addToWorkQueue_spec (item : WorkItem) (cb : option cbRef) (w : World) :
  addToWorkQueue item cb w = Ok tt (addToWorkQueueSpec item cb w).
Proof. exact (addToWorkQueue_run item cb w). Qed.

(** ** The diff *)

Lemma bumpReaders_app (a b : list WorkItem) (es : list TimeEntry) :
  bumpReaders (a ++ b) es = bumpReaders b (bumpReaders a es).
Proof. unfold bumpReaders. by rewrite foldl_app. Qed.

Lemma writtenSize_bumpReaders (its : list WorkItem) :
  forall (es : list TimeEntry) (te : teRef),
  writtenSize (bumpReaders its es !!! te) = writtenSize (es !!! te).
Proof.
  induction its as [|it its IH]; intros es te; [done|].
  change (bumpReaders (it :: its) es) with (bumpReaders ([it] ++ its) es).
  rewrite bumpReaders_app, IH. unfold bumpReaders. cbn [foldl].
  destruct (command it) as [[]|]; try done.
  destruct (timeEntry it) as [te'|]; [|done].
  destruct (decide (te' = te)) as [->|Hne].
  - destruct (es !! te) as [e|] eqn:He.
    + rewrite !list_lookup_total_alt, list_lookup_alter_eq, He. done.
    + rewrite !list_lookup_total_alt, list_lookup_alter_eq, He. done.
  - by rewrite list_lookup_total_alter_ne.
Qed.

Lemma enqueued_nil (w : World) : enqueued [] w = w.
Proof.
  destruct_world w. unfold enqueued. cbn. by rewrite !app_nil_r.
Qed.

Lemma enqueued_app (a b : list WorkItem) (w : World) :
  enqueued (a ++ b) w = enqueued b (enqueued a w).
Proof.
  destruct_world w. unfold enqueued. cbn.
  rewrite bumpReaders_app, !length_app, seq_app, !app_assoc. done.
Qed.

(** A prune joins the queue. *)
Lemma addToWorkQueue_prune (item : WorkItem) (w : World) :
  command item = Some PRUNE_ONE_COMMAND ->
  callback item = None ->
  addToWorkQueue item None w = Ok tt (enqueued [item] w).
Proof.
  intros Hc Hcb. rewrite addToWorkQueue_run. f_equal.
  unfold addToWorkQueueSpec. rewrite bool_decide_eq_false_2.
  2:{ rewrite Hc. by intros [[=] _]. }
  destruct_world w. unfold enqueued, bumpReaders. cbn. rewrite Hc.
  destruct item; cbn in *; subst. reflexivity.
Qed.

(** A fill that streams joins the queue and takes a reader. *)
Lemma addToWorkQueue_fill (g : string) (dst : Z) (te : teRef) (w : World) :
  (addToWorkQueue (fillItem g dst te) None;; incReadOperations te) w
  = Ok tt (enqueued [fillItem g dst te] w).
Proof.
  unfold bind. rewrite addToWorkQueue_run.
  destruct_world w. reflexivity.
Qed.

Lemma writtenSizeOf_enqueued (its : list WorkItem) (w : World) (te : teRef) :
  writtenSize (entries (database (enqueued its w)) !!! te)
  = writtenSizeOf (database w) te.
Proof.
  destruct_world w. unfold enqueued, writtenSizeOf. cbn.
  apply writtenSize_bumpReaders.
Qed.

Lemma database_enqueued (its : list WorkItem) (w : World) :
  groups (database (enqueued its w)) = groups (database w).
Proof. by destruct_world w. Qed.

Lemma toc_enqueued (its : list WorkItem) (w : World) :
  toc (enqueued its w) = toc w.
Proof. by destruct_world w. Qed.

(** A loop whose body enqueues the items [f x] enqueues them all. *)
Lemma forEach_enqueued {A} (l : list A) (body : A -> M unit)
    (f : A -> list WorkItem) (w : World) :
  (forall x its0, x ∈ l ->
     body x (enqueued its0 w) = Ok tt (enqueued (its0 ++ f x) w)) ->
  forall its0,
    forEach l body (enqueued its0 w) = Ok tt (enqueued (its0 ++ (l ≫= f)) w).
Proof.
  induction l as [|x l IH]; intros Hbody its0.
  - cbn. by rewrite app_nil_r.
  - cbn [forEach]. unfold bind. rewrite Hbody by left.
    rewrite IH by (intros; apply Hbody; by right).
    csimpl. by rewrite app_assoc.
Qed.

Lemma slaveSide_run (w : World) (its0 : list WorkItem) :
  let db := database w in
  forEach (map_to_list (toc w)) (fun '(groupName, groupOnReplica) =>
    match groups db !! groupName with
    | Some localGroup =>
        forEach (ascending groupOnReplica) (fun '(dst, timeEntryOnReplica) =>
          match timeEntries localGroup !! dst with
          | Some localTimeEntry =>
              e ← getTimeEntry localTimeEntry;
              when (writtenSize e <? size timeEntryOnReplica) (
                addToWorkQueue (pruneOneItem groupName dst) None;;
                addToWorkQueue (fillItem groupName dst localTimeEntry) None;;
                incReadOperations localTimeEntry)
          | None =>
              addToWorkQueue (pruneOneItem groupName dst) None
          end)
    | None =>
        addToWorkQueue (pruneGroupItem groupName) None
    end) (enqueued its0 w)
  = Ok tt (enqueued (its0 ++ slaveSideItems db (toc w)) w).
Proof.
  intros db. unfold slaveSideItems. apply forEach_enqueued.
  intros [g groupOnReplica] its1 _. fold db.
  destruct (groups db !! g) as [localGroup|].
  - apply forEach_enqueued. intros [dst r] its2 _.
    destruct (timeEntries localGroup !! dst) as [te|].
    + unfold bind at 1, getTimeEntry, gets. rewrite writtenSizeOf_enqueued. fold db.
      destruct (writtenSizeOf db te <? size r); cbn [when].
      * unfold bind at 1. rewrite addToWorkQueue_prune by done.
        rewrite addToWorkQueue_fill. rewrite <- !enqueued_app. by rewrite <- ?app_assoc.
      * by rewrite app_nil_r.
    + rewrite addToWorkQueue_prune by done. by rewrite <- enqueued_app.
  - rewrite addToWorkQueue_prune by done. by rewrite <- enqueued_app.
Qed.

Lemma masterSide_run (w : World) (t : Toc) (its0 : list WorkItem) :
  let db := database w in
  forEach (map_to_list (groups db)) (fun '(groupName, localGroup) =>
    let groupOnReplica := t !! groupName in
    forEach (ascending (timeEntries localGroup)) (fun '(dst, localTimeEntry) =>
      let timeEntryOnReplica := groupOnReplica ≫= fun g => g !! dst in
      e ← getTimeEntry localTimeEntry;
      match timeEntryOnReplica with
      | Some r =>
          when (size r <? writtenSize e) (
            addToWorkQueue (fillItem groupName dst localTimeEntry) None;;
            incReadOperations localTimeEntry)
      | None =>
          when (0 <? writtenSize e) (
            addToWorkQueue (fillItem groupName dst localTimeEntry) None;;
            incReadOperations localTimeEntry)
      end)) (enqueued its0 w)
  = Ok tt (enqueued (its0 ++ masterSideItems db t) w).
Proof.
  intros db. unfold masterSideItems. apply forEach_enqueued.
  intros [g localGroup] its1 _. cbv zeta.
  apply forEach_enqueued. intros [dst te] its2 _.
  unfold bind at 1, getTimeEntry, gets. rewrite writtenSizeOf_enqueued. fold db.
  unfold lookupMirror. cbn [fst snd].
  destruct (t !! g ≫= λ g0, g0 !! dst) as [r|].
  - destruct (size r <? writtenSizeOf db te); cbn [when].
    + rewrite addToWorkQueue_fill. by rewrite <- enqueued_app.
    + by rewrite app_nil_r.
  - destruct (0 <? writtenSizeOf db te); cbn [when].
    + rewrite addToWorkQueue_fill. by rewrite <- enqueued_app.
    + by rewrite app_nil_r.
Qed.

(** What a run of [scheduleSlaveSynchronizationCommands] leaves. *)
Lemma bind_gets {A B} (f : World -> A) (k : A -> M B) (w : World) :
  bind (gets f) k w = k (f w) w.
Proof. reflexivity. Qed.

Lemma bind_Ok {A B} (m : M A) (k : A -> M B) (w w' : World) (a : A) :
  m w = Ok a w' -> bind m k w = k a w'.
Proof. unfold bind. by intros ->. Qed.

Lemma schedule_run (w : World) :
  scheduleSlaveSynchronizationCommands w
  = Ok tt (enqueued (scheduledItems (database w) (toc w)) w).
Proof.
  unfold scheduleSlaveSynchronizationCommands.
  rewrite !bind_gets.
  erewrite bind_Ok.
  2:{ pose proof (slaveSide_run w []) as H. rewrite enqueued_nil in H. exact H. }
  cbn [app]. apply (masterSide_run w (toc w)).
Qed.

Lemma elem_of_slaveSideItems (db : Database) (t : Toc) (it : WorkItem) :
  it ∈ slaveSideItems db t <->
  exists g gr, t !! g = Some gr /\
    match groups db !! g with
    | None => it = pruneGroupItem g
    | Some lg =>
        exists dst r, gr !! dst = Some r /\
          match timeEntries lg !! dst with
          | None => it = pruneOneItem g dst
          | Some te =>
              writtenSizeOf db te < size r
              /\ (it = pruneOneItem g dst \/ it = fillItem g dst te)
          end
    end.
Proof.
  unfold slaveSideItems. rewrite list_elem_of_bind. split.
  - intros ([g gr] & Hin & Hg%elem_of_map_to_list). exists g, gr. split; [done|].
    destruct (groups db !! g) as [lg|]; [|by apply list_elem_of_singleton in Hin].
    apply list_elem_of_bind in Hin as ([dst r] & Hin & Hd%elem_of_ascending).
    exists dst, r. split; [done|].
    destruct (timeEntries lg !! dst) as [te|];
      [|by apply list_elem_of_singleton in Hin].
    destruct (Z.ltb_spec (writtenSizeOf db te) (size r)); [|by apply elem_of_nil in Hin].
    split; [done|]. apply elem_of_cons in Hin as [->|Hin]; [by left|].
    apply list_elem_of_singleton in Hin. by right.
  - intros (g & gr & Hg & Hit). exists (g, gr).
    split; [|by apply elem_of_map_to_list].
    destruct (groups db !! g) as [lg|]; [|by apply list_elem_of_singleton].
    destruct Hit as (dst & r & Hd & Hit). apply list_elem_of_bind.
    exists (dst, r). split; [|by apply elem_of_ascending].
    destruct (timeEntries lg !! dst) as [te|]; [|by apply list_elem_of_singleton].
    destruct Hit as [Hlt Hit]. rewrite (proj2 (Z.ltb_lt _ _) Hlt).
    destruct Hit as [->| ->]; [by left|right; by left].
Qed.

Lemma elem_of_masterSideItems (db : Database) (t : Toc) (it : WorkItem) :
  it ∈ masterSideItems db t <->
  exists g dst te, localEntry db g dst = Some te /\ it = fillItem g dst te /\
    match lookupMirror t (g, dst) with
    | Some r => size r < writtenSizeOf db te
    | None => 0 < writtenSizeOf db te
    end.
Proof.
  unfold masterSideItems, localEntry. rewrite list_elem_of_bind. split.
  - intros ([g lg] & Hin & Hg%elem_of_map_to_list).
    apply list_elem_of_bind in Hin as ([dst te] & Hin & Hd%elem_of_ascending).
    exists g, dst, te. rewrite Hg. csimpl. split; [done|].
    destruct (lookupMirror t (g, dst)) as [r|].
    + destruct (Z.ltb_spec (size r) (writtenSizeOf db te)); [|by apply elem_of_nil in Hin].
      by apply list_elem_of_singleton in Hin.
    + destruct (Z.ltb_spec 0 (writtenSizeOf db te)); [|by apply elem_of_nil in Hin].
      by apply list_elem_of_singleton in Hin.
  - intros (g & dst & te & Hloc & -> & Hsz).
    destruct (groups db !! g) as [lg|] eqn:Hg; [|done]. csimpl in Hloc.
    exists (g, lg). split; [|by apply elem_of_map_to_list].
    apply list_elem_of_bind. exists (dst, te).
    split; [|by apply elem_of_ascending].
    destruct (lookupMirror t (g, dst)) as [r|];
      rewrite (proj2 (Z.ltb_lt _ _) Hsz); by left.
Qed.

Lemma lookupMirror_Some (t : Toc) (g : string) (dst : Z) (r : TocEntry) :
  lookupMirror t (g, dst) = Some r <->
  exists gr, t !! g = Some gr /\ gr !! dst = Some r.
Proof.
  unfold lookupMirror. cbn [fst snd]. destruct (t !! g) as [gr|]; csimpl.
  - split; [by exists gr|]. by intros (? & [= <-] & ?).
  - split; [done|]. by intros (? & [=] & _).
Qed.

Lemma localEntry_Some (db : Database) (g : string) (dst : Z) (te : teRef) :
  localEntry db g dst = Some te <->
  exists lg, groups db !! g = Some lg /\ timeEntries lg !! dst = Some te.
Proof.
  unfold localEntry. destruct (groups db !! g) as [lg|]; csimpl.
  - split; [by exists lg|]. by intros (? & [= <-] & ?).
  - split; [done|]. by intros (? & [=] & _).
Qed.

(** The items of the diff are the items that are due. *)
Lemma elem_of_scheduledItems (db : Database) (t : Toc) (it : WorkItem) :
  it ∈ scheduledItems db t <-> Due db t it.
Proof.
  unfold scheduledItems. rewrite elem_of_app, elem_of_slaveSideItems,
    elem_of_masterSideItems. split.
  - intros [(g & gr & Hg & Hit)|(g & dst & te & Hloc & -> & Hsz)].
    + destruct (groups db !! g) as [lg|] eqn:Hlg.
      * destruct Hit as (dst & r & Hd & Hit).
        assert (Hm : lookupMirror t (g, dst) = Some r)
          by (apply lookupMirror_Some; eauto).
        destruct (timeEntries lg !! dst) as [te|] eqn:Hte.
        -- assert (Hl : localEntry db g dst = Some te)
             by (apply localEntry_Some; eauto).
           destruct Hit as [Hlt [-> | ->]].
           ++ by eapply due_refill_prune.
           ++ by eapply due_refill_fill.
        -- subst it. apply due_prune_entry; [by rewrite Hm|by rewrite Hlg|].
           unfold localEntry. rewrite Hlg. done.
      * subst it. apply due_prune_group; [by rewrite Hg|done].
    + destruct (lookupMirror t (g, dst)) as [r|] eqn:Hm.
      * by eapply due_fill_larger.
      * by eapply due_fill_missing.
  - intros [g [gr Hg] Hlg
           |g dst [r Hm] [lg Hlg] Hloc
           |g dst r te Hm Hloc Hlt
           |g dst r te Hm Hloc Hlt
           |g dst r te Hm Hloc Hlt
           |g dst te Hm Hloc Hlt].
    + left. exists g, gr. by rewrite Hlg.
    + left. apply lookupMirror_Some in Hm as (gr & Hg & Hd).
      exists g, gr. split; [done|]. rewrite Hlg. exists dst, r. split; [done|].
      unfold localEntry in Hloc. rewrite Hlg in Hloc. csimpl in Hloc. by rewrite Hloc.
    + left. apply lookupMirror_Some in Hm as (gr & Hg & Hd).
      apply localEntry_Some in Hloc as (lg & Hlg & Hte).
      exists g, gr. split; [done|]. rewrite Hlg. exists dst, r. split; [done|].
      rewrite Hte. split; [done|by left].
    + left. apply lookupMirror_Some in Hm as (gr & Hg & Hd).
      apply localEntry_Some in Hloc as (lg & Hlg & Hte).
      exists g, gr. split; [done|]. rewrite Hlg. exists dst, r. split; [done|].
      rewrite Hte. split; [done|by right].
    + right. exists g, dst, te. by rewrite Hm.
    + right. exists g, dst, te. by rewrite Hm.
Qed.

Lemma bind_split {A B} (f : A -> list B) (l : list A) (x : A) :
  x ∈ l -> exists l1 l2, l ≫= f = l1 ++ f x ++ l2.
Proof.
  intros (a & b & ->)%list_elem_of_split.
  exists (a ≫= f), (b ≫= f). rewrite bind_app. by csimpl.
Qed.

(** A time entry that is larger on the slave is pruned and then filled,
    the fill right behind the prune. *)
Lemma refill_adjacent (db : Database) (t : Toc) (g : string) (dst : Z)
    (r : TocEntry) (te : teRef) :
  lookupMirror t (g, dst) = Some r -> localEntry db g dst = Some te ->
  writtenSizeOf db te < size r ->
  exists l1 l2,
    scheduledItems db t = l1 ++ pruneOneItem g dst :: fillItem g dst te :: l2.
Proof.
  intros (gr & Hg & Hd)%lookupMirror_Some (lg & Hlg & Hte)%localEntry_Some Hlt.
  unfold scheduledItems, slaveSideItems.
  apply elem_of_map_to_list in Hg. apply elem_of_ascending in Hd.
  match goal with |- context [map_to_list t ≫= ?f] =>
    destruct (bind_split f _ _ Hg) as (a & b & ->) end.
  cbn beta iota. rewrite Hlg.
  match goal with |- context [ascending gr ≫= ?f] =>
    destruct (bind_split f _ _ Hd) as (a' & b' & ->) end.
  cbn beta iota. rewrite Hte, (proj2 (Z.ltb_lt _ _) Hlt).
  exists (a ++ a'), (b' ++ b ++ masterSideItems db t).
  rewrite <- !app_assoc. done.
Qed.

Lemma NoDup_slaveSideItems (db : Database) (t : Toc) :
  NoDup (slaveSideItems db t).
Proof.
  unfold slaveSideItems.
  assert (Hinner : forall g lg (gr : gmap Z TocEntry) (x : Z * TocEntry) it,
    it ∈ (let '(dst, r) := x in
          match timeEntries lg !! dst with
          | Some te =>
              if writtenSizeOf db te <? size r
              then [pruneOneItem g dst; fillItem g dst te] else []
          | None => [pruneOneItem g dst]
          end) ->
    groupName it = Some g /\ dayTimestamp it = Some x.1).
  { intros g lg gr [dst r] it Hin. cbn [fst].
    destruct (timeEntries lg !! dst) as [te|].
    - destruct (writtenSizeOf db te <? size r); [|by apply elem_of_nil in Hin].
      apply elem_of_cons in Hin as [->|Hin]; [done|].
      by apply list_elem_of_singleton in Hin as ->.
    - by apply list_elem_of_singleton in Hin as ->. }
  assert (Houter : forall (x : string * gmap Z TocEntry) it,
    it ∈ (let '(g, groupOnReplica) := x in
          match groups db !! g with
          | Some localGroup =>
              ascending groupOnReplica ≫= fun '(dst, r) =>
                match timeEntries localGroup !! dst with
                | Some te =>
                    if writtenSizeOf db te <? size r
                    then [pruneOneItem g dst; fillItem g dst te] else []
                | None => [pruneOneItem g dst]
                end
          | None => [pruneGroupItem g]
          end) ->
    groupName it = Some x.1).
  { intros [g gr] it Hin. cbn [fst]. destruct (groups db !! g) as [lg|].
    - apply list_elem_of_bind in Hin as (x & Hin & _).
      by apply (Hinner g lg gr) in Hin as [? _].
    - by apply list_elem_of_singleton in Hin as ->. }
  apply NoDup_bind; [| |apply NoDup_map_to_list].
  - intros [g1 gr1] [g2 gr2] it H1%elem_of_map_to_list H2%elem_of_map_to_list
      Hin1 Hin2.
    apply (Houter (g1, gr1)) in Hin1. apply (Houter (g2, gr2)) in Hin2.
    cbn in Hin1, Hin2. rewrite Hin1 in Hin2. injection Hin2 as ->.
    rewrite H1 in H2. by injection H2 as ->.
  - intros [g gr] _. destruct (groups db !! g) as [lg|]; [|apply NoDup_singleton].
    apply NoDup_bind; [| |apply NoDup_ascending].
    + intros [d1 r1] [d2 r2] it H1%elem_of_ascending H2%elem_of_ascending
        Hin1 Hin2.
      apply (Hinner g lg gr (d1, r1)) in Hin1 as [_ Hin1].
      apply (Hinner g lg gr (d2, r2)) in Hin2 as [_ Hin2].
      cbn in Hin1, Hin2. rewrite Hin1 in Hin2. injection Hin2 as ->.
      rewrite H1 in H2. by injection H2 as ->.
    + intros [dst r] _. destruct (timeEntries lg !! dst) as [te|];
        [|apply NoDup_singleton].
      destruct (writtenSizeOf db te <? size r); [|apply NoDup_nil_2].
      apply NoDup_cons. split; [|apply NoDup_singleton].
      intros Hin. by apply list_elem_of_singleton in Hin.
Qed.

Lemma NoDup_masterSideItems (db : Database) (t : Toc) :
  NoDup (masterSideItems db t).
Proof.
  unfold masterSideItems.
  assert (Hinner : forall g (x : Z * teRef) it,
    it ∈ (let '(dst, te) := x in
          match lookupMirror t (g, dst) with
          | Some r => if size r <? writtenSizeOf db te then [fillItem g dst te] else []
          | None => if 0 <? writtenSizeOf db te then [fillItem g dst te] else []
          end) ->
    it = fillItem g x.1 x.2).
  { intros g [dst te] it Hin. cbn [fst snd].
    destruct (lookupMirror t (g, dst)) as [r|].
    - destruct (size r <? writtenSizeOf db te); [|by apply elem_of_nil in Hin].
      by apply list_elem_of_singleton in Hin.
    - destruct (0 <? writtenSizeOf db te); [|by apply elem_of_nil in Hin].
      by apply list_elem_of_singleton in Hin. }
  apply NoDup_bind; [| |apply NoDup_map_to_list].
  - intros [g1 lg1] [g2 lg2] it H1%elem_of_map_to_list H2%elem_of_map_to_list
      Hin1 Hin2.
    apply list_elem_of_bind in Hin1 as (x1 & Hin1 & _).
    apply list_elem_of_bind in Hin2 as (x2 & Hin2 & _).
    apply (Hinner g1 x1) in Hin1 as ->. apply (Hinner g2 x2) in Hin2.
    injection Hin2 as -> _ _.
    rewrite H1 in H2. by injection H2 as ->.
  - intros [g lg] _. apply NoDup_bind; [| |apply NoDup_ascending].
    + intros [d1 te1] [d2 te2] it _ _ Hin1 Hin2.
      apply (Hinner g (d1, te1)) in Hin1 as ->.
      apply (Hinner g (d2, te2)) in Hin2. by injection Hin2 as -> ->.
    + intros [dst te] _. destruct (lookupMirror t (g, dst)) as [r|].
      * destruct (size r <? writtenSizeOf db te);
          [apply NoDup_singleton|apply NoDup_nil_2].
      * destruct (0 <? writtenSizeOf db te);
          [apply NoDup_singleton|apply NoDup_nil_2].
Qed.

Lemma NoDup_scheduledItems (db : Database) (t : Toc) :
  NoDup (scheduledItems db t).
Proof.
  unfold scheduledItems. apply NoDup_app.
  split; [apply NoDup_slaveSideItems|split; [|apply NoDup_masterSideItems]].
  intros it (g & gr & Hg & Hit)%elem_of_slaveSideItems
    (g' & dst' & te' & Hloc & -> & Hsz)%elem_of_masterSideItems.
  destruct (groups db !! g) as [lg|] eqn:Hlg; [|done].
  destruct Hit as (dst & r & Hd & Hit).
  destruct (timeEntries lg !! dst) as [te|] eqn:Hte; [|done].
  destruct Hit as [Hlt [Heq|Heq]]; [done|]. injection Heq as -> -> ->.
  assert (Hm : lookupMirror t (g, dst) = Some r) by (apply lookupMirror_Some; eauto).
  rewrite Hm in Hsz. lia.
Qed.

(** C1.  [scheduleSlaveSynchronizationCommands] enqueues, as new work
    items, exactly the items that the diff calls for, each once: a prune
    of the whole group for a group of the slave that the master does not
    have; a prune of the entry for an entry of the slave that the master's
    group does not have; a prune and then right behind it a fill for an
    entry that is larger on the slave; a fill for an entry of the master
    that is larger than on the slave, or that the slave does not have and
    that is not empty.  Nothing is enqueued for an entry of equal sizes. *)
Theorem scheduleSlaveSynchronizationCommands_diff (w : World) :
  exists new : list WorkItem,
    scheduleSlaveSynchronizationCommands w = Ok tt (enqueued new w)
    /\ NoDup new
    /\ (forall it, it ∈ new <-> Due (database w) (toc w) it)
    /\ (forall g dst r te,
          lookupMirror (toc w) (g, dst) = Some r ->
          localEntry (database w) g dst = Some te ->
          writtenSizeOf (database w) te < size r ->
          exists l1 l2,
            new = l1 ++ pruneOneItem g dst :: fillItem g dst te :: l2)
    /\ (forall g dst r te,
          lookupMirror (toc w) (g, dst) = Some r ->
          localEntry (database w) g dst = Some te ->
          writtenSizeOf (database w) te = size r ->
          forall it, it ∈ new ->
            ~ (groupName it = Some g /\ dayTimestamp it = Some dst)).
Proof.
  exists (scheduledItems (database w) (toc w)).
  split; [apply schedule_run|].
  split; [apply NoDup_scheduledItems|].
  split; [apply elem_of_scheduledItems|].
  split; [apply refill_adjacent|].
  intros g dst r te Hm Hloc Heq it Hin%elem_of_scheduledItems [Hg Hd].
  destruct Hin as [g' ? ?
                  |g' dst' ? ? Hloc'
                  |g' dst' r' te' Hm' Hloc' Hlt
                  |g' dst' r' te' Hm' Hloc' Hlt
                  |g' dst' r' te' Hm' Hloc' Hlt
                  |g' dst' te' Hm' Hloc' Hlt];
    cbn in Hg, Hd; try discriminate;
    injection Hg as ->; injection Hd as ->;
    rewrite ?Hm in *; rewrite ?Hloc in *; simplify_eq; lia.
Qed.

(** ** Streaming a data file *)

(** C3.  A fill that streams first calls [timeEntry.get] at the size that
    the mirror of the slave's table of contents records.  When that read
    fails, the session writes a [removeOne] for the group and the day and
    waits for the reply.  On a reply with status ok it sets the size in
    the mirror to 0 and starts [timeEntry.each] at offset 0.  On any other
    status it disconnects: the mirror is untouched and no read starts. *)
Theorem refill_after_read_error (w0 : World) (d : itemRef) (it : WorkItem)
    (g : string) (dst : Z) (te : teRef) (e : TocEntry) :
  state w0 = BACKGROUND_SYNCHRONIZING \/ state w0 = LOCKED_SYNCHRONIZING ->
  socketDestroyed w0 = false ->
  items w0 !! d = Some it ->
  groupName it = Some g -> dayTimestamp it = Some dst -> timeEntry it = Some te ->
  timeEntryOnReplica it = Some (g, dst) ->
  lookupMirror (toc w0) (g, dst) = Some e ->
  let w := set_pending (Some (KGet d))
             (set_log (log w0 ++ [TimeEntryGet te (size e)]) w0) in
  let w1 := set_pending (Some (KReplyRefill d))
              (set_log (log w ++ [WriteJSON (MsgRemoveOne (Some g) (Some dst))]) w) in
  fillByStreamingDataFile d w0 = Ok tt w
  /\ step w (GetDone true) = w1
  /\ step w1 (Json (JsonObject "ok")) =
       set_pending (Some (KEach d))
         (set_log (log w1 ++ [ReadJSON "removeOne" "ok"; TimeEntryEach te 0])
            (set_toc (alter (fun gr => <[dst := mkTocEntry 0]> gr) g (toc w1)) w1))
  /\ lookupMirror (toc (step w1 (Json (JsonObject "ok")))) (g, dst)
     = Some (mkTocEntry 0)
  /\ (forall status, status <> "ok" ->
        step w1 (Json (JsonObject status)) =
          set_state DISCONNECTED
            (set_pending None
               (set_log (log w1 ++ [ReadJSON "removeOne" status; SocketDestroy]) w1))).
Proof.
  intros Hst Hsock Hit Hg Hdst Hte Hpath Hm w w1.
  assert (Hit' : items w0 !!! d = it) by (by apply list_lookup_total_correct).
  unfold lookupMirror in Hm. cbn [fst snd] in Hm.
  destruct (toc w0 !! g) as [gr|] eqn:Hgr; [|done]. cbn in Hm.
  assert (Hconn : bool_decide (state w0 = DISCONNECTED) = false).
  { apply bool_decide_eq_false. by destruct Hst as [-> | ->]. }
  assert (Hphase : bool_decide (state w0 = BACKGROUND_SYNCHRONIZING)
                   || bool_decide (state w0 = LOCKED_SYNCHRONIZING) = true).
  { destruct Hst as [-> | ->]; by vm_compute. }
  subst w w1. destruct_world w0. simpl_fields. subst sd.
  unfold step, handle, fillByStreamingDataFile, gotRecord, readJsonObjectCallback,
    receivedReplyForRefill, startStreamingDataFile, readMirrorSize, writeMirrorSize,
    _disconnect, lookupMirror.
  assert (Hm0 : alter (fun g0 : gmap Z TocEntry => <[dst := mkTocEntry 0]> g0) g t
                  !! g ≫= (fun g0 : gmap Z TocEntry => g0 !! dst)
                = Some (mkTocEntry 0)).
  { rewrite lookup_alter_eq, Hgr. cbn. apply lookup_insert_eq. }
  repeat progress
    (mrun;
     rewrite ?Hit', ?Hte, ?Hpath, ?Hg, ?Hdst, ?Hconn, ?Hgr, ?Hm, ?Hphase, ?Hm0).
  repeat split; try done.
  - by rewrite <- !app_assoc.
  - intros status Hne. apply String.eqb_neq in Hne.
    repeat progress (mrun; rewrite ?Hne, ?Hconn).
    by rewrite <- !app_assoc.
Qed.

Lemma streamingSession_reached :
  _continueReplication 10 true
    (mkDatabase (groups streamingDb) [mkTimeEntry "/db/a/2" 200 0] (fun _ => 0))
    streamingToc
  = set_pending (Some (KGet 0%nat))
      (over_log (fun l => l ++ [TimeEntryGet 0%nat 50]) streamingSession).
Proof. vm_compute. reflexivity. Qed.

Lemma refill_after_read_error_witness :
  let w1 := set_pending (Some (KReplyRefill 0%nat))
              (set_log [TimeEntryGet 0%nat 50;
                        WriteJSON (MsgRemoveOne (Some "a") (Some 2))]
                 streamingSession) in
  lookupMirror (toc (step w1 (Json (JsonObject "ok")))) ("a", 2)
  = Some (mkTocEntry 0).
Proof.
  destruct (refill_after_read_error streamingSession 0%nat streamingItem "a" 2
              0%nat (mkTocEntry 50)) as (_ & _ & _ & H & _);
    [by left|reflexivity..|exact H].
Defined.

(** ** The readers held by fills *)

(** Once [processNextReplicationCommand] has deleted [details.command],
    [cleanupWorkItem] no longer sees that the item is a fill: the
    database, and with it every [readOperations], stays as it is. *)
Lemma cleanupWorkItem_without_command (d : itemRef) (w : World) :
  command (items w !!! d) = None ->
  match cleanupWorkItem d w with
  | Ok _ w' | Throw _ w' => database w' = database w
  | OutOfFuel => False
  end.
Proof.
  intros Hc. destruct_world w. simpl_fields.
  unfold cleanupWorkItem. mrun. rewrite Hc.
  destruct (cleaned (its !!! d)); mrun; [done|].
  destruct (callback (its !!! d)); mrun; done.
Qed.

(** C2 (the code departs from the claim).  In a session that is READY,
    the database announces a write: a fill is scheduled and takes a
    reader on the time entry.  The replicator sends the fill and cleans
    the work item up: the callback is called, the queue is empty, and the
    time entry still counts one reader.  (Had the connection closed while
    the fill was still in the queue, the reader would have been given
    back.) *)
Theorem fill_keeps_reader_after_cleanup :
  let w0 := readySession true in
  let w := run w0 [addingHi; Tick; Written false] in
  let w' := run w0 [addingHi; Close] in
  state w0 = READY
  /\ readOperations (entries (database w0) !!! 0%nat) = 0
  /\ readOperations (entries (database (step w0 addingHi)) !!! 0%nat) = 1
  /\ log w = log w0 ++ [NextTick;
                        WriteJSON (MsgAdd (Some "a") (Some 86400) 2 0 None);
                        Write [Byte.x68; Byte.x69]; Invoke 7]
  /\ workQueue w = [] /\ currentWorkItem w = None
  /\ cleaned (items w !!! 0%nat) = true
  /\ readOperations (entries (database w) !!! 0%nat) = 1
  /\ readOperations (entries (database w') !!! 0%nat) = 0.
Proof. vm_compute. repeat split; reflexivity. Qed.

(** ** Removals announced by the database *)

(** C5 (the code departs from the claim).  In a session that is READY,
    the database announces the removal of the whole group ["a"].  The work
    item carries the name under [group], [pruneOne] reads [groupName]: no
    [remove] command that names ["a"] is written, and ["a"] stays in the
    mirror of the slave's table of contents.  Where [console.assert]
    throws, nothing is written at all; where it only prints, the command
    written names no group. *)
Theorem remove_group_event_loses_name (throws : bool) :
  let w0 := readySession throws in
  let w := run w0 [Removed "a" None; Tick] in
  state w0 = READY
  /\ toc w0 !! "a" = Some {[ 1 := mkTocEntry 100 ]}
  /\ toc w !! "a" = Some {[ 1 := mkTocEntry 100 ]}
  /\ (WriteJSON (MsgRemove (Some "a")) ∉ log w)
  /\ log w = log w0 ++ [NextTick] ++
       (if throws
        then [Uncaught (AssertionError "groupOnReplica !== undefined")]
        else [AssertFailed "groupOnReplica !== undefined";
              WriteJSON (MsgRemove None)]).
Proof.
  destruct throws.
  - assert (Hlog : log (run (readySession true) [Removed "a" None; Tick])
                   = [DatabaseLock; WriteJSON MsgPing; ReadJSON "ping" "ok";
                      DatabaseUnlock; NextTick;
                      Uncaught (AssertionError "groupOnReplica !== undefined")])
      by (vm_compute; reflexivity).
    cbv zeta. rewrite Hlog. repeat split; try (vm_compute; reflexivity).
    intros Hin. repeat (apply elem_of_cons in Hin as [Hin|Hin]; [discriminate|]).
    by apply elem_of_nil in Hin.
  - assert (Hlog : log (run (readySession false) [Removed "a" None; Tick])
                   = [DatabaseLock; WriteJSON MsgPing; ReadJSON "ping" "ok";
                      DatabaseUnlock; NextTick;
                      AssertFailed "groupOnReplica !== undefined";
                      WriteJSON (MsgRemove None)])
      by (vm_compute; reflexivity).
    cbv zeta. rewrite Hlog. repeat split; try (vm_compute; reflexivity).
    intros Hin. repeat (apply elem_of_cons in Hin as [Hin|Hin]; [discriminate|]).
    by apply elem_of_nil in Hin.
Qed.

(** The other half of the handler works: the removal of the days before
    day 2 of group ["a"] sends a [removeOne] for day 1 and takes it out of
    the mirror. *)
Lemma remove_older_event_example :
  let w := run (readySession true)
             [Removed "a" (Some 2); Tick; Written false; Json (JsonObject "ok")] in
  log w = log (readySession true)
          ++ [NextTick; WriteJSON (MsgRemoveOne (Some "a") (Some 1));
              ReadJSON "removeOne" "ok"]
  /\ toc w !! "a" = Some ∅.
Proof. vm_compute. split; reflexivity. Qed.

(** In any state but READY the handler of [remove] events leaves the
    queue and the work items alone. *)
Lemma onRemoveFromOurDatabase_not_ready (w : World) (g : string) (dst : option Z) :
  state w <> READY ->
  match onRemoveFromOurDatabase g dst w with
  | Ok _ w' | Throw _ w' => workQueue w' = workQueue w /\ items w' = items w
  | OutOfFuel => False
  end.
Proof.
  intros Hst. destruct_world w. simpl_fields.
  unfold onRemoveFromOurDatabase. mrun.
  destruct st, sd, ath; mrun; done.
Qed.

(** ** The opids of a connection *)

Lemma opidsSinceAck_snoc (l : list Effect) (e : Effect) :
  opidsSinceAck (l ++ [e]) = opidStep (opidsSinceAck l) e.
Proof. unfold opidsSinceAck. by rewrite foldl_app. Qed.

Lemma opidStep_quiet (acc : list Z) (e : Effect) :
  quiet e -> opidStep acc e = acc.
Proof. destruct e as [[]| | | | | | | | | | | | | |]; by cbn. Qed.

Lemma opidsSinceAck_quiet (l es : list Effect) :
  Forall quiet es -> opidsSinceAck (l ++ es) = opidsSinceAck l.
Proof.
  induction es as [|e es IH] using rev_ind; intros Hq.
  - by rewrite app_nil_r.
  - apply Forall_app in Hq as [Hes He%Forall_inv].
    rewrite app_assoc, opidsSinceAck_snoc, opidStep_quiet by done. auto.
Qed.

Lemma prefix_snoc_cases {A} (p l : list A) (x : A) :
  p `prefix_of` l ++ [x] -> p `prefix_of` l \/ p = l ++ [x].
Proof.
  intros [k Hk]. destruct k as [|y k _] using rev_ind.
  - right. by rewrite app_nil_r in Hk.
  - left. rewrite app_assoc in Hk. apply app_inj_tail in Hk as [-> _].
    by exists k.
Qed.

Lemma opidsAlwaysDistinct_snoc (l : list Effect) (e : Effect) :
  opidsAlwaysDistinct l -> NoDup (opidsSinceAck (l ++ [e])) ->
  opidsAlwaysDistinct (l ++ [e]).
Proof.
  intros Hl He p [Hp| ->]%prefix_snoc_cases; [by apply Hl|done].
Qed.

Lemma opidsAlwaysDistinct_quiet (l es : list Effect) :
  opidsAlwaysDistinct l -> Forall quiet es -> opidsAlwaysDistinct (l ++ es).
Proof.
  intros Hl. induction es as [|e es IH] using rev_ind; intros Hq.
  - by rewrite app_nil_r.
  - apply Forall_app in Hq as [Hes He]. rewrite app_assoc.
    apply opidsAlwaysDistinct_snoc; [auto|].
    rewrite <- app_assoc, opidsSinceAck_quiet by (apply Forall_app; done).
    apply Hl. done.
Qed.

Lemma opidsAlwaysDistinct_nil : opidsAlwaysDistinct [].
Proof. intros p ->%prefix_nil_inv. constructor. Qed.

(** *** Calm steps *)

Lemma calm_refl (w : World) : calm w w.
Proof. split; [done|]. exists []. by rewrite app_nil_r. Qed.

Lemma calm_trans (w1 w2 w3 : World) : calm w1 w2 -> calm w2 w3 -> calm w1 w3.
Proof.
  intros [Hn1 (es1 & Hl1 & Hq1)] [Hn2 (es2 & Hl2 & Hq2)]. split; [congruence|].
  exists (es1 ++ es2). rewrite Hl2, Hl1, app_assoc. split; [done|].
  by apply Forall_app.
Qed.

Lemma noUncaught_app (l es : list Effect) :
  noUncaught (l ++ es) -> noUncaught l.
Proof. intros H e Hin. apply (H e), elem_of_app. by left. Qed.

Lemma calm_bounded (w w' : World) :
  calm w w' -> opidsBounded w -> opidsBounded w'.
Proof.
  intros [Hn (es & Hl & Hq)] (Hd & H0 & Hb). unfold opidsBounded.
  rewrite Hl, Hn, opidsSinceAck_quiet by done. split; [|done].
  by apply opidsAlwaysDistinct_quiet.
Qed.

Lemma calm_invariant (w w' : World) :
  calm w w' -> opidsInvariant w -> opidsInvariant w'.
Proof.
  intros Hc [Hb He]. split; [by eapply calm_bounded|].
  destruct Hc as [Hn (es & Hl & Hq)]. unfold opidsExact.
  rewrite Hl, Hn, opidsSinceAck_quiet by done.
  intros Hu%noUncaught_app. by apply He.
Qed.

Lemma calm_reserved (o : Z) (w w' : World) :
  calm w w' -> opidReserved o w -> opidReserved o w'.
Proof.
  intros [Hn (es & Hl & Hq)] (Hd & Hb & Ho & He). unfold opidReserved.
  rewrite Hl, Hn, opidsSinceAck_quiet by done.
  split; [by apply opidsAlwaysDistinct_quiet|].
  split; [done|]. split; [done|]. intros Hu%noUncaught_app. by apply He.
Qed.

Lemma calm_replyRead (c s : string) (w w' : World) :
  calm w w' -> replyRead c s w -> replyRead c s w'.
Proof.
  intros Hc [Hb He]. split; [by eapply calm_bounded|].
  destruct Hc as [Hn (es & Hl & Hq)].
  destruct (String.eqb c "results" && String.eqb s "ok").
  - rewrite Hl, opidsSinceAck_quiet by done. done.
  - unfold opidsExact. rewrite Hl, Hn, opidsSinceAck_quiet by done.
    intros Hu%noUncaught_app. by apply He.
Qed.

Lemma replyRead_invariant (c s : string) (w : World) :
  String.eqb c "results" && String.eqb s "ok" = false ->
  replyRead c s w -> opidsInvariant w.
Proof. intros Hcs [Hb He]. rewrite Hcs in He. by split. Qed.

Lemma reserved_bounded (o : Z) (w : World) :
  opidReserved o w -> opidsBounded w.
Proof.
  intros (Hd & Hb & Ho & _). split; [done|]. split; [lia|].
  intros x Hx. specialize (Hb x Hx). lia.
Qed.

(** *** Rules for neutral computations *)

Lemma neutral_ret {A} (a : A) : neutral (ret a).
Proof. intros w. apply calm_refl. Qed.

Lemma neutral_gets {A} (f : World -> A) : neutral (gets f).
Proof. intros w. apply calm_refl. Qed.

Lemma neutral_throw {A} (e : Exn) : neutral (@throw A e).
Proof. intros w. apply calm_refl. Qed.

Lemma neutral_outOfFuel {A} : neutral (@outOfFuel A).
Proof. intros w. exact I. Qed.

Lemma neutral_bind {A B} (m : M A) (k : A -> M B) :
  neutral m -> (forall a, neutral (k a)) -> neutral (bind m k).
Proof.
  intros Hm Hk w. unfold bind. specialize (Hm w).
  destruct (m w) as [a w'|e w'|]; [|done|done].
  specialize (Hk a w'). destruct (k a w'); [| |done]; by eapply calm_trans.
Qed.

Lemma neutral_modify (f : World -> World) :
  (forall w, nextOpId (f w) = nextOpId w /\ log (f w) = log w) ->
  neutral (modify f).
Proof.
  intros Hf w. cbn. destruct (Hf w) as [Hn Hl]. split; [done|].
  exists []. by rewrite app_nil_r.
Qed.

Lemma neutral_emit (e : Effect) : quiet e -> neutral (emit e).
Proof.
  intros Hq w. destruct_world w. cbn. split; [done|].
  exists [e]. split; [done|]. by constructor.
Qed.

Lemma neutral_forEach {A} (l : list A) (body : A -> M unit) :
  (forall x, neutral (body x)) -> neutral (forEach l body).
Proof.
  intros Hb. induction l as [|x l IH]; cbn [forEach].
  - apply neutral_ret.
  - apply neutral_bind; [apply Hb|intros _; apply IH].
Qed.

Lemma neutral_equation {A} (m : M A) (f : World -> World) (a : World -> A) :
  (forall w, m w = Ok (a w) (f w)) -> (forall w, calm w (f w)) -> neutral m.
Proof. intros Hm Hf w. rewrite Hm. apply Hf. Qed.

Create HintDb neutral.

(** A calm step between two states of known shape. *)
Ltac calm_tac :=
  split; [reflexivity|]; rewrite <- ?app_assoc;
  first [by (exists []; rewrite app_nil_r)
        |eexists; split; [reflexivity|repeat constructor]].

Ltac neutral_modify_tac :=
  apply neutral_modify;
  let w := fresh "w" in intros w; destruct_world w; split; reflexivity.

Ltac neutral_step :=
  lazymatch goal with
  | |- neutral (bind _ _) => apply neutral_bind; [|intros ?]
  | |- neutral (ret _) => apply neutral_ret
  | |- neutral skip => apply neutral_ret
  | |- neutral (gets _) => apply neutral_gets
  | |- neutral (throw _) => apply neutral_throw
  | |- neutral outOfFuel => apply neutral_outOfFuel
  | |- neutral (emit _) => apply neutral_emit; exact I
  | |- neutral (modify _) => neutral_modify_tac
  | |- neutral (when ?b _) => destruct b; cbn [when]
  | |- neutral (forEach _ _) => apply neutral_forEach; intros ?
  | |- neutral (if ?b then _ else _) => destruct b
  | |- neutral (match ?x with _ => _ end) => destruct x
  | |- neutral _ => solve [auto with neutral]
  end.

Ltac neutral_auto := repeat neutral_step.

Lemma neutral_getItem d : neutral (getItem d).
Proof. apply neutral_gets. Qed.
Lemma neutral_updateItem d f : neutral (updateItem d f).
Proof. unfold updateItem. neutral_auto. Qed.
Lemma neutral_getTimeEntry te : neutral (getTimeEntry te).
Proof. apply neutral_gets. Qed.
Lemma neutral_incReadOperations te : neutral (incReadOperations te).
Proof. unfold incReadOperations, updateTimeEntry. neutral_auto. Qed.
Lemma neutral_decReadOperations te : neutral (decReadOperations te).
Proof. unfold decReadOperations, updateTimeEntry. neutral_auto. Qed.
Lemma neutral_connected : neutral connected.
Proof. apply neutral_gets. Qed.
#[local] Hint Resolve neutral_getItem neutral_updateItem neutral_getTimeEntry
  neutral_incReadOperations neutral_decReadOperations neutral_connected : neutral.

Lemma neutral_console_assert b what : neutral (console_assert b what).
Proof. unfold console_assert. neutral_auto. Qed.
Lemma neutral_readMirrorSize d : neutral (readMirrorSize d).
Proof. unfold readMirrorSize. neutral_auto. Qed.
Lemma neutral_writeMirrorSize d f : neutral (writeMirrorSize d f).
Proof. unfold writeMirrorSize. neutral_auto. Qed.
Lemma neutral_disconnectWithError msg : neutral (_disconnectWithError msg).
Proof. unfold _disconnectWithError. neutral_auto. Qed.
Lemma neutral_disconnect : neutral _disconnect.
Proof. unfold _disconnect. neutral_auto. Qed.
Lemma neutral_readJsonObject k : neutral (_readJsonObject k).
Proof. unfold _readJsonObject. neutral_auto. Qed.
Lemma neutral_write buf cb : neutral (_write buf cb).
Proof. unfold _write. neutral_auto. Qed.
#[local] Hint Resolve neutral_console_assert neutral_readMirrorSize
  neutral_writeMirrorSize neutral_disconnectWithError neutral_disconnect
  neutral_readJsonObject neutral_write : neutral.

Lemma neutral_writeJSON m cb : quiet (WriteJSON m) -> neutral (_writeJSON m cb).
Proof.
  intros Hq. unfold _writeJSON. apply neutral_bind; [by apply neutral_emit|].
  intros _. neutral_auto.
Qed.

Lemma neutral_startReplicator : neutral startReplicator.
Proof. unfold startReplicator. neutral_auto. Qed.

Lemma neutral_addToWorkQueue item cb : neutral (addToWorkQueue item cb).
Proof.
  eapply (neutral_equation _ _ (fun _ => tt)); [apply addToWorkQueue_run|].
  intros w. destruct_world w. unfold addToWorkQueueSpec.
  repeat case_bool_decide; cbn; (split; [done|]); exists []; by rewrite app_nil_r.
Qed.

Lemma neutral_schedule : neutral scheduleSlaveSynchronizationCommands.
Proof.
  eapply (neutral_equation _ _ (fun _ => tt)); [apply schedule_run|].
  intros w. destruct_world w. split; [done|]. exists []. by rewrite app_nil_r.
Qed.

Lemma neutral_cleanupWorkItem d : neutral (cleanupWorkItem d).
Proof. unfold cleanupWorkItem. neutral_auto. Qed.
#[local] Hint Resolve neutral_startReplicator neutral_addToWorkQueue
  neutral_schedule neutral_cleanupWorkItem : neutral.

Lemma neutral_cleanupWorkQueue : neutral cleanupWorkQueue.
Proof. unfold cleanupWorkQueue. neutral_auto. Qed.

Lemma neutral_pruneOne d : neutral (pruneOne d).
Proof.
  intros w. destruct_world w. unfold pruneOne. mrun.
  destruct (bool_decide (is_Some (t !! propertyKey (groupName (its !!! d))))),
    ath, (dayTimestamp (its !!! d)), (t !! propertyKey (groupName (its !!! d)));
    mrun; try calm_tac;
    match goal with
    | |- context [bool_decide ?P] => destruct (bool_decide P); mrun; calm_tac
    end.
Qed.

Lemma neutral_fillByStreamingDataFile d : neutral (fillByStreamingDataFile d).
Proof. unfold fillByStreamingDataFile. neutral_auto. Qed.

Lemma neutral_startStreamingDataFile d : neutral (startStreamingDataFile d).
Proof. unfold startStreamingDataFile. neutral_auto. Qed.

Lemma neutral_checkResults d : neutral (checkResults d).
Proof. unfold checkResults. by apply neutral_writeJSON. Qed.

Lemma neutral_doneBackgroundSynchronizing : neutral doneBackgroundSynchronizing.
Proof. unfold doneBackgroundSynchronizing. neutral_auto. Qed.

Lemma neutral_doneLockedSynchronizing : neutral doneLockedSynchronizing.
Proof.
  unfold doneLockedSynchronizing. neutral_auto. by apply neutral_writeJSON.
Qed.

Lemma neutral_receivedReplyForPing : neutral receivedReplyForPing.
Proof. unfold receivedReplyForPing. neutral_auto. Qed.

Lemma neutral_onAddingToOurDatabase te g dst bufs done :
  neutral (onAddingToOurDatabase te g dst bufs done).
Proof. unfold onAddingToOurDatabase. neutral_auto. Qed.

Lemma neutral_onRemoveFromOurDatabase g dst :
  neutral (onRemoveFromOurDatabase g dst).
Proof. unfold onRemoveFromOurDatabase. neutral_auto. Qed.

Lemma neutral_onConnectionClose : neutral onConnectionClose.
Proof. unfold onConnectionClose. neutral_auto. apply neutral_cleanupWorkQueue. Qed.

Lemma neutral_sentRemoveOneCommand err d dsts :
  neutral (sentRemoveOneCommand err d dsts).
Proof. unfold sentRemoveOneCommand. neutral_auto. Qed.

Lemma neutral_sentRemoveCommand err d : neutral (sentRemoveCommand err d).
Proof. unfold sentRemoveCommand. neutral_auto. Qed.

Lemma neutral_sentResults err d : neutral (sentResults err d).
Proof. unfold sentResults. neutral_auto. Qed.

Lemma neutral_sentResultsAtEof err d : neutral (sentResultsAtEof err d).
Proof. unfold sentResultsAtEof. neutral_auto. Qed.

Lemma neutral_sentResultsAfterRecord err d r :
  neutral (sentResultsAfterRecord err d r).
Proof. unfold sentResultsAfterRecord. neutral_auto. Qed.

Lemma neutral_dataFileRecordSent err d r : neutral (dataFileRecordSent err d r).
Proof.
  unfold dataFileRecordSent. neutral_auto. by apply neutral_writeJSON.
Qed.


(** *** Rules for computations that keep the invariant *)

Lemma triple_bind {A B} (P : World -> Prop) (R : A -> World -> Prop)
    (Q : B -> World -> Prop) (m : M A) (k : A -> M B) :
  triple P m R -> (forall a, triple (R a) (k a) Q) -> triple P (bind m k) Q.
Proof.
  intros Hm Hk w HP. unfold bind. specialize (Hm w HP).
  destruct (m w) as [a w'|e w'|]; [|done|done]. by apply Hk.
Qed.

Lemma triple_weaken {A} (P P' : World -> Prop) (Q : A -> World -> Prop) (m : M A) :
  (forall w, P w -> P' w) -> triple P' m Q -> triple P m Q.
Proof. intros HP Hm w Hw. apply Hm, HP, Hw. Qed.

Lemma triple_neutral {A} (P : World -> Prop) (m : M A) :
  (forall w w', calm w w' -> P w -> P w') ->
  (forall w, P w -> opidsBounded w) ->
  neutral m -> triple P m (fun _ => P).
Proof.
  intros Hcalm Hinv Hm w HP. specialize (Hm w).
  destruct (m w) as [a w'|e w'|]; [by eapply Hcalm| |done].
  by eapply Hinv, Hcalm.
Qed.

Lemma preserves_neutral {A} (m : M A) : neutral m -> preserves m.
Proof.
  intros Hm. apply triple_neutral; [apply calm_invariant|by intros w []|done].
Qed.

Lemma preserves_bind {A B} (m : M A) (k : A -> M B) :
  preserves m -> (forall a, preserves (k a)) -> preserves (bind m k).
Proof. intros Hm Hk. eapply triple_bind; [exact Hm|exact Hk]. Qed.

Lemma reserved_neutral {A} (o : Z) (m : M A) :
  neutral m -> triple (opidReserved o) m (fun _ => opidReserved o).
Proof.
  intros Hm. apply triple_neutral; [apply calm_reserved|apply reserved_bounded|done].
Qed.

Lemma replyRead_neutral {A} (c s : string) (m : M A) :
  neutral m -> triple (replyRead c s) m (fun _ => replyRead c s).
Proof.
  intros Hm. apply triple_neutral; [apply calm_replyRead|by intros w []|done].
Qed.

Lemma replyRead_preserves {A} (c s : string) (m : M A) :
  String.eqb c "results" && String.eqb s "ok" = false ->
  preserves m -> triple (replyRead c s) m (fun _ => opidsInvariant).
Proof. intros Hcs. apply triple_weaken. intros w. by apply replyRead_invariant. Qed.

Lemma seqZ_snoc (o : Z) : 0 <= o -> seqZ 0 (o + 1) = seqZ 0 o ++ [o].
Proof. intros Ho. by rewrite seqZ_app by lia. Qed.

Lemma noUncaught_snoc (l : list Effect) (e : Effect) :
  noUncaught (l ++ [e]) -> noUncaught l.
Proof. apply noUncaught_app. Qed.

(** Taking the next opid: [opid = nextOpId; nextOpId++]. *)
Lemma triple_take_opid (k : Z -> M unit) :
  (forall o, triple (opidReserved o) (k o) (fun _ => opidsInvariant)) ->
  preserves (opid ← gets nextOpId; modify (over_nextOpId (fun n => n + 1));; k opid)%js.
Proof.
  intros Hk w [(Hd & H0 & Hb) He]. unfold bind at 1 2, gets, modify.
  apply Hk. destruct_world w. unfold opidsExact in He. simpl_fields.
  split; [done|]. split; [done|]. split; [cbn; lia|].
  cbn. intros Hu. split; [by apply He|done].
Qed.

(** Writing the [add] with the opid that was taken. *)
Lemma triple_write_add (o : Z) g ts sz c cb :
  triple (opidReserved o) (_writeJSON (MsgAdd g ts sz o c) cb)
    (fun _ => opidsInvariant).
Proof.
  intros w (Hd & Hb & Ho & He). destruct_world w. simpl_fields.
  assert (Hnd : NoDup (opidsSinceAck (l ++ [WriteJSON (MsgAdd g ts sz o c)]))).
  { rewrite opidsSinceAck_snoc. cbn. apply NoDup_app. split; [apply Hd; done|].
    split; [|apply NoDup_singleton].
    intros x Hx ->%list_elem_of_singleton. specialize (Hb _ Hx). lia. }
  assert (Hinv : forall p' : option Cont,
    opidsInvariant (mkWorld st sd th t q cur rc ch op rs its
      (mkDatabase grps es calc) sub ath p'
      (l ++ [WriteJSON (MsgAdd g ts sz o c)]))).
  { intros p'. split; [split; [|split]|]; simpl_fields.
    - by apply opidsAlwaysDistinct_snoc.
    - lia.
    - intros x. rewrite opidsSinceAck_snoc. cbn.
      intros [Hx| ->%list_elem_of_singleton]%elem_of_app; [|lia].
      specialize (Hb _ Hx). lia.
    - unfold opidsExact. simpl_fields. intros Hu%noUncaught_snoc.
      destruct (He Hu) as [Hex ->]. rewrite opidsSinceAck_snoc. cbn.
      rewrite Hex. symmetry. apply seqZ_snoc. lia. }
  unfold _writeJSON. destruct cb; mrun; apply Hinv.
Qed.

(** Reading a reply. *)
Lemma triple_read_reply (c s : string) :
  triple opidsInvariant (emit (ReadJSON c s)) (fun _ => replyRead c s).
Proof.
  intros w [(Hd & H0 & Hb) He]. destruct_world w. unfold opidsExact in He.
  simpl_fields. mrun.
  unfold replyRead, opidsBounded, opidsExact. simpl_fields.
  rewrite opidsSinceAck_snoc. cbn.
  assert (Hnd : NoDup (opidsSinceAck (l ++ [ReadJSON c s]))).
  { rewrite opidsSinceAck_snoc. cbn.
    destruct (String.eqb c "results" && String.eqb s "ok");
      [constructor|by apply Hd]. }
  split; [split; [by apply opidsAlwaysDistinct_snoc|split; [done|]]|].
  - destruct (String.eqb c "results" && String.eqb s "ok"); [|done].
    by intros o Ho%elem_of_nil.
  - destruct (String.eqb c "results" && String.eqb s "ok"); [done|].
    intros Hu%noUncaught_snoc. by apply He.
Qed.

(** [nextOpId = 0] when the [results] have been acknowledged. *)
Lemma triple_reset (s : string) :
  String.eqb s "ok" = true ->
  triple (replyRead "results" s) (modify (set_nextOpId 0)) (fun _ => opidsInvariant).
Proof.
  intros Hs w [(Hd & H0 & Hb) He]. rewrite Hs in He. cbn in He.
  destruct_world w. simpl_fields. mrun.
  unfold opidsInvariant, opidsBounded, opidsExact. simpl_fields. rewrite He.
  split; [split; [done|split; [done|]]|done]. by intros o Ho%elem_of_nil.
Qed.

Create HintDb preserves.

Ltac preserves_step :=
  lazymatch goal with
  | |- preserves (bind _ _) => apply preserves_bind; [|intros ?]
  | |- preserves (when ?b _) => destruct b; cbn [when]
  | |- preserves (if ?b then _ else _) => destruct b
  | |- preserves (match ?x with _ => _ end) => destruct x
  | |- preserves _ =>
      first [solve [auto with preserves]
            |apply preserves_neutral; solve [neutral_auto]]
  end.

Ltac preserves_auto :=
  first [apply preserves_neutral; solve [neutral_auto]
        |repeat preserves_step].

#[local] Hint Resolve neutral_cleanupWorkQueue neutral_pruneOne
  neutral_fillByStreamingDataFile neutral_startStreamingDataFile
  neutral_checkResults neutral_doneBackgroundSynchronizing
  neutral_doneLockedSynchronizing neutral_receivedReplyForPing
  neutral_onAddingToOurDatabase neutral_onRemoveFromOurDatabase
  neutral_onConnectionClose neutral_sentRemoveOneCommand neutral_sentRemoveCommand
  neutral_sentResults neutral_sentResultsAtEof neutral_sentResultsAfterRecord
  neutral_dataFileRecordSent : neutral.

Lemma preserves_fillBySendingBuffers d : preserves (fillBySendingBuffers d).
Proof.
  unfold fillBySendingBuffers.
  apply preserves_bind; [preserves_auto|intros st].
  apply preserves_bind; [preserves_auto|intros ?].
  apply preserves_bind; [preserves_auto|intros it].
  destruct (dataBuffers it) as [bufs|]; [|preserves_auto].
  cbv zeta. apply triple_take_opid. intros o.
  eapply triple_bind; [apply triple_write_add|intros ?].
  preserves_auto.
Qed.

Lemma preserves_visitRecord next err record d :
  preserves next -> preserves (visitRecord next err record d).
Proof.
  intros Hnext. unfold visitRecord.
  apply preserves_bind; [preserves_auto|intros c].
  destruct (negb c); [preserves_auto|].
  destruct err; [preserves_auto|].
  destruct record as [r|]; [|preserves_auto].
  destruct (negb (eof r)).
  - apply preserves_bind; [preserves_auto|intros it].
    cbv zeta. apply triple_take_opid. intros o.
    eapply triple_bind; [apply reserved_neutral; neutral_auto|intros ?].
    eapply triple_bind; [apply reserved_neutral; neutral_auto|intros ?].
    eapply triple_bind; [apply triple_write_add|intros ?].
    preserves_auto.
  - apply preserves_bind; [preserves_auto|intros counter].
    destruct (counter =? 0).
    + apply preserves_bind; [preserves_auto|intros ?]. exact Hnext.
    + apply preserves_bind; [preserves_auto|intros ?].
      apply preserves_neutral. by apply neutral_writeJSON.
Qed.

Lemma preserves_readJsonObjectCallback (c : string) (r : JsonResult)
    (cb : string -> M unit) :
  (forall s, triple (replyRead c s) (cb s) (fun _ => opidsInvariant)) ->
  preserves (readJsonObjectCallback c r cb).
Proof.
  intros Hcb. unfold readJsonObjectCallback. destruct r as [io| |s].
  - preserves_auto.
  - preserves_auto.
  - apply preserves_bind; [preserves_auto|intros conn].
    destruct conn; cbn [when]; [|preserves_auto].
    eapply triple_bind; [apply triple_read_reply|intros ?]. apply Hcb.
Qed.

Lemma triple_handleCheckResult next s d :
  preserves next ->
  triple (replyRead "results" s) (handleCheckResult next s d)
    (fun _ => opidsInvariant).
Proof.
  intros Hnext. unfold handleCheckResult.
  destruct (String.eqb s "ok") eqn:Hs.
  - eapply triple_bind; [by apply triple_reset|intros ?].
    apply preserves_bind; [preserves_auto|intros ?]. exact Hnext.
  - apply replyRead_preserves; [by rewrite Hs|]. preserves_auto.
Qed.

Lemma triple_dataFileFullyStreamed next s d :
  preserves next ->
  triple (replyRead "results" s) (dataFileFullyStreamed next s d)
    (fun _ => opidsInvariant).
Proof.
  intros Hnext. unfold dataFileFullyStreamed.
  destruct (String.eqb s "ok") eqn:Hs.
  - eapply triple_bind; [by apply triple_reset|intros ?].
    apply preserves_bind; [preserves_auto|intros ?]. exact Hnext.
  - apply replyRead_preserves; [by rewrite Hs|]. preserves_auto.
Qed.

Lemma triple_handleCheckResultAfterRecord s d rec :
  triple (replyRead "results" s)
    (handleCheckResultAfterSendingDataFileRecord s d rec)
    (fun _ => opidsInvariant).
Proof.
  unfold handleCheckResultAfterSendingDataFileRecord.
  eapply triple_bind; [apply replyRead_neutral; neutral_auto|intros ?].
  destruct (String.eqb s "ok") eqn:Hs.
  - eapply triple_bind; [by apply triple_reset|intros ?]. preserves_auto.
  - apply replyRead_preserves; [by rewrite Hs|]. preserves_auto.
Qed.

Lemma preserves_pruneNextTimestamp next d dsts :
  preserves next -> preserves (pruneNextTimestamp next d dsts).
Proof.
  intros Hnext. unfold pruneNextTimestamp.
  destruct (pop dsts) as [[dst|] rest].
  - apply preserves_bind; [preserves_auto|intros it].
    apply preserves_neutral. by apply neutral_writeJSON.
  - apply preserves_bind; [preserves_auto|intros ?]. exact Hnext.
Qed.

Lemma preserves_pruneAll next d : preserves next -> preserves (pruneAll next d).
Proof.
  intros Hnext. unfold pruneAll.
  apply preserves_bind; [preserves_auto|intros it].
  apply preserves_bind; [preserves_auto|intros t].
  destruct (t !! propertyKey (group it)).
  - apply preserves_bind; [preserves_auto|intros ?].
    by apply preserves_pruneNextTimestamp.
  - apply preserves_bind; [preserves_auto|intros ?]. exact Hnext.
Qed.

Lemma preserves_fill d : preserves (fill d).
Proof.
  unfold fill.
  apply preserves_bind; [preserves_auto|intros it].
  apply preserves_bind; [preserves_auto|intros t].
  destruct (dayTimestamp it); [|preserves_auto]. cbv zeta.
  apply preserves_bind; [preserves_auto|intros ?].
  apply preserves_bind; [preserves_auto|intros ?].
  apply preserves_bind; [preserves_auto|intros st].
  destruct (bool_decide (is_Some (dataBuffers it))).
  - apply preserves_bind; [preserves_auto|intros ?].
    apply preserves_fillBySendingBuffers.
  - preserves_auto.
Qed.

Lemma preserves_processNext fuel : preserves (processNext fuel).
Proof.
  induction fuel as [|fuel IH]; [by intros w _|]. cbn [processNext].
  apply preserves_bind; [preserves_auto|intros c].
  destruct (negb c); [preserves_auto|].
  apply preserves_bind; [preserves_auto|intros q].
  destruct q as [|d rest].
  - apply preserves_bind; [preserves_auto|intros st].
    apply preserves_bind; [preserves_auto|intros started].
    destruct (bool_decide (st = BACKGROUND_SYNCHRONIZING)).
    + do 3 (apply preserves_bind; [preserves_auto|intros ?]).
      apply preserves_bind; [preserves_auto|intros q'].
      destruct (bool_decide (q' <> [])); [exact IH|preserves_auto].
    + preserves_auto.
  - do 2 (apply preserves_bind; [preserves_auto|intros ?]).
    apply preserves_bind; [preserves_auto|intros it].
    destruct (command it) as [[]|].
    + preserves_auto.
    + apply preserves_bind; [preserves_auto|intros ?]. by apply preserves_pruneAll.
    + apply preserves_bind; [preserves_auto|intros ?]. apply preserves_fill.
    + preserves_auto.
    + preserves_auto.
Qed.

Lemma preserves_processNextReplicationCommand :
  preserves processNextReplicationCommand.
Proof. intros w. apply preserves_processNext. Qed.

#[local] Hint Resolve preserves_processNextReplicationCommand
  preserves_fillBySendingBuffers preserves_fill : preserves.

Lemma preserves_written d : preserves (written processNextReplicationCommand d).
Proof. unfold written. preserves_auto. Qed.

Lemma preserves_gotRecord err d : preserves (gotRecord err d).
Proof.
  unfold gotRecord. preserves_auto.
  apply preserves_neutral. by apply neutral_writeJSON.
Qed.

Lemma preserves_receivedReplyForRefill s d :
  preserves (receivedReplyForRefill s d).
Proof. unfold receivedReplyForRefill. preserves_auto. Qed.

Lemma preserves_receivedReplyForRemoveOneCommand s d dsts :
  preserves (receivedReplyForRemoveOneCommand processNextReplicationCommand s d dsts).
Proof.
  unfold receivedReplyForRemoveOneCommand. destruct (String.eqb s "ok").
  - apply preserves_pruneNextTimestamp. auto with preserves.
  - preserves_auto.
Qed.

Lemma preserves_receivedReplyForRemoveCommand s d :
  preserves (receivedReplyForRemoveCommand processNextReplicationCommand s d).
Proof. unfold receivedReplyForRemoveCommand. preserves_auto. Qed.

Lemma preserves_databaseLocked : preserves databaseLocked.
Proof. unfold databaseLocked. preserves_auto. Qed.

#[local] Hint Resolve preserves_written preserves_gotRecord
  preserves_receivedReplyForRefill preserves_receivedReplyForRemoveOneCommand
  preserves_receivedReplyForRemoveCommand preserves_databaseLocked : preserves.

(** Every handler keeps the invariant. *)
Lemma preserves_handle (ev : Event) : preserves (handle ev).
Proof.
  unfold handle. cbv zeta.
  apply preserves_bind; [preserves_auto|intros k].
  destruct ev as [|err|r|err|err record| |te g dst bufs done|g dst| |  |db];
    destruct k as [[]|];
    try (apply preserves_neutral; solve [neutral_auto]);
    try solve [preserves_auto];
    (apply preserves_bind; [preserves_auto|intros ?]).
  - apply preserves_readJsonObjectCallback. intros s.
    apply replyRead_preserves; [done|]. auto with preserves.
  - apply preserves_readJsonObjectCallback. intros s.
    apply replyRead_preserves; [done|]. auto with preserves.
  - apply preserves_readJsonObjectCallback. intros s.
    apply replyRead_preserves; [done|]. auto with preserves.
  - apply preserves_readJsonObjectCallback. intros s.
    apply triple_handleCheckResultAfterRecord.
  - apply preserves_readJsonObjectCallback. intros s.
    apply triple_dataFileFullyStreamed. auto with preserves.
  - apply preserves_readJsonObjectCallback. intros s.
    apply triple_handleCheckResult. auto with preserves.
  - apply preserves_readJsonObjectCallback. intros s.
    apply replyRead_preserves; [done|]. preserves_auto.
  - apply preserves_visitRecord. auto with preserves.
Qed.

Lemma opidsInvariant_step (w : World) (ev : Event) :
  opidsInvariant w -> opidsInvariant (step w ev).
Proof.
  intros Hinv. unfold step. pose proof (preserves_handle ev w Hinv) as H.
  destruct (handle ev w) as [a w'|e w'|]; [done| |done].
  destruct_world w'. split.
  - eapply calm_bounded; [|exact H]. calm_tac.
  - intros Hu. destruct (Hu e). cbn. apply elem_of_app. right. by left.
Qed.

Lemma opidsInvariant_run (evs : list Event) : forall w,
  opidsInvariant w -> opidsInvariant (run w evs).
Proof.
  induction evs as [|ev evs IH]; intros w Hinv; [done|].
  apply IH. by apply opidsInvariant_step.
Qed.

Lemma opidsInvariant_start threshold throws db t :
  opidsInvariant (_continueReplication threshold throws db t).
Proof.
  assert (Hnew : opidsInvariant (newSession threshold throws db t)).
  { split; [split; [apply opidsAlwaysDistinct_nil|split; [done|]]|done].
    by intros o Ho%elem_of_nil. }
  unfold _continueReplication. cbv zeta.
  assert (Hp : preserves (scheduleSlaveSynchronizationCommands;;
                          processNextReplicationCommand)%js) by preserves_auto.
  specialize (Hp _ Hnew).
  destruct ((scheduleSlaveSynchronizationCommands;;
             processNextReplicationCommand)%js (newSession threshold throws db t))
    as [a w'|e w'|]; [done| |done].
  destruct_world w'. split.
  - eapply calm_bounded; [|exact Hp]. calm_tac.
  - intros Hu. destruct (Hu e). cbn. apply elem_of_app. right. by left.
Qed.

(** C4.  Whatever the slave, the database and the socket do after the
    slave has sent its table of contents: at every point of the exchange
    the opids of the [add] commands sent since the last [results] command
    that was acknowledged with status ok are pairwise distinct, and they
    lie between 0 and [nextOpId]; and as long as no handler has thrown,
    they are 0, 1, 2, ... up to [nextOpId], in the order of sending --
    each [add] was given the value of [nextOpId], which went up by one
    with it and back to 0 with every acknowledgement. *)
Theorem opids_distinct_since_results (threshold : Z) (throws : bool)
    (db : Database) (t : Toc) (evs : list Event) :
  let w := run (_continueReplication threshold throws db t) evs in
  (forall p, p `prefix_of` log w -> NoDup (opidsSinceAck p))
  /\ (forall o, o ∈ opidsSinceAck (log w) -> 0 <= o < nextOpId w)
  /\ ((forall e, Uncaught e ∉ log w) ->
      opidsSinceAck (log w) = seqZ 0 (nextOpId w)).
Proof.
  destruct (opidsInvariant_run evs _
              (opidsInvariant_start threshold throws db t))
    as [(Hd & _ & Hb) He].
  split; [exact Hd|]. split; [exact Hb|exact He].
Qed.

(** Two writes announced by the database: the opids 0 and 1 go out. *)
Lemma opids_example :
  let w := run (readySession true) [addingHi; addingHi; Tick; Written false] in
  opidsSinceAck (log w) = [0; 1] /\ nextOpId w = 2.
Proof. vm_compute. split; reflexivity. Qed.


(** ** The fuel of [processNextReplicationCommand] is enough *)

Lemma total_ret {A} (a : A) : total (ret a).
Proof. by intros w. Qed.

Lemma total_gets {A} (f : World -> A) : total (gets f).
Proof. by intros w. Qed.

Lemma total_throw {A} (e : Exn) : total (@throw A e).
Proof. by intros w. Qed.

Lemma total_modify (f : World -> World) : total (modify f).
Proof. by intros w. Qed.

Lemma total_bind {A B} (m : M A) (k : A -> M B) :
  total m -> (forall a, total (k a)) -> total (bind m k).
Proof.
  intros Hm Hk w. unfold bind. specialize (Hm w).
  destruct (m w) as [a w'|e w'|]; [apply Hk|done|done].
Qed.

Lemma total_forEach {A} (l : list A) (body : A -> M unit) :
  (forall x, total (body x)) -> total (forEach l body).
Proof.
  intros Hb. induction l as [|x l IH]; cbn [forEach].
  - apply total_ret.
  - apply total_bind; [apply Hb|intros _; apply IH].
Qed.

Create HintDb total.

Ltac total_step :=
  lazymatch goal with
  | |- total (bind _ _) => apply total_bind; [|intros ?]
  | |- total (ret _) => apply total_ret
  | |- total skip => apply total_ret
  | |- total (gets _) => apply total_gets
  | |- total (throw _) => apply total_throw
  | |- total (emit _) => apply total_modify
  | |- total (modify _) => apply total_modify
  | |- total (when ?b _) => destruct b; cbn [when]
  | |- total (forEach _ _) => apply total_forEach; intros ?
  | |- total (if ?b then _ else _) => destruct b
  | |- total (match ?x with _ => _ end) => destruct x
  | |- total _ => solve [auto with total]
  end.

Ltac total_auto := repeat total_step.

Lemma total_getItem d : total (getItem d).
Proof. apply total_gets. Qed.
Lemma total_updateItem d f : total (updateItem d f).
Proof. apply total_modify. Qed.
Lemma total_newItem item : total (newItem item).
Proof. unfold newItem. total_auto. Qed.
Lemma total_getTimeEntry te : total (getTimeEntry te).
Proof. apply total_gets. Qed.
Lemma total_incReadOperations te : total (incReadOperations te).
Proof. apply total_modify. Qed.
Lemma total_decReadOperations te : total (decReadOperations te).
Proof. apply total_modify. Qed.
Lemma total_connected : total connected.
Proof. apply total_gets. Qed.
Lemma total_readJsonObject k : total (_readJsonObject k).
Proof. apply total_modify. Qed.
#[local] Hint Resolve total_getItem total_updateItem total_newItem
  total_getTimeEntry total_incReadOperations total_decReadOperations
  total_connected total_readJsonObject : total.

Lemma total_console_assert b what : total (console_assert b what).
Proof. unfold console_assert. total_auto. Qed.
Lemma total_readMirrorSize d : total (readMirrorSize d).
Proof. unfold readMirrorSize. total_auto. Qed.
Lemma total_writeMirrorSize d f : total (writeMirrorSize d f).
Proof. unfold writeMirrorSize. total_auto. Qed.
Lemma total_disconnectWithError msg : total (_disconnectWithError msg).
Proof. unfold _disconnectWithError. total_auto. Qed.
Lemma total_disconnect : total _disconnect.
Proof. unfold _disconnect. total_auto. Qed.
Lemma total_write buf cb : total (_write buf cb).
Proof. unfold _write. total_auto. Qed.
Lemma total_writeJSON m cb : total (_writeJSON m cb).
Proof. unfold _writeJSON. total_auto. Qed.
#[local] Hint Resolve total_console_assert total_readMirrorSize
  total_writeMirrorSize total_disconnectWithError total_disconnect total_write
  total_writeJSON : total.

Lemma total_startReplicator : total startReplicator.
Proof. unfold startReplicator. total_auto. Qed.
Lemma total_addToWorkQueue item cb : total (addToWorkQueue item cb).
Proof. intros w. by rewrite addToWorkQueue_run. Qed.
Lemma total_schedule : total scheduleSlaveSynchronizationCommands.
Proof. intros w. by rewrite schedule_run. Qed.
Lemma total_cleanupWorkItem d : total (cleanupWorkItem d).
Proof. unfold cleanupWorkItem. total_auto. Qed.
#[local] Hint Resolve total_startReplicator total_addToWorkQueue total_schedule
  total_cleanupWorkItem : total.

Lemma total_cleanupWorkQueue : total cleanupWorkQueue.
Proof. unfold cleanupWorkQueue. total_auto. Qed.
Lemma total_pruneOne d : total (pruneOne d).
Proof. unfold pruneOne. total_auto. Qed.
Lemma total_fillBySendingBuffers d : total (fillBySendingBuffers d).
Proof. unfold fillBySendingBuffers. total_auto. Qed.
Lemma total_fillByStreamingDataFile d : total (fillByStreamingDataFile d).
Proof. unfold fillByStreamingDataFile. total_auto. Qed.
Lemma total_startStreamingDataFile d : total (startStreamingDataFile d).
Proof. unfold startStreamingDataFile. total_auto. Qed.
#[local] Hint Resolve total_cleanupWorkQueue total_pruneOne
  total_fillBySendingBuffers total_fillByStreamingDataFile
  total_startStreamingDataFile : total.

Lemma total_fill d : total (fill d).
Proof. unfold fill. total_auto. Qed.
Lemma total_checkResults d : total (checkResults d).
Proof. unfold checkResults. total_auto. Qed.
Lemma total_doneBackgroundSynchronizing : total doneBackgroundSynchronizing.
Proof. unfold doneBackgroundSynchronizing. total_auto. Qed.
Lemma total_doneLockedSynchronizing : total doneLockedSynchronizing.
Proof. unfold doneLockedSynchronizing. total_auto. Qed.
#[local] Hint Resolve total_fill total_checkResults
  total_doneBackgroundSynchronizing total_doneLockedSynchronizing : total.

Lemma bind_modify {B} (f : World -> World) (k : unit -> M B) (w : World) :
  bind (modify f) k w = k tt (f w).
Proof. reflexivity. Qed.

Lemma bind_total {A B} (m : M A) (k : A -> M B) (w : World) :
  total m ->
  (forall a w', m w = Ok a w' -> k a w' <> OutOfFuel) ->
  bind m k w <> OutOfFuel.
Proof.
  intros Hm Hk. unfold bind. specialize (Hm w).
  destruct (m w) as [a w'|e w'|]; [by apply Hk|done|done].
Qed.

(** What [cleanupWorkItem] and [console_assert] leave of the queue. *)
Lemma cleanupWorkItem_workQueue d w a w' :
  cleanupWorkItem d w = Ok a w' -> workQueue w' = workQueue w.
Proof.
  destruct_world w. unfold cleanupWorkItem. mrun.
  destruct (cleaned (its !!! d)); mrun; [by intros [= <- <-]|].
  destruct (bool_decide (command (its !!! d) = Some FILL_COMMAND)),
    (timeEntry (its !!! d)), (callback (its !!! d)); mrun;
    by intros [= <- <-].
Qed.

Lemma console_assert_Ok b what w a w' :
  console_assert b what w = Ok a w' ->
  workQueue w' = workQueue w /\ items w' = items w /\ state w' = state w
  /\ socketDestroyed w' = socketDestroyed w.
Proof.
  destruct_world w. unfold console_assert. destruct b, ath; mrun;
    by intros [= <- <-].
Qed.

(** [pruneAll] and [pruneNextTimestamp] call [next] with the queue they
    were given. *)
Lemma pruneNextTimestamp_fuel (next : M unit) (n : nat) d dsts :
  (forall w, (List.length (workQueue w) <= n)%nat -> next w <> OutOfFuel) ->
  forall w, (List.length (workQueue w) <= n)%nat ->
    pruneNextTimestamp next d dsts w <> OutOfFuel.
Proof.
  intros Hnext w Hlen. unfold pruneNextTimestamp.
  destruct (pop dsts) as [[dst|] rest].
  - apply total_bind; auto with total.
  - apply bind_total; [auto with total|]. intros a w' Hw'.
    apply Hnext. by rewrite (cleanupWorkItem_workQueue _ _ _ _ Hw').
Qed.

Lemma pruneAll_fuel (next : M unit) (n : nat) d :
  (forall w, (List.length (workQueue w) <= n)%nat -> next w <> OutOfFuel) ->
  forall w, (List.length (workQueue w) <= n)%nat ->
    pruneAll next d w <> OutOfFuel.
Proof.
  intros Hnext w Hlen. unfold pruneAll, getItem. rewrite !bind_gets.
  destruct (toc w !! propertyKey (group (items w !!! d))).
  - rewrite bind_modify. apply pruneNextTimestamp_fuel with (n := n); [done|].
    by destruct_world w.
  - apply bind_total; [auto with total|]. intros a w' Hw'.
    apply Hnext. by rewrite (cleanupWorkItem_workQueue _ _ _ _ Hw').
Qed.

(** With an item at the head of the queue that is not a [PRUNE_ALL], one
    unit of fuel is enough. *)
Lemma processNext_head (fuel : nat) (w : World) (d : itemRef) (rest : list itemRef) :
  workQueue w = d :: rest ->
  command (items w !!! d) <> Some PRUNE_ALL_COMMAND ->
  processNext (S fuel) w <> OutOfFuel.
Proof.
  intros Hq Hc. destruct_world w. simpl_fields. subst q.
  cbn [processNext]. unfold connected. rewrite bind_gets.
  destruct (negb _); [done|]. rewrite ?bind_gets. simpl_fields.
  rewrite !bind_modify. cbn.
  destruct (command (its !!! d)) as [[]|]; try done;
    try (apply total_bind; by auto with total).
  apply total_bind; [apply total_gets|].
  intros []; [apply total_throw|apply total_modify].
Qed.

Lemma scheduledItems_command db t it :
  it ∈ scheduledItems db t -> command it <> Some PRUNE_ALL_COMMAND.
Proof. by intros [| | | | |]%elem_of_scheduledItems. Qed.


(** With fuel for the items of the queue and two more,
    [processNextReplicationCommand] comes to an end. *)
Lemma processNext_fuel (fuel : nat) : forall w,
  (List.length (workQueue w) + 2 <= fuel)%nat ->
  processNext fuel w <> OutOfFuel.
Proof.
  induction fuel as [|fuel IH]; intros w Hlen; [lia|].
  destruct_world w. simpl_fields.
  cbn [processNext]. unfold connected. rewrite bind_gets.
  destruct (negb _); [done|]. rewrite ?bind_gets. simpl_fields.
  destruct q as [|d rest].
  - rewrite !bind_gets. simpl_fields.
    destruct (bool_decide (st = BACKGROUND_SYNCHRONIZING)).
    + apply bind_total; [auto with total|]. intros [] w1 H1.
      apply console_assert_Ok in H1 as (Hq1 & Hi1 & _).
      rewrite bind_modify. apply bind_total; [auto with total|].
      intros [] w2. rewrite schedule_run. intros [= <-].
      rewrite bind_gets.
      destruct_world w1. simpl_fields. subst.
      destruct (scheduledItems _ _) as [|x new] eqn:Hnew.
      * cbn -[doneBackgroundSynchronizing]. apply total_doneBackgroundSynchronizing.
      * destruct fuel as [|fuel]; [cbn in Hlen; lia|].
        cbn -[processNext].
        eapply processNext_head; [reflexivity|]. cbn.
        rewrite list_lookup_total_middle by done.
        eapply scheduledItems_command. rewrite Hnew. by left.
    + destruct (bool_decide (st = LOCKED_SYNCHRONIZING));
        repeat (apply total_bind; [by auto with total|intros ?]);
        auto with total; apply total_modify.
  - rewrite !bind_modify. cbn -[processNext].
    destruct (command (its !!! d)) as [[]|];
      try (apply total_bind; by auto with total).
    + unfold updateItem. rewrite bind_modify.
      apply pruneAll_fuel with (n := List.length rest).
      * intros w Hw. apply IH. cbn in Hlen. lia.
      * done.
    + apply total_bind; [apply total_gets|].
      intros []; [apply total_throw|apply total_modify].
Qed.

Lemma total_processNextReplicationCommand : total processNextReplicationCommand.
Proof. intros w. apply processNext_fuel. lia. Qed.

#[local] Hint Resolve total_processNextReplicationCommand : total.

(** No handler runs out of fuel: [step] and [_continueReplication] never
    fall back on their last case. *)
Lemma total_handle (ev : Event) : total (handle ev).
Proof.
  unfold handle. cbv zeta. apply total_bind; [apply total_gets|intros k].
  destruct ev, k as [[]|];
    unfold readJsonObjectCallback, sentRemoveOneCommand, sentRemoveCommand,
      written, dataFileRecordSent, sentResultsAfterRecord, sentResultsAtEof,
      sentResults, receivedReplyForRemoveOneCommand, receivedReplyForRemoveCommand,
      receivedReplyForRefill, handleCheckResultAfterSendingDataFileRecord,
      dataFileFullyStreamed, handleCheckResult, receivedReplyForPing, gotRecord,
      visitRecord, databaseLocked, onAddingToOurDatabase, onRemoveFromOurDatabase,
      onConnectionClose, pruneNextTimestamp;
    total_auto.
Qed.

Lemma total_start :
  total (scheduleSlaveSynchronizationCommands;; processNextReplicationCommand)%js.
Proof. total_auto. Qed.


(** ** Further properties of the session *)

Lemma connected_run (w : World) : connected w = Ok (isConnected w) w.
Proof. reflexivity. Qed.

(** Symbolic execution that leaves the diff and the recursion of the
    replicator folded, and decides the tests on known values. *)
Ltac eval_decide :=
  repeat match goal with
  | |- context [bool_decide ?P] =>
      let v := eval vm_compute in (bool_decide P) in
      match v with true => idtac | false => idtac end;
      change (bool_decide P) with v
  end.

Ltac mstep :=
  repeat progress
    (unfold_monad;
     cbn -[Z.add Z.sub Z.mul Z.leb Z.ltb Z.eqb lookup lookup_total alter insert
           delete scheduleSlaveSynchronizationCommands processNext
           processNextReplicationCommand addToWorkQueue fillBySendingBuffers
           pruneNextTimestamp];
     eval_decide).

(** X8.  [_disconnect] and [_disconnectWithError] act on a connected
    session only: they destroy the socket (the second with the message)
    and set the state to [DISCONNECTED].  After either the session is not
    connected, and a second call does nothing.  On a session that is not
    connected -- also one whose socket is destroyed while its state is
    not yet [DISCONNECTED] -- they change nothing. *)
Theorem disconnect_once (message : string) (w : World) :
  let bye (e : Effect) :=
    if isConnected w
    then set_state DISCONNECTED (over_log (fun l => l ++ [e]) w)
    else w in
  _disconnect w = Ok tt (bye SocketDestroy)
  /\ _disconnectWithError message w = Ok tt (bye (DisconnectWithError message))
  /\ (forall e, isConnected (bye e) = false)
  /\ (forall e, _disconnect (bye e) = Ok tt (bye e))
  /\ (forall e, _disconnectWithError message (bye e) = Ok tt (bye e)).
Proof.
  destruct_world w. unfold _disconnect, _disconnectWithError, isConnected.
  simpl_fields.
  destruct (bool_decide (st = DISCONNECTED)) eqn:Hst, sd; mrun;
    rewrite ?Hst; repeat split; try done.
Qed.

(** X9.  The function that [_readJsonObject] hands to [readJsonObject]:
    on a session that is not connected it does nothing, whatever was
    read; on a connected session an I/O error is ignored, any other error
    disconnects with the message "Invalid JSON data.", the end of the
    input (no object) disconnects, and only an object reaches the
    callback. *)
Theorem readJsonObject_guard (command : string) (r : JsonResult)
    (callback : string -> M unit) (w : World) :
  readJsonObjectCallback command r callback w =
    if isConnected w then
      match r with
      | JsonError true => Ok tt w
      | JsonError false =>
          Ok tt (set_state DISCONNECTED
                   (over_log (fun l => l ++ [DisconnectWithError "Invalid JSON data."]) w))
      | JsonNull =>
          Ok tt (set_state DISCONNECTED (over_log (fun l => l ++ [SocketDestroy]) w))
      | JsonObject status =>
          callback status (over_log (fun l => l ++ [ReadJSON command status]) w)
      end
    else Ok tt w.
Proof.
  destruct_world w. unfold readJsonObjectCallback, _disconnectWithError, _disconnect,
    isConnected. simpl_fields.
  destruct r as [[]| |status], st, sd; mrun; done.
Qed.

(** X10.  [startReplicator] schedules [processNextReplicationCommand] for
    the next tick when the replicator is not started, the state is neither
    of the two synchronizing states and the session is connected;
    otherwise it does nothing.  A second call right after the first never
    schedules a second tick. *)
Theorem startReplicator_once (w : World) :
  let go := negb (replicatorStarted w)
            && negb (bool_decide (state w = BACKGROUND_SYNCHRONIZING))
            && negb (bool_decide (state w = LOCKED_SYNCHRONIZING))
            && isConnected w in
  let w' := if go
            then set_pending (Some KTick)
                   (over_log (fun l => l ++ [NextTick]) (set_replicatorStarted true w))
            else w in
  startReplicator w = Ok tt w' /\ startReplicator w' = Ok tt w'.
Proof.
  destruct_world w. unfold startReplicator, isConnected. simpl_fields.
  destruct rs, st, sd; mrun; by split.
Qed.

(** X11.  [cleanupWorkItem] works once per work item: the first call
    marks the item cleaned -- also when it throws for want of a time
    entry -- and any later call changes nothing and calls nothing. *)
Theorem cleanupWorkItem_once (d : itemRef) (w : World) :
  is_Some (items w !! d) ->
  match cleanupWorkItem d w with
  | Ok _ w' | Throw _ w' =>
      cleaned (items w' !!! d) = true /\ cleanupWorkItem d w' = Ok tt w'
  | OutOfFuel => False
  end.
Proof.
  intros [it Hit]. destruct_world w. simpl_fields.
  assert (Hd : its !!! d = it) by (by apply list_lookup_total_correct).
  assert (Halt : alter (set_cleaned true) d its !!! d = set_cleaned true it).
  { apply list_lookup_total_correct. by rewrite list_lookup_alter_eq, Hit. }
  assert (Hcl : cleaned (set_cleaned true it) = true) by (by destruct it).
  unfold cleanupWorkItem. mrun. rewrite Hd.
  destruct (cleaned it) eqn:Hc; mrun.
  { rewrite Hd, Hc. by mrun. }
  destruct (bool_decide (command it = Some FILL_COMMAND)); mrun.
  - destruct (timeEntry it); mrun.
    + destruct (callback it); mrun; rewrite Halt, Hcl; by mrun.
    + rewrite Halt, Hcl; by mrun.
  - destruct (callback it); mrun; rewrite Halt, Hcl; by mrun.
Qed.

(** X12.  Outside the state [READY], the handler of the [adding] events
    of the database calls [done] at once and leaves the session as it is:
    nothing joins the work queue, no reader is taken, the replicator is
    not started.  The one exception is a connected session in the state
    [LOCKED_SYNCHRONIZING] under a [console.assert] that throws: the
    assertion fails before [done] is called. *)
Theorem onAddingToOurDatabase_not_ready (te : teRef) (g : string) (dst : Z)
    (bufs : list Buffer) (done : cbRef) (w : World) :
  state w <> READY ->
  let locked := isConnected w && bool_decide (state w = LOCKED_SYNCHRONIZING) in
  onAddingToOurDatabase te g dst bufs done w =
    if locked then
      if assertThrows w
      then Throw (AssertionError "self.state != LOCKED_SYNCHRONIZING") w
      else Ok tt (over_log
                    (fun l => (l ++ [AssertFailed "self.state != LOCKED_SYNCHRONIZING"])
                              ++ [Invoke done]) w)
    else Ok tt (over_log (fun l => l ++ [Invoke done]) w).
Proof.
  intros Hst. destruct_world w. simpl_fields.
  unfold onAddingToOurDatabase, isConnected. simpl_fields.
  destruct st, sd, ath; mrun; done.
Qed.

Lemma scheduledItems_nil (db : Database) (t : Toc) :
  (forall it, ~ Due db t it) -> scheduledItems db t = [].
Proof.
  intros Hno. apply elem_of_nil_inv. intros it Hin.
  by apply (Hno it), elem_of_scheduledItems.
Qed.

Lemma schedule_nothing (w : World) :
  (forall it, ~ Due (database w) (toc w) it) ->
  scheduleSlaveSynchronizationCommands w = Ok tt w.
Proof.
  intros Hno. by rewrite schedule_run, scheduledItems_nil, enqueued_nil.
Qed.

(** X13.  A slave whose table of contents calls for no work item goes
    through the phases without a command: the database is locked at
    once; when the lock is granted the slave is pinged; and whatever
    status the reply to the ping carries, the session becomes [READY],
    subscribes to the events of the database and unlocks it. *)
Theorem in_sync_slave_becomes_ready (threshold : Z) (throws : bool)
    (db : Database) (t : Toc) (status : string) :
  (forall it, ~ Due db t it) ->
  let w0 := _continueReplication threshold throws db t in
  let w1 := step w0 Locked in
  let w2 := step w1 (Json (JsonObject status)) in
  (state w0 = LOCKED_SYNCHRONIZING /\ log w0 = [DatabaseLock])
  /\ (state w1 = LOCKED_SYNCHRONIZING
      /\ log w1 = [DatabaseLock; WriteJSON MsgPing])
  /\ w2 = mkWorld READY false threshold t [] None 0 false 0 false [] db true throws
            None [DatabaseLock; WriteJSON MsgPing; ReadJSON "ping" status;
                  DatabaseUnlock].
Proof.
  intros Hno w0 w1 w2.
  assert (H0 : w0 = mkWorld LOCKED_SYNCHRONIZING false threshold t [] None 0 false 0
                      false [] db false throws (Some KLock) [DatabaseLock]).
  { unfold w0, _continueReplication, newSession.
    erewrite bind_Ok by (by apply schedule_nothing).
    unfold processNextReplicationCommand. cbn [workQueue List.length processNext].
    mstep. rewrite schedule_nothing by done. unfold doneBackgroundSynchronizing.
    by mstep. }
  assert (H1 : w1 = mkWorld LOCKED_SYNCHRONIZING false threshold t [] None 0 false 0
                      false [] db false throws (Some KReplyPing)
                      [DatabaseLock; WriteJSON MsgPing]).
  { unfold w1. rewrite H0. unfold step, handle, databaseLocked. mstep.
    rewrite schedule_nothing by done.
    unfold processNextReplicationCommand. cbn [workQueue List.length processNext].
    mstep. rewrite schedule_nothing by done.
    unfold doneLockedSynchronizing. by mstep. }
  split; [by rewrite H0|]. split; [by rewrite H1|].
  unfold w2. rewrite H1. unfold step, handle, readJsonObjectCallback,
    receivedReplyForPing. by mstep.
Qed.

Lemma in_sync_slave_becomes_ready_witness :
  state (run (_continueReplication 10 true exampleDb exampleToc)
           [Locked; Json (JsonObject "error")]) = READY.
Proof.
  destruct (in_sync_slave_becomes_ready 10 true exampleDb exampleToc "error")
    as (_ & _ & H).
  - intros it Hdue%elem_of_scheduledItems. vm_compute in Hdue.
    by apply elem_of_nil in Hdue.
  - cbn [run foldl]. by rewrite H.
Defined.

(** The loop of [fillBySendingBuffers] over the buffers: each is written
    in turn, and the last write carries the callback [written]. *)
Lemma write_buffers (d : itemRef) (n : nat) (bufs : list Buffer) :
  forall (k : nat) (w : World),
  (k + List.length bufs = n)%nat ->
  forEach (imap (fun i b => ((k + i)%nat, b)) bufs) (fun '(i, b) =>
    _write b (if bool_decide (i = (n - 1)%nat) then Some (KWritten d) else None)) w
  = Ok tt (over_log (fun l => l ++ (Write <$> bufs))
             (match bufs with [] => w | _ => set_pending (Some (KWritten d)) w end)).
Proof.
  induction bufs as [|b bufs IH]; intros k w Hlen.
  - destruct_world w. cbn. by rewrite app_nil_r.
  - cbn [imap forEach]. unfold bind at 1. unfold _write at 1.
    cbn [List.length] in Hlen.
    destruct bufs as [|b' bufs].
    + rewrite bool_decide_eq_true_2 by (cbn in Hlen; lia).
      destruct_world w. by mrun.
    + rewrite bool_decide_eq_false_2 by (cbn in Hlen; lia).
      unfold bind at 1, emit at 1, modify at 1, skip, ret.
      rewrite (imap_ext _ (fun i b0 => ((S k + i)%nat, b0)))
        by (intros; cbn; f_equal; lia).
      rewrite (IH (S k)) by (cbn in Hlen |- *; lia).
      destruct_world w. cbn. by rewrite <- app_assoc.
Qed.

(** [fillBySendingBuffers] in a [READY] session: one [add] command with
    the next opid, then the buffers; the callback [written] waits for the
    last write. *)
Lemma fillBySendingBuffers_run (d : itemRef) (w : World) (bufs : list Buffer) :
  state w = READY ->
  dataBuffers (items w !!! d) = Some bufs ->
  fillBySendingBuffers d w =
    Ok tt (set_pending (Some (KWritten d))
             (over_log (fun l =>
                  l ++ WriteJSON (MsgAdd (groupName (items w !!! d))
                                    (timestampOf (dayTimestamp (items w !!! d)))
                                    (totalDataSize bufs) (nextOpId w) None)
                    :: (Write <$> bufs))
                (over_nextOpId (fun n => n + 1) w))).
Proof.
  intros Hst Hbufs. destruct_world w. simpl_fields. subst st.
  unfold fillBySendingBuffers. mstep. rewrite Hbufs.
  destruct (decide (bufs = [])) as [->|Hne]; [by mstep|].
  rewrite bool_decide_eq_false_2 by (by destruct bufs).
  mstep.
  match goal with |- context [forEach ?L ?F ?W] =>
    pose proof (write_buffers d (List.length bufs) bufs 0 W eq_refl) as Hw;
    match type of Hw with _ = ?R =>
      assert (Hw' : forEach L F W = R) by exact Hw; rewrite Hw'; clear Hw Hw'
    end
  end.
  destruct bufs; [done|]. mstep. by rewrite <- app_assoc.
Qed.

(** X14.  A write that the database announces to a [READY] session at
    rest is forwarded in full: at the next tick one [add] command is
    written, with the group, the day timestamp in seconds, the number of
    bytes of the buffers and the next opid, followed by the buffers in
    their order; when the last write is done the mirror of the slave's
    table of contents counts [calculateRecordSize(dataBuffers)] more bytes
    for that time entry (from 0 when the entry was not in the mirror) and
    nothing else for any other, [done] is called, and the replicator is at
    rest again with an empty queue. *)
Theorem adding_is_forwarded (w : World) (te : teRef) (g : string) (dst : Z)
    (bufs : list Buffer) (done : cbRef) (err : bool) :
  state w = READY -> socketDestroyed w = false -> subscribed w = true ->
  workQueue w = [] -> replicatorStarted w = false ->
  resultCheckCounter w + 1 < resultCheckThreshold w ->
  let w' := run w [Adding te g dst bufs done; Tick; Written err] in
  log w' = log w ++ [NextTick;
                     WriteJSON (MsgAdd (Some g) (Some (dst * 24 * 60 * 60))
                                  (totalDataSize bufs) (nextOpId w) None)]
                 ++ (Write <$> bufs) ++ [Invoke done]
  /\ nextOpId w' = nextOpId w + 1
  /\ mirrorSize (toc w') (g, dst)
     = mirrorSize (toc w) (g, dst) + calculateRecordSize (database w) bufs
  /\ (forall p, p <> (g, dst) -> lookupMirror (toc w') p = lookupMirror (toc w) p)
  /\ state w' = READY /\ workQueue w' = [] /\ currentWorkItem w' = None
  /\ replicatorStarted w' = false /\ pending w' = None
  /\ resultCheckCounter w' = resultCheckCounter w + 1.
Proof.
  intros Hst Hsd Hsub Hq Hrs Hrc w'.
  destruct_world w. simpl_fields. subst.
  unfold w', run. cbn [foldl].
  match goal with |- context [step ?W (Adding te g dst bufs done)] =>
    eassert (H1 : step W (Adding te g dst bufs done) = _);
      [|rewrite H1; clear H1]
  end.
  { unfold step, handle, onAddingToOurDatabase, startReplicator.
    mstep. rewrite addToWorkQueue_run. unfold addToWorkQueueSpec. mstep.
    rewrite (bool_decide_eq_false_2 (th <= rc + 1)) by lia. mstep.
    reflexivity. }
  match goal with |- context [step ?W Tick] =>
    eassert (H2 : step W Tick = _); [|rewrite H2; clear H2]
  end.
  { unfold step, handle, processNextReplicationCommand.
    cbn [workQueue List.length processNext].
    unfold fill.
    repeat progress
      (mstep; rewrite ?alter_last, ?list_lookup_total_middle by done).
    erewrite fillBySendingBuffers_run;
      [|done|simpl_fields; by rewrite list_lookup_total_middle].
    simpl_fields. rewrite list_lookup_total_middle by done.
    mstep. reflexivity. }
  match goal with |- context [step ?W (Written err)] =>
    eassert (H3 : step W (Written err) = _); [|rewrite H3; clear H3]
  end.
  { unfold step, handle, written, writeMirrorSize, cleanupWorkItem, lookupMirror,
      processNextReplicationCommand.
    cbn [workQueue List.length processNext].
    repeat progress
      (mstep;
       rewrite ?alter_last, ?list_lookup_total_middle, ?lookup_insert_eq by done).
    reflexivity. }
  simpl_fields. unfold mirrorSize, lookupMirror. cbn [fst snd].
  split; [by rewrite <- !app_assoc|]. split; [done|]. split; [|split; [|done]].
  - rewrite lookup_alter_eq, lookup_insert_eq. cbn.
    rewrite lookup_insert_eq. cbn.
    destruct (t !! g) as [gr|]; cbn; [|by rewrite lookup_empty].
    by destruct (gr !! dst).
  - intros [g' dst'] Hne. cbn [fst snd].
    destruct (decide (g' = g)) as [->|Hg].
    + assert (Hd : dst <> dst') by congruence.
      rewrite lookup_alter_eq, lookup_insert_eq. cbn.
      rewrite !lookup_insert_ne by done.
      destruct (t !! g) as [gr|]; cbn; [done|by rewrite lookup_empty].
    + by rewrite lookup_alter_ne, lookup_insert_ne.
Qed.

Lemma adding_is_forwarded_witness :
  let w' := run (readySession true) [addingHi; Tick; Written false] in
  mirrorSize (toc w') ("a", 1) = 100 + 22 /\ nextOpId w' = 0 + 1.
Proof.
  destruct (adding_is_forwarded (readySession true) 0%nat "a" 1
              [[Byte.x68; Byte.x69]] 7%nat false)
    as (_ & Hop & Hm & _); try reflexivity.
  split; [exact Hm|exact Hop].
Defined.









(** ** The end of a connection *)

Lemma alter_set_cleaned_id (its : list WorkItem) (d : itemRef) :
  cleaned (its !!! d) = true -> alter (set_cleaned true) d its = its.
Proof.
  intros Hc. apply list_eq. intros i. rewrite list_lookup_alter.
  destruct (decide (d = i)) as [->|]; [|done].
  destruct (its !! i) as [x|] eqn:Hx; [|done]. cbn.
  rewrite (list_lookup_total_correct _ _ _ Hx) in Hc.
  destruct x. cbn in Hc. by subst.
Qed.

Lemma cleanupWorkItem_run (d : itemRef) (w : World) :
  cleanable (items w !!! d) ->
  cleanupWorkItem d w =
    Ok tt (over_log (fun l => l ++ cleanupCalls (items w) [d])
             (over_entries (releaseReaders (cleanupReleases (items w) [d]))
                (over_items (markCleaned [d]) w))).
Proof.
  intros Hwf. destruct_world w. simpl_fields.
  unfold cleanupWorkItem, cleanupCalls, cleanupReleases, releaseReaders,
    markCleaned, cleanable in *.
  mrun. destruct (cleaned (its !!! d)) eqn:Hc; mrun.
  { rewrite app_nil_r. by rewrite alter_set_cleaned_id. }
  destruct (bool_decide (command (its !!! d) = Some FILL_COMMAND)) eqn:Hf; mrun.
  - apply bool_decide_eq_true in Hf.
    destruct (Hwf eq_refl Hf) as [te Hte]. rewrite Hte. mrun.
    destruct (callback (its !!! d)); mrun; [done|by rewrite app_nil_r].
  - destruct (callback (its !!! d)); mrun; [done|by rewrite app_nil_r].
Qed.

Lemma cleanupCalls_cons its d ds :
  cleanupCalls its (d :: ds) = cleanupCalls its [d] ++ cleanupCalls its ds.
Proof. unfold cleanupCalls. by rewrite <- omap_app. Qed.

Lemma cleanupReleases_cons its d ds :
  cleanupReleases its (d :: ds) = cleanupReleases its [d] ++ cleanupReleases its ds.
Proof. unfold cleanupReleases. by rewrite <- omap_app. Qed.

Lemma markCleaned_lookup_ne (ds : list itemRef) : forall (its : list WorkItem) d,
  d ∉ ds -> markCleaned ds its !!! d = its !!! d.
Proof.
  induction ds as [|a ds IH]; intros its d Hd; [done|].
  apply not_elem_of_cons in Hd as [Hne Hd]. cbn [markCleaned foldl].
  fold (markCleaned ds (alter (set_cleaned true) a its)).
  rewrite IH by done. by rewrite list_lookup_total_alter_ne.
Qed.

Lemma cleanupCalls_ext (its its' : list WorkItem) (ds : list itemRef) :
  (forall d, d ∈ ds -> its' !!! d = its !!! d) ->
  cleanupCalls its' ds = cleanupCalls its ds.
Proof.
  intros H. unfold cleanupCalls. apply list_omap_ext, Forall2_same_length_lookup.
  split; [done|]. intros i a b Ha Hb. rewrite Ha in Hb. injection Hb as <-.
  cbn. rewrite H; [done|]. by eapply list_elem_of_lookup_2.
Qed.

Lemma cleanupReleases_ext (its its' : list WorkItem) (ds : list itemRef) :
  (forall d, d ∈ ds -> its' !!! d = its !!! d) ->
  cleanupReleases its' ds = cleanupReleases its ds.
Proof.
  intros H. unfold cleanupReleases. apply list_omap_ext, Forall2_same_length_lookup.
  split; [done|]. intros i a b Ha Hb. rewrite Ha in Hb. injection Hb as <-.
  cbn. rewrite H; [done|]. by eapply list_elem_of_lookup_2.
Qed.

(** Cleaning up a list of distinct work items. *)
Lemma forEach_cleanupWorkItem (ds : list itemRef) : forall w : World,
  NoDup ds ->
  (forall d, d ∈ ds -> cleanable (items w !!! d)) ->
  forEach ds cleanupWorkItem w =
    Ok tt (over_log (fun l => l ++ cleanupCalls (items w) ds)
             (over_entries (releaseReaders (cleanupReleases (items w) ds))
                (over_items (markCleaned ds) w))).
Proof.
  induction ds as [|d ds IH]; intros w Hnd Hwf.
  - destruct_world w. cbn. by rewrite app_nil_r.
  - apply NoDup_cons in Hnd as [Hd Hnd].
    cbn [forEach]. erewrite bind_Ok; [|apply cleanupWorkItem_run, Hwf; by left].
    assert (Hsame : forall d', d' ∈ ds ->
              markCleaned [d] (items w) !!! d' = items w !!! d').
    { intros d' Hd'. apply markCleaned_lookup_ne.
      intros ->%list_elem_of_singleton. done. }
    rewrite IH; [|done|].
    + rewrite (cleanupCalls_cons _ d ds), (cleanupReleases_cons _ d ds).
      destruct_world w. simpl_fields. cbn.
      rewrite (cleanupCalls_ext its) by done.
      rewrite (cleanupReleases_ext its) by done.
      unfold releaseReaders. rewrite foldl_app, <- app_assoc. done.
    + intros d' Hd'. destruct_world w. simpl_fields. cbn.
      cbn in Hsame. rewrite Hsame by done. apply Hwf. by right.
Qed.

Lemma markCleaned_cleaned (ds : list itemRef) : forall (its : list WorkItem) d,
  d ∈ ds -> is_Some (its !! d) -> cleaned (markCleaned ds its !!! d) = true.
Proof.
  induction ds as [|a ds IH]; intros its d Hd [x Hx]; [by apply elem_of_nil in Hd|].
  cbn [markCleaned foldl]. fold (markCleaned ds (alter (set_cleaned true) a its)).
  destruct (decide (d ∈ ds)) as [Hin|Hin].
  - apply IH; [done|]. rewrite list_lookup_alter.
    destruct (decide (a = d)) as [->|]; rewrite Hx; by eexists.
  - apply elem_of_cons in Hd as [->|]; [|done].
    rewrite markCleaned_lookup_ne by done.
    rewrite list_lookup_total_alter_eq.
    + rewrite (list_lookup_total_correct _ _ _ Hx). by destruct x.
    + by eapply lookup_lt_Some.
Qed.

(** What [onConnectionClose] leaves of a session whose work items are
    held once each and can be cleaned up. *)
Lemma onConnectionClose_run (w : World) :
  NoDup (heldItems w) ->
  (forall d, d ∈ heldItems w -> cleanable (items w !!! d)) ->
  exists w',
    onConnectionClose w = Ok tt w'
    /\ workQueue w' = [] /\ currentWorkItem w' = None
    /\ subscribed w' = false /\ cleanupHandler w' = false
    /\ state w' = state w /\ toc w' = toc w /\ pending w' = pending w
    /\ log w' = log w ++ (if cleanupHandler w then [RecordStop] else [])
                      ++ cleanupCalls (items w) (heldItems w)
    /\ entries (database w')
       = releaseReaders (cleanupReleases (items w) (heldItems w))
           (entries (database w))
    /\ (forall d, d ∈ heldItems w -> is_Some (items w !! d) ->
          cleaned (items w' !!! d) = true)
    /\ (forall d, d ∉ heldItems w -> items w' !!! d = items w !!! d).
Proof.
  intros Hnd Hwf. unfold heldItems in *.
  destruct_world w. simpl_fields.
  apply NoDup_app in Hnd as (Hndq & Hdisj & Hndc).
  assert (Hdrain : forall ch',
    cleanupWorkQueue
      (mkWorld st sd th t q cur rc ch' op rs its (mkDatabase grps es calc) false ath
         p (l ++ (if ch then [RecordStop] else [])))
    = Ok tt
        (mkWorld st sd th t [] None rc ch' op rs
           (markCleaned (q ++ option_list cur) its)
           (mkDatabase grps
              (releaseReaders (cleanupReleases its (q ++ option_list cur)) es) calc)
           false ath p
           ((l ++ (if ch then [RecordStop] else []))
              ++ cleanupCalls its (q ++ option_list cur)))).
  { intros ch'. unfold cleanupWorkQueue.
    rewrite !bind_gets, !bind_modify, !bind_gets, !bind_modify. simpl_fields.
    cbn [set_workQueue set_currentWorkItem].
    erewrite bind_Ok.
    2:{ apply forEach_cleanupWorkItem; [done|]. simpl_fields.
        intros d Hd. apply Hwf, elem_of_app. by left. }
    cbn [over_items over_entries over_log].
    unfold cleanupCalls, cleanupReleases, markCleaned, releaseReaders.
    rewrite !omap_app, !foldl_app.
    fold (cleanupCalls its q) (cleanupReleases its q) (markCleaned q its).
    destruct cur as [d|]; cbn [option_list omap list_omap foldl]; simpl_fields.
    - assert (Hd : d ∉ q).
      { intros Hin. apply (Hdisj d Hin). by left. }
      rewrite cleanupWorkItem_run.
      + simpl_fields. cbn [over_items over_entries over_log].
        unfold cleanupCalls at 1, cleanupReleases at 1, markCleaned at 1,
          releaseReaders at 1.
        cbn [omap list_omap foldl].
        rewrite !markCleaned_lookup_ne by done.
        cbn [option_list omap list_omap foldl]. by rewrite <- !app_assoc.
      + simpl_fields. rewrite markCleaned_lookup_ne by done.
        apply Hwf, elem_of_app. right. by left.
    - cbn. by rewrite !app_nil_r. }
  exists (mkWorld st sd th t [] None rc false op rs
            (markCleaned (q ++ option_list cur) its)
            (mkDatabase grps
               (releaseReaders (cleanupReleases its (q ++ option_list cur)) es) calc)
            false ath p
            ((l ++ (if ch then [RecordStop] else []))
               ++ cleanupCalls its (q ++ option_list cur))).
  split.
  { unfold onConnectionClose. rewrite bind_modify, bind_gets.
    cbn [set_subscribed cleanupHandler].
    destruct ch; cbn [when].
    - unfold bind at 1. unfold bind at 1. unfold modify at 1, emit, modify.
      cbn [set_cleanupHandler over_log]. apply Hdrain.
    - unfold bind at 1, skip, ret. rewrite <- (app_nil_r l) at 1. apply Hdrain. }
  simpl_fields. repeat split; try done.
  - by destruct ch; rewrite <- app_assoc.
  - intros d Hd Hsome. by apply markCleaned_cleaned.
  - intros d Hd. by apply markCleaned_lookup_ne.
Qed.

(** X16.  When the connection closes the session lets go of everything
    it holds: it unsubscribes from the database, stops the read that is
    in flight if there is one, empties the work queue and forgets the
    current work item.  Every work item that was in the queue or in flight
    is marked cleaned; for each one that was not cleaned before, its
    callback, if it has one, is called once, and if it still is a fill its
    time entry loses one reader.  The state of the session is not
    touched. *)
Theorem onConnectionClose_drains (w : World) :
  NoDup (heldItems w) ->
  (forall d, d ∈ heldItems w -> cleanable (items w !!! d)) ->
  exists w',
    onConnectionClose w = Ok tt w'
    /\ workQueue w' = [] /\ currentWorkItem w' = None
    /\ subscribed w' = false /\ cleanupHandler w' = false
    /\ state w' = state w /\ toc w' = toc w /\ pending w' = pending w
    /\ log w' = log w ++ (if cleanupHandler w then [RecordStop] else [])
                      ++ cleanupCalls (items w) (heldItems w)
    /\ entries (database w')
       = releaseReaders (cleanupReleases (items w) (heldItems w))
           (entries (database w))
    /\ (forall d, d ∈ heldItems w -> is_Some (items w !! d) ->
          cleaned (items w' !!! d) = true)
    /\ (forall d, d ∉ heldItems w -> items w' !!! d = items w !!! d).
Proof. exact (onConnectionClose_run w). Qed.


(** ** A session that is no longer connected *)

Lemma still_refl (w : World) : still w w.
Proof.
  split; [done|]. split; [done|]. exists []. by rewrite app_nil_r.
Qed.

Lemma still_trans (w1 w2 w3 : World) : still w1 w2 -> still w2 w3 -> still w1 w3.
Proof.
  intros (Hs1 & Hd1 & es1 & Hl1 & Hp1) (Hs2 & Hd2 & es2 & Hl2 & Hp2).
  split; [congruence|]. split; [auto|].
  exists (es1 ++ es2). split; [by rewrite Hl2, Hl1, app_assoc|].
  by apply Forall_app.
Qed.

Lemma still_isConnected (w w' : World) :
  still w w' -> isConnected w = false -> isConnected w' = false.
Proof.
  intros (Hs & Hd & _). unfold isConnected. rewrite Hs.
  destruct (bool_decide (state w = DISCONNECTED)); [done|].
  cbn. destruct (socketDestroyed w); [|done]. intros _. by rewrite Hd.
Qed.

Lemma still_emit (e : Effect) (w : World) :
  passive e -> still w (over_log (fun l => l ++ [e]) w).
Proof.
  intros He. destruct_world w. split; [done|]. split; [done|].
  exists [e]. split; [done|]. by apply Forall_singleton.
Qed.

Lemma inert_idle {A} (m : M A) : inert m -> idle m.
Proof. intros H w _. apply H. Qed.

Lemma inert_ret {A} (a : A) : inert (ret a).
Proof. intros w. apply still_refl. Qed.

Lemma inert_gets {A} (f : World -> A) : inert (gets f).
Proof. intros w. apply still_refl. Qed.

Lemma inert_throw {A} (e : Exn) : inert (@throw A e).
Proof. intros w. apply still_refl. Qed.

Lemma inert_outOfFuel {A} : inert (@outOfFuel A).
Proof. by intros w. Qed.

Lemma inert_emit (e : Effect) : passive e -> inert (emit e).
Proof. intros He w. by apply still_emit. Qed.

Lemma inert_modify (f : World -> World) :
  (forall w, state (f w) = state w /\ socketDestroyed (f w) = socketDestroyed w
             /\ log (f w) = log w) ->
  inert (modify f).
Proof.
  intros Hf w. destruct (Hf w) as (Hs & Hd & Hl). cbn.
  split; [done|]. split; [by rewrite Hd|]. exists []. by rewrite app_nil_r.
Qed.

Lemma inert_bind {A B} (m : M A) (k : A -> M B) :
  inert m -> (forall a, inert (k a)) -> inert (bind m k).
Proof.
  intros Hm Hk w. unfold bind. specialize (Hm w).
  destruct (m w) as [a w1|e w1|]; [|done|done].
  specialize (Hk a w1).
  destruct (k a w1) as [b w2|e w2|]; [| |done]; by eapply still_trans.
Qed.

Lemma idle_bind {A B} (m : M A) (k : A -> M B) :
  idle m -> (forall a, idle (k a)) -> idle (bind m k).
Proof.
  intros Hm Hk w Hw. unfold bind. specialize (Hm w Hw).
  destruct (m w) as [a w1|e w1|]; [|done|done].
  specialize (Hk a w1 (still_isConnected _ _ Hm Hw)).
  destruct (k a w1) as [b w2|e w2|]; [| |done]; by eapply still_trans.
Qed.

(** A computation that asks [connected()] first only matters for the
    answer no. *)
Lemma idle_connected {B} (k : bool -> M B) :
  idle (k false) -> idle (bind connected k).
Proof.
  intros Hk w Hw. change (bind connected k w) with (k (isConnected w) w).
  rewrite Hw. by apply Hk.
Qed.

Lemma inert_forEach {A} (l : list A) (body : A -> M unit) :
  (forall x, inert (body x)) -> inert (forEach l body).
Proof.
  intros Hb. induction l as [|x l IH]; cbn [forEach].
  - apply inert_ret.
  - apply inert_bind; [apply Hb|intros _; apply IH].
Qed.

Create HintDb inert.

Ltac still_setter :=
  let w := fresh "w" in
  intros w; destruct_world w; by repeat split.

Ltac inert_step :=
  lazymatch goal with
  | |- inert (bind _ _) => apply inert_bind; [|intros ?]
  | |- inert (ret _) => apply inert_ret
  | |- inert skip => apply inert_ret
  | |- inert (gets _) => apply inert_gets
  | |- inert (getItem _) => apply inert_gets
  | |- inert (getTimeEntry _) => apply inert_gets
  | |- inert connected => apply inert_gets
  | |- inert (throw _) => apply inert_throw
  | |- inert (emit _) => apply inert_emit; exact I
  | |- inert (modify (set_socketDestroyed true)) => solve [auto with inert]
  | |- inert (modify _) => apply inert_modify; still_setter
  | |- inert (updateItem _ _) => apply inert_modify; still_setter
  | |- inert (decReadOperations _) => apply inert_modify; still_setter
  | |- inert (incReadOperations _) => apply inert_modify; still_setter
  | |- inert (when ?b _) => destruct b; cbn [when]
  | |- inert (forEach _ _) => apply inert_forEach; intros ?
  | |- inert (if ?b then _ else _) => destruct b
  | |- inert (match ?x with _ => _ end) => destruct x
  | |- inert _ => solve [auto with inert]
  end.

Ltac inert_auto := repeat inert_step.

Lemma inert_console_assert b what : inert (console_assert b what).
Proof. unfold console_assert. inert_auto. Qed.
Lemma inert_writeMirrorSize d f : inert (writeMirrorSize d f).
Proof. unfold writeMirrorSize. inert_auto. Qed.
Lemma inert_cleanupWorkItem d : inert (cleanupWorkItem d).
Proof. unfold cleanupWorkItem. inert_auto. Qed.
#[local] Hint Resolve inert_console_assert inert_writeMirrorSize
  inert_cleanupWorkItem : inert.

Lemma inert_cleanupWorkQueue : inert cleanupWorkQueue.
Proof. unfold cleanupWorkQueue. inert_auto. Qed.
Lemma inert_schedule : inert scheduleSlaveSynchronizationCommands.
Proof.
  intros w. rewrite schedule_run. destruct_world w.
  split; [done|]. split; [done|]. exists []. cbn. by rewrite app_nil_r.
Qed.
#[local] Hint Resolve inert_cleanupWorkQueue inert_schedule : inert.

Lemma inert_onConnectionClose : inert onConnectionClose.
Proof. unfold onConnectionClose. inert_auto. Qed.
Lemma inert_socketDestroyed : inert (modify (set_socketDestroyed true)).
Proof.
  intros w. destruct_world w. split; [done|]. split; [done|].
  exists []. cbn. by rewrite app_nil_r.
Qed.
#[local] Hint Resolve inert_onConnectionClose inert_socketDestroyed : inert.

Ltac idle_step :=
  lazymatch goal with
  | |- idle (bind connected _) =>
      apply idle_connected; cbn [negb andb orb when];
      rewrite ?orb_true_r, ?andb_false_r; cbn [when]
  | |- idle (bind _ _) => apply idle_bind; [|intros ?]
  | |- idle (when ?b _) => destruct b; cbn [when]
  | |- idle (if ?b then _ else _) => destruct b
  | |- idle (match ?x with _ => _ end) => destruct x
  | |- idle _ => first [solve [auto with inert] | apply inert_idle; inert_auto]
  end.

Ltac idle_auto := repeat idle_step.

Lemma idle_processNext (fuel : nat) : idle (processNext fuel).
Proof.
  destruct fuel as [|fuel]; cbn [processNext].
  - apply inert_idle, inert_outOfFuel.
  - apply idle_connected. cbn. apply inert_idle, inert_ret.
Qed.

Lemma idle_processNextReplicationCommand : idle processNextReplicationCommand.
Proof. intros w Hw. by apply idle_processNext. Qed.
#[local] Hint Resolve idle_processNext idle_processNextReplicationCommand : inert.

Lemma idle_disconnect : idle _disconnect.
Proof. unfold _disconnect. idle_auto. Qed.
Lemma idle_disconnectWithError message : idle (_disconnectWithError message).
Proof. unfold _disconnectWithError. idle_auto. Qed.
#[local] Hint Resolve idle_disconnect idle_disconnectWithError : inert.

Lemma idle_readJsonObjectCallback command r (k : string -> M unit) :
  idle (readJsonObjectCallback command r k).
Proof. unfold readJsonObjectCallback. idle_auto. Qed.
#[local] Hint Resolve idle_readJsonObjectCallback : inert.

(** No handler does anything but passive things in a session that is
    not connected. *)
Lemma idle_handle (ev : Event) : idle (handle ev).
Proof.
  unfold handle. cbv zeta.
  apply idle_bind; [apply inert_idle, inert_gets|intros k].
  destruct ev, k as [[]|];
    unfold sentRemoveOneCommand, sentRemoveCommand, written, dataFileRecordSent,
      sentResultsAfterRecord, sentResultsAtEof, sentResults, gotRecord,
      visitRecord, databaseLocked, onAddingToOurDatabase, onRemoveFromOurDatabase;
    idle_auto.
Qed.

Lemma still_step (w : World) (ev : Event) :
  isConnected w = false -> still w (step w ev).
Proof.
  intros Hw. unfold step. pose proof (idle_handle ev w Hw) as H.
  destruct (handle ev w) as [a w'|e w'|]; [done| |apply still_refl].
  eapply still_trans; [exact H|]. by apply still_emit.
Qed.

(** X17.  A session that is not connected -- its state is
    [DISCONNECTED], or its socket is destroyed -- stays so whatever
    happens next: no event makes it write to the slave or read from it,
    start a read of a time entry, lock or unlock the database or
    schedule a tick.  All it still does is call callbacks of the
    database, stop a read, fail an assertion or throw.  Its state never
    changes again. *)
Theorem disconnected_session_is_passive (w : World) (evs : list Event) :
  isConnected w = false ->
  let w' := run w evs in
  isConnected w' = false
  /\ state w' = state w
  /\ exists es, log w' = log w ++ es /\ Forall passive es.
Proof.
  intros Hw. cbv zeta.
  assert (H : still w (run w evs)).
  { revert w Hw. induction evs as [|ev evs IH]; intros w Hw.
    - apply still_refl.
    - cbn [run foldl]. pose proof (still_step w ev Hw) as Hs.
      eapply still_trans; [exact Hs|].
      apply IH. by eapply still_isConnected. }
  split; [by eapply still_isConnected|].
  destruct H as (Hs & _ & Hes). by split.
Qed.

Lemma disconnected_session_is_passive_witness :
  let w := step (readySession true) SocketDestroyed in
  state (run w [addingHi; Tick; Close]) = READY.
Proof.
  destruct (disconnected_session_is_passive
              (step (readySession true) SocketDestroyed) [addingHi; Tick; Close])
    as (_ & Hs & _); [reflexivity|].
  exact Hs.
Defined.

Lemma cleanupWorkItem_once_witness :
  match cleanupWorkItem 0%nat (step (readySession true) addingHi) with
  | Ok _ w' | Throw _ w' =>
      cleaned (items w' !!! 0%nat) = true /\ cleanupWorkItem 0%nat w' = Ok tt w'
  | OutOfFuel => False
  end.
Proof.
  apply (cleanupWorkItem_once 0%nat (step (readySession true) addingHi)).
  eexists. vm_compute. reflexivity.
Defined.

Lemma onAddingToOurDatabase_not_ready_witness :
  onAddingToOurDatabase 0%nat "a" 1 [] 7%nat
    (_continueReplication 10 true exampleDb exampleToc)
  = Throw (AssertionError "self.state != LOCKED_SYNCHRONIZING")
      (_continueReplication 10 true exampleDb exampleToc).
Proof.
  by rewrite (onAddingToOurDatabase_not_ready 0%nat "a" 1 [] 7%nat
                (_continueReplication 10 true exampleDb exampleToc)).
Defined.

Lemma onConnectionClose_drains_witness :
  exists w',
    onConnectionClose (step (readySession true) addingHi) = Ok tt w'
    /\ workQueue w' = []
    /\ log w' = log (readySession true) ++ [NextTick; Invoke 7%nat]
    /\ readOperations (entries (database w') !!! 0%nat) = 0.
Proof.
  destruct (onConnectionClose_drains (step (readySession true) addingHi))
    as (w' & Hrun & Hq & _ & _ & _ & _ & _ & _ & Hlog & Hes & _).
  - vm_compute. apply NoDup_singleton.
  - intros d Hd. vm_compute in Hd. apply list_elem_of_singleton in Hd as ->.
    intros _ _. vm_compute. by eexists.
  - exists w'. split; [exact Hrun|]. split; [exact Hq|].
    split; [rewrite Hlog|rewrite Hes]; vm_compute; reflexivity.
Defined.

(** ** The readers taken by the diff *)

Lemma scheduledItems_fresh (db : Database) (t : Toc) (it : WorkItem) :
  it ∈ scheduledItems db t ->
  cleaned it = false /\ callback it = None /\ cleanable it.
Proof.
  intros [| | | | |]%elem_of_scheduledItems; repeat split; try done;
    intros _ Hc; try discriminate; by eexists.
Qed.

Lemma omap_seq_items {B} (f : WorkItem -> option B) (its : list WorkItem) :
  forall new : list WorkItem,
  omap (fun d => f ((its ++ new) !!! d)) (seq (List.length its) (List.length new))
  = omap f new.
Proof.
  induction new as [|x new IH] using rev_ind; [done|].
  rewrite length_app, seq_app, !omap_app. cbn [List.length seq omap list_omap].
  f_equal.
  - rewrite <- IH. apply list_omap_ext, Forall2_same_length_lookup.
    split; [done|]. intros i a b Ha Hb. rewrite Ha in Hb. injection Hb as <-.
    apply lookup_seq in Ha as [-> Hi]. f_equal.
    rewrite app_assoc, lookup_total_app_l; [done|]. rewrite length_app. lia.
  - rewrite app_assoc, list_lookup_total_middle; [done|].
    rewrite length_app. lia.
Qed.

Lemma releaseReaders_bumpReaders_comm (te : teRef) (new : list WorkItem) :
  forall es : list TimeEntry,
  releaseReaders [te] (bumpReaders new es) = bumpReaders new (releaseReaders [te] es).
Proof.
  induction new as [|it new IH]; intros es; [done|].
  change (bumpReaders (it :: new) ?e) with (bumpReaders ([it] ++ new) e).
  rewrite !bumpReaders_app, IH. f_equal.
  unfold bumpReaders, releaseReaders. cbn [foldl].
  destruct (command it) as [[]|]; try done.
  destruct (timeEntry it) as [te'|]; [|done].
  destruct (decide (te = te')) as [->|Hne].
  - rewrite !list_alter_alter_eq. apply list_alter_ext; [|done].
    intros [] _. cbn. f_equal. lia.
  - by rewrite list_alter_alter_ne.
Qed.

(** Giving back the readers of the fills of a batch of new work items
    undoes what taking them did. *)
Lemma releaseReaders_bumpReaders (new : list WorkItem) : forall es : list TimeEntry,
  Forall (fun it => cleaned it = false /\ cleanable it) new ->
  releaseReaders
    (omap (fun it => if cleaned it then None
                     else if bool_decide (command it = Some FILL_COMMAND)
                          then timeEntry it else None) new)
    (bumpReaders new es)
  = es.
Proof.
  induction new as [|it new IH]; intros es Hall; [done|].
  apply Forall_cons in Hall as [[Hc Hwf] Hall].
  change (bumpReaders (it :: new) es) with (bumpReaders ([it] ++ new) es).
  rewrite bumpReaders_app. cbn [omap list_omap]. rewrite Hc.
  case_bool_decide as Hf.
  - destruct (Hwf Hc Hf) as [te Hte]. rewrite Hte. cbn [app].
    change (releaseReaders (te :: ?r) ?e)
      with (releaseReaders r (releaseReaders [te] e)).
    rewrite releaseReaders_bumpReaders_comm, IH by done.
    unfold bumpReaders, releaseReaders. cbn [foldl]. rewrite Hf, Hte.
    rewrite list_alter_alter_eq. apply list_alter_id.
    intros []. cbn. f_equal. lia.
  - cbn [app]. rewrite IH by done.
    unfold bumpReaders. cbn [foldl].
    destruct (command it) as [[]|]; try done.
Qed.

(** X18.  The database grants its lock to a session that is no longer
    connected: the diff is still run and its fills each take a reader on
    their time entry, but no command is sent; when the connection closes
    the queue is drained and every one of these readers is given back, so
    that the time entries count the readers they counted before. *)
Theorem readers_return_on_close (w : World) :
  isConnected w = false -> pending w = Some KLock ->
  workQueue w = [] -> currentWorkItem w = None ->
  let new := scheduledItems (database w) (toc w) in
  let w1 := step w Locked in
  let w2 := step w1 Close in
  workQueue w1 = seq (List.length (items w)) (List.length new)
  /\ entries (database w1) = bumpReaders new (entries (database w))
  /\ log w1 = log w
  /\ workQueue w2 = []
  /\ entries (database w2) = entries (database w)
  /\ log w2 = log w ++ (if cleanupHandler w then [RecordStop] else []).
Proof.
  intros Hc Hp Hq Hcur new w1 w2.
  assert (H1 : w1 = enqueued new (set_pending None w)).
  { unfold w1, step, handle. rewrite bind_gets, Hp, bind_modify.
    unfold databaseLocked. rewrite bind_gets.
    assert (Hq' : workQueue (set_pending None w) = []) by (by destruct_world w).
    rewrite Hq'. rewrite bool_decide_eq_true_2 by done.
    unfold console_assert. unfold bind at 1, skip, ret.
    erewrite bind_Ok by apply schedule_run.
    assert (Hdb : scheduledItems (database (set_pending None w))
                    (toc (set_pending None w)) = new) by (by destruct_world w).
    rewrite Hdb.
    pose proof (idle_processNextReplicationCommand
                  (enqueued new (set_pending None w))) as Hidle.
    unfold processNextReplicationCommand in *.
    cbn [processNext] in *. unfold connected, bind, gets in *.
    assert (Hc' : isConnected (enqueued new (set_pending None w)) = false)
      by (by destruct_world w).
    unfold isConnected in Hc'. rewrite Hc'. done. }
  assert (Hheld : heldItems w1 = seq (List.length (items w)) (List.length new)).
  { rewrite H1. unfold heldItems. destruct_world w. simpl_fields. subst.
    cbn. by rewrite app_nil_r. }
  assert (Hitems : items w1 = items w ++ new).
  { rewrite H1. by destruct_world w. }
  assert (Hfresh : Forall (fun it => cleaned it = false /\ cleanable it) new).
  { apply Forall_forall. intros it Hit.
    apply scheduledItems_fresh in Hit as (? & ? & ?). by split. }
  destruct (onConnectionClose_run w1)
    as (w' & Hrun & Hq2 & _ & _ & _ & _ & _ & _ & Hlog & Hes & _).
  { rewrite Hheld. apply NoDup_seq. }
  { intros d. rewrite Hheld, Hitems. intros [Hlo Hhi]%elem_of_seq.
    assert (Hd : (items w ++ new) !!! d = new !!! (d - List.length (items w))%nat).
    { apply lookup_total_app_r. lia. }
    rewrite Hd.
    assert (Hin : new !!! (d - List.length (items w))%nat ∈ new).
    { apply list_elem_of_lookup_total_2. lia. }
    by apply (proj1 (Forall_forall _ _) Hfresh) in Hin as [_ ?]. }
  assert (H2 : w2 = w').
  { unfold w2, step, handle. rewrite bind_gets.
    assert (Hh : (let next := processNextReplicationCommand in
                  match Close, pending w1 with
                  | Close, _ => onConnectionClose
                  | _, _ => skip
                  end) = onConnectionClose) by (by destruct (pending w1) as [[]|]).
    destruct (pending w1) as [[]|]; by rewrite Hrun. }
  rewrite H2, Hq2, Hes, Hlog, Hheld, Hitems.
  assert (Hw1 : workQueue w1 = seq (List.length (items w)) (List.length new)
                /\ entries (database w1) = bumpReaders new (entries (database w))
                /\ log w1 = log w /\ cleanupHandler w1 = cleanupHandler w).
  { rewrite H1. destruct_world w. simpl_fields. by subst. }
  destruct Hw1 as (Hq1 & He1 & Hl1 & Hch1).
  rewrite Hq1, He1, Hl1, Hch1.
  unfold cleanupReleases, cleanupCalls. cbv zeta.
  pose proof (omap_seq_items
                (fun it => if cleaned it then None
                           else if bool_decide (command it = Some FILL_COMMAND)
                                then timeEntry it else None) (items w) new) as Hrel.
  pose proof (omap_seq_items
                (fun it => if cleaned it then None else Invoke <$> callback it)
                (items w) new) as Hcalls.
  cbv beta in Hrel, Hcalls. rewrite Hrel, Hcalls.
  repeat split; try done.
  - by apply releaseReaders_bumpReaders.
  - assert (Hnil : omap (fun it => if cleaned it then None
                                   else Invoke <$> callback it) new = []).
    { apply elem_of_nil_inv. intros e He.
      apply list_elem_of_omap in He as (it & Hit & He).
      apply scheduledItems_fresh in Hit as (Hcl & Hcb & _).
      by rewrite Hcl, Hcb in He. }
    by rewrite Hnil, app_nil_r.
Qed.

Lemma readers_return_on_close_witness :
  let w := run (_continueReplication 10 true exampleDb exampleToc)
             [DatabaseChanged
                (mkDatabase (groups exampleDb) [mkTimeEntry "/db/a/1" 150 0]
                   (calculateRecordSize exampleDb));
              SocketDestroyed] in
  readOperations (entries (database (step w Locked)) !!! 0%nat) = 1
  /\ entries (database (step (step w Locked) Close)) = entries (database w).
Proof.
  destruct (readers_return_on_close
              (run (_continueReplication 10 true exampleDb exampleToc)
                 [DatabaseChanged
                    (mkDatabase (groups exampleDb) [mkTimeEntry "/db/a/1" 150 0]
                       (calculateRecordSize exampleDb));
                  SocketDestroyed]))
    as (_ & H1 & _ & _ & H2 & _); try reflexivity.
  split; [by rewrite H1|exact H2].
Defined.


(** ** Replies of the slave *)

(** X19.  Every callback that waits for the reply to a [removeOne], a
    [remove] or a [results] command gives up on a status other than ok:
    the session destroys the socket and becomes [DISCONNECTED]; the
    mirror of the table of contents, the work queue and the next opid are
    left as they were, and the work item is not cleaned up.  (The
    callback that streams a file also stops the read.) *)
Theorem reply_not_ok_disconnects (w : World) (k : Cont) (command status : string) :
  isConnected w = true -> pending w = Some k -> awaitsReply k = Some command ->
  status <> "ok" ->
  let w' := step w (Json (JsonObject status)) in
  state w' = DISCONNECTED /\ pending w' = None
  /\ log w' = log w ++ [ReadJSON command status; SocketDestroy]
              ++ match k with
                 | KReplyResultsAfterRecord _ _ => [RecordStop]
                 | _ => []
                 end
  /\ toc w' = toc w /\ workQueue w' = workQueue w /\ items w' = items w
  /\ nextOpId w' = nextOpId w /\ database w' = database w.
Proof.
  intros Hc Hp Hk Hne%String.eqb_neq w'. unfold w'.
  destruct_world w. simpl_fields. unfold isConnected in Hc. simpl_fields.
  subst p. unfold step, handle.
  destruct k; try discriminate; injection Hk as <-;
    unfold readJsonObjectCallback, receivedReplyForRemoveOneCommand,
      receivedReplyForRemoveCommand, receivedReplyForRefill,
      handleCheckResultAfterSendingDataFileRecord, dataFileFullyStreamed,
      handleCheckResult, _disconnect;
    repeat progress (mstep; rewrite ?Hc, ?Hne);
    rewrite <- ?app_assoc; done.
Qed.

Lemma reply_not_ok_disconnects_witness :
  let w := run (readySession true)
             [Removed "a" (Some 2); Tick; Written false] in
  state (step w (Json (JsonObject "error"))) = DISCONNECTED.
Proof.
  destruct (reply_not_ok_disconnects
              (run (readySession true) [Removed "a" (Some 2); Tick; Written false])
              (KReplyRemoveOne 0%nat []) "removeOne" "error") as (H & _);
    try reflexivity; try exact H.
  discriminate.
Defined.

(** ** Streaming the records of a data file *)

(** X20.  A record that [timeEntry.each] hands to a connected session is
    sent as one [add] command with the next opid, followed by its data;
    the mirror of the slave's table of contents counts the size of the
    record at once.  When the write is done the records sent are
    counted.  If the count has reached [resultCheckThreshold], a
    [results] command is sent, and once it is answered with status ok the
    opids start again from 0 and the next record is asked for.  If it has
    not, the handler calls [continueReading], which is not defined: it
    throws a [ReferenceError] and the next record is never asked for. *)
Theorem record_is_streamed (w : World) (d : itemRef) (it : WorkItem)
    (p : string * Z) (e : TocEntry) (r : RecordInfo) :
  isConnected w = true -> pending w = Some (KEach d) ->
  items w !! d = Some it -> timeEntryOnReplica it = Some p ->
  lookupMirror (toc w) p = Some e -> eof r = false ->
  let w1 := step w (Each false (Some r)) in
  let w2 := step w1 (Written false) in
  let w4 := run w2 [Written false; Json (JsonObject "ok")] in
  log w1 = log w ++ [WriteJSON (MsgAdd (groupName it) (timestampOf (dayTimestamp it))
                                  (dataSize r) (nextOpId w) (corrupted r));
                     Write (data r)]
  /\ nextOpId w1 = nextOpId w + 1
  /\ lookupMirror (toc w1) p = Some (mkTocEntry (size e + recordSize r))
  /\ cleanupHandler w1 = true
  /\ if resultCheckThreshold w <=? resultCheckCounter w + 1 then
       log w2 = log w1 ++ [WriteJSON MsgResults]
       /\ resultCheckCounter w2 = 0
       /\ log w4 = log w2 ++ [ReadJSON "results" "ok"; RecordReadNext]
       /\ nextOpId w4 = 0 /\ pending w4 = Some (KEach d)
       /\ cleanupHandler w4 = false
     else
       log w2 = log w1 ++ [Uncaught (ReferenceError "continueReading")]
       /\ resultCheckCounter w2 = resultCheckCounter w + 1
       /\ pending w2 = None.
Proof.
  intros Hc Hp Hit Hr Hm Heof w1 w2 w4.
  assert (Hd : items w !!! d = it) by (by apply list_lookup_total_correct).
  destruct p as [g dst]. unfold lookupMirror in Hm. cbn [fst snd] in Hm.
  destruct (toc w !! g) as [gr|] eqn:Hg; [|done]. cbn in Hm.
  destruct_world w. simpl_fields. unfold isConnected in Hc. simpl_fields.
  subst p.
  assert (H1 : w1 = mkWorld st sd th
                      (alter (fun g0 => <[dst := mkTocEntry (size e + recordSize r)]> g0)
                         g t)
                      q cur rc true (op + 1) rs its (mkDatabase grps es calc) sub ath
                      (Some (KRecordSent d r))
                      (l ++ [WriteJSON (MsgAdd (groupName it)
                                          (timestampOf (dayTimestamp it))
                                          (dataSize r) op (corrupted r));
                             Write (data r)])).
  { unfold w1, step, handle, visitRecord, writeMirrorSize, lookupMirror.
    repeat progress (mstep; rewrite ?Hc, ?Heof, ?Hd, ?Hr, ?Hg, ?Hm).
    by rewrite <- app_assoc. }
  assert (Hc1 : isConnected w1 = true) by (by rewrite H1).
  unfold isConnected in Hc1. rewrite H1 in Hc1. simpl_fields.
  split; [by rewrite H1|]. split; [by rewrite H1|]. split.
  { rewrite H1. unfold lookupMirror. cbn [toc fst snd].
    rewrite lookup_alter_eq, Hg. cbn. apply lookup_insert_eq. }
  split; [by rewrite H1|].
  destruct (Z.leb_spec th (rc + 1)) as [Hth|Hth].
  - assert (H2 : w2 = set_pending (Some (KSentResultsAfterRecord d r))
                        (over_log (fun l => l ++ [WriteJSON MsgResults])
                           (set_resultCheckCounter 0 w1))).
    { unfold w2. rewrite H1. unfold step, handle, dataFileRecordSent.
      repeat progress (mstep; rewrite ?Hc1).
      rewrite (proj2 (Z.leb_le th (rc + 1))) by done. by mstep. }
    assert (H4 : w4 = set_pending (Some (KEach d))
                        (over_log (fun l => l ++ [ReadJSON "results" "ok";
                                                  RecordReadNext])
                           (set_nextOpId 0 (set_cleanupHandler false w2)))).
    { unfold w4. rewrite H2, H1. cbn [run foldl].
      unfold step, handle, sentResultsAfterRecord, readJsonObjectCallback,
        handleCheckResultAfterSendingDataFileRecord.
      repeat progress (mstep; rewrite ?Hc1).
      by rewrite <- !app_assoc. }
    rewrite H4, H2, H1. by cbn.
  - assert (H2 : w2 = over_log (fun l => l ++ [Uncaught (ReferenceError
                                                           "continueReading")])
                        (set_pending None
                           (over_resultCheckCounter (fun n => n + 1) w1))).
    { unfold w2. rewrite H1. unfold step, handle, dataFileRecordSent.
      repeat progress (mstep; rewrite ?Hc1).
      rewrite (proj2 (Z.leb_gt th (rc + 1))) by done. by mstep. }
    rewrite H2, H1. by cbn.
Qed.

Lemma record_is_streamed_witness :
  let w1 := step streamingStarted (Each false (Some exampleRecord)) in
  log w1 = log streamingStarted
           ++ [WriteJSON (MsgAdd (Some "a") (Some (2 * 24 * 60 * 60)) 2 0 None);
               Write [Byte.x68; Byte.x69]]
  /\ log (step w1 (Written false))
     = log w1 ++ [Uncaught (ReferenceError "continueReading")].
Proof.
  pose proof (record_is_streamed streamingStarted 0%nat streamingItem ("a", 2)
                (mkTocEntry 50) exampleRecord
                eq_refl eq_refl eq_refl eq_refl eq_refl eq_refl)
    as (H1 & _ & _ & _ & H2).
  match type of H2 with (if ?c then _ else _) =>
    let v := eval vm_compute in c in change c with v in H2
  end.
  destruct H2 as (H2 & _). split; [exact H1|exact H2].
Defined.

(** ** The phases of a session and the lock of the database *)

Lemma locks_app (l1 l2 : list Effect) : locks (l1 ++ l2) = (locks l1 + locks l2)%nat.
Proof.
  induction l1 as [|e l1 IH]; [done|]. destruct e; cbn; by rewrite ?IH.
Qed.

Lemma unlocks_app (l1 l2 : list Effect) :
  unlocks (l1 ++ l2) = (unlocks l1 + unlocks l2)%nat.
Proof.
  induction l1 as [|e l1 IH]; [done|]. destruct e; cbn; by rewrite ?IH.
Qed.

Lemma steady_refl (w : World) : steady w w.
Proof. repeat split; auto. Qed.

Lemma steady_trans (w1 w2 w3 : World) : steady w1 w2 -> steady w2 w3 -> steady w1 w3.
Proof.
  intros (Hs1 & Hl1 & Hu1 & Hb1 & Hp1) (Hs2 & Hl2 & Hu2 & Hb2 & Hp2).
  repeat split; [|congruence|congruence|auto|].
  - destruct Hs2 as [Hs2|Hs2]; [|by right].
    destruct Hs1 as [Hs1|Hs1]; [left|right]; congruence.
  - destruct Hp2 as [Hp2|Hp2]; [|by right].
    destruct Hp1 as [Hp1|Hp1]; [left; congruence|right; by rewrite Hp2].
Qed.

Lemma steady_rank (w w' : World) :
  steady w w' -> (rank (state w) <= rank (state w'))%nat.
Proof.
  intros ([->| ->] & _); [done|]. destruct (state w); cbn; lia.
Qed.

Lemma steady_phased (w w' : World) : phased w -> steady w w' -> phased w'.
Proof.
  intros [Hsub Hph] (Hs & Hl & Hu & Hb & Hp). unfold phased in *.
  cbv zeta in *. rewrite Hl, Hu. split; [auto|].
  assert (Hbad : ofLockedPhase (pending w') -> ofLockedPhase (pending w)).
  { intros Hbad. destruct Hp as [Hp|Hp]; [by rewrite <- Hp|done]. }
  destruct Hs as [Hs|Hs]; rewrite Hs.
  - destruct (state w); try done; tauto.
  - destruct (state w); try done.
    + destruct Hph as (-> & -> & Hno). split; [lia|]. intros Hb'. by apply Hbad in Hb'.
    + destruct Hph as (-> & ->). split; [lia|]. done.
    + destruct Hph as (-> & -> & Hno). split; [lia|]. intros Hb'. by apply Hbad in Hb'.
    + tauto.
Qed.

Lemma keepsPhase_advances {A} (m : M A) : keepsPhase m -> advances m.
Proof.
  intros Hm w Hw. specialize (Hm w).
  destruct (m w) as [a w'|e w'|]; [| |done];
    (split; [by eapply steady_phased|by apply steady_rank]).
Qed.

Lemma keepsPhase_ret {A} (a : A) : keepsPhase (ret a).
Proof. intros w. apply steady_refl. Qed.

Lemma keepsPhase_gets {A} (f : World -> A) : keepsPhase (gets f).
Proof. intros w. apply steady_refl. Qed.

Lemma keepsPhase_throw {A} (e : Exn) : keepsPhase (@throw A e).
Proof. intros w. apply steady_refl. Qed.

Lemma keepsPhase_outOfFuel {A} : keepsPhase (@outOfFuel A).
Proof. by intros w. Qed.

Lemma keepsPhase_modify (f : World -> World) :
  (forall w, steady w (f w)) -> keepsPhase (modify f).
Proof. intros Hf w. apply Hf. Qed.

Lemma keepsPhase_emit (e : Effect) :
  e <> DatabaseLock -> e <> DatabaseUnlock -> keepsPhase (emit e).
Proof.
  intros H1 H2 w. destruct_world w. unfold emit, modify, steady.
  cbn [over_log]. simpl_fields. rewrite locks_app, unlocks_app.
  repeat split; auto; destruct e; cbn; try lia; congruence.
Qed.

Lemma keepsPhase_bind {A B} (m : M A) (k : A -> M B) :
  keepsPhase m -> (forall a, keepsPhase (k a)) -> keepsPhase (bind m k).
Proof.
  intros Hm Hk w. unfold bind. specialize (Hm w).
  destruct (m w) as [a w1|e w1|]; [|done|done].
  specialize (Hk a w1).
  destruct (k a w1) as [b w2|e w2|]; [| |done]; by eapply steady_trans.
Qed.

Lemma advances_bind {A B} (m : M A) (k : A -> M B) :
  advances m -> (forall a, advances (k a)) -> advances (bind m k).
Proof.
  intros Hm Hk w Hw. unfold bind. specialize (Hm w Hw).
  destruct (m w) as [a w1|e w1|]; [|done|done].
  destruct Hm as [Hw1 Hr1]. specialize (Hk a w1 Hw1).
  destruct (k a w1) as [b w2|e w2|]; [| |done];
    (destruct Hk as [Hw2 Hr2]; split; [done|lia]).
Qed.

Lemma keepsPhase_forEach {A} (l : list A) (body : A -> M unit) :
  (forall x, keepsPhase (body x)) -> keepsPhase (forEach l body).
Proof.
  intros Hb. induction l as [|x l IH]; cbn [forEach].
  - apply keepsPhase_ret.
  - apply keepsPhase_bind; [apply Hb|intros _; apply IH].
Qed.

Create HintDb phase.

Ltac steady_setter :=
  let w := fresh "w" in
  intros w; destruct_world w; cbn;
  repeat split; auto; try done;
  try (right; intros [?|?]; discriminate).

Ltac keepsPhase_step :=
  lazymatch goal with
  | |- keepsPhase (bind _ _) => apply keepsPhase_bind; [|intros ?]
  | |- keepsPhase (ret _) => apply keepsPhase_ret
  | |- keepsPhase skip => apply keepsPhase_ret
  | |- keepsPhase (gets _) => apply keepsPhase_gets
  | |- keepsPhase (getItem _) => apply keepsPhase_gets
  | |- keepsPhase (getTimeEntry _) => apply keepsPhase_gets
  | |- keepsPhase connected => apply keepsPhase_gets
  | |- keepsPhase (throw _) => apply keepsPhase_throw
  | |- keepsPhase (emit _) => apply keepsPhase_emit; discriminate
  | |- keepsPhase (modify _) => apply keepsPhase_modify; steady_setter
  | |- keepsPhase (updateItem _ _) => apply keepsPhase_modify; steady_setter
  | |- keepsPhase (decReadOperations _) => apply keepsPhase_modify; steady_setter
  | |- keepsPhase (incReadOperations _) => apply keepsPhase_modify; steady_setter
  | |- keepsPhase (_readJsonObject _) => apply keepsPhase_modify; steady_setter
  | |- keepsPhase (when ?b _) => destruct b; cbn [when]
  | |- keepsPhase (forEach _ _) => apply keepsPhase_forEach; intros ?
  | |- keepsPhase (if ?b then _ else _) => destruct b
  | |- keepsPhase (match ?x with _ => _ end) => destruct x
  | |- keepsPhase _ => solve [auto with phase]
  end.

Ltac keepsPhase_auto := repeat keepsPhase_step.

Lemma keepsPhase_console_assert b what : keepsPhase (console_assert b what).
Proof. unfold console_assert. keepsPhase_auto. Qed.
Lemma keepsPhase_readMirrorSize d : keepsPhase (readMirrorSize d).
Proof. unfold readMirrorSize. keepsPhase_auto. Qed.
Lemma keepsPhase_writeMirrorSize d f : keepsPhase (writeMirrorSize d f).
Proof. unfold writeMirrorSize. keepsPhase_auto. Qed.
Lemma keepsPhase_disconnect : keepsPhase _disconnect.
Proof. unfold _disconnect. keepsPhase_auto. Qed.
Lemma keepsPhase_disconnectWithError msg : keepsPhase (_disconnectWithError msg).
Proof. unfold _disconnectWithError. keepsPhase_auto. Qed.
Lemma keepsPhase_cleanupWorkItem d : keepsPhase (cleanupWorkItem d).
Proof. unfold cleanupWorkItem. keepsPhase_auto. Qed.
#[local] Hint Resolve keepsPhase_console_assert keepsPhase_readMirrorSize
  keepsPhase_writeMirrorSize keepsPhase_disconnect keepsPhase_disconnectWithError
  keepsPhase_cleanupWorkItem : phase.

Lemma keepsPhase_writeJSON m k :
  ~ ofLockedPhase k -> keepsPhase (_writeJSON m k).
Proof.
  intros Hk. unfold _writeJSON.
  apply keepsPhase_bind; [apply keepsPhase_emit; by destruct m|intros _].
  destruct k as [k|]; [|apply keepsPhase_ret].
  apply keepsPhase_modify. intros w. destruct_world w. cbn.
  repeat split; auto.
Qed.

Lemma keepsPhase_write buf k :
  ~ ofLockedPhase k -> keepsPhase (_write buf k).
Proof.
  intros Hk. unfold _write.
  apply keepsPhase_bind; [apply keepsPhase_emit; discriminate|intros _].
  destruct k as [k|]; [|apply keepsPhase_ret].
  apply keepsPhase_modify. intros w. destruct_world w. cbn.
  repeat split; auto.
Qed.

Ltac not_locked_phase :=
  first [ intros [?|?]; discriminate
        | match goal with |- ~ ofLockedPhase (if ?b then _ else _) =>
            destruct b; intros [?|?]; discriminate end ].

Lemma keepsPhase_addToWorkQueue item cb : keepsPhase (addToWorkQueue item cb).
Proof.
  intros w. rewrite addToWorkQueue_run. unfold addToWorkQueueSpec.
  destruct_world w. simpl_fields.
  destruct (bool_decide _); [destruct (bool_decide _)|]; cbn;
    repeat split; auto.
Qed.

Lemma keepsPhase_schedule : keepsPhase scheduleSlaveSynchronizationCommands.
Proof.
  intros w. rewrite schedule_run. destruct_world w. cbn. repeat split; auto.
Qed.

Lemma keepsPhase_startReplicator : keepsPhase startReplicator.
Proof. unfold startReplicator. keepsPhase_auto. Qed.
#[local] Hint Resolve keepsPhase_addToWorkQueue keepsPhase_schedule
  keepsPhase_startReplicator : phase.

Lemma keepsPhase_cleanupWorkQueue : keepsPhase cleanupWorkQueue.
Proof. unfold cleanupWorkQueue. keepsPhase_auto. Qed.
#[local] Hint Resolve keepsPhase_cleanupWorkQueue : phase.

Lemma keepsPhase_onConnectionClose : keepsPhase onConnectionClose.
Proof. unfold onConnectionClose. keepsPhase_auto. Qed.

Lemma keepsPhase_pruneOne d : keepsPhase (pruneOne d).
Proof.
  unfold pruneOne.
  repeat first [ apply keepsPhase_writeJSON; not_locked_phase | keepsPhase_step ].
Qed.

Lemma keepsPhase_fillBySendingBuffers d : keepsPhase (fillBySendingBuffers d).
Proof.
  unfold fillBySendingBuffers.
  repeat first [ apply keepsPhase_writeJSON; not_locked_phase
               | apply keepsPhase_write; not_locked_phase
               | keepsPhase_step ].
Qed.

Lemma keepsPhase_startStreamingDataFile d : keepsPhase (startStreamingDataFile d).
Proof. unfold startStreamingDataFile. keepsPhase_auto. Qed.

Lemma keepsPhase_fillByStreamingDataFile d : keepsPhase (fillByStreamingDataFile d).
Proof. unfold fillByStreamingDataFile. keepsPhase_auto. Qed.
#[local] Hint Resolve keepsPhase_onConnectionClose keepsPhase_pruneOne
  keepsPhase_fillBySendingBuffers keepsPhase_startStreamingDataFile
  keepsPhase_fillByStreamingDataFile : phase.

Lemma keepsPhase_fill d : keepsPhase (fill d).
Proof. unfold fill. keepsPhase_auto. Qed.

Lemma keepsPhase_checkResults d : keepsPhase (checkResults d).
Proof. unfold checkResults. apply keepsPhase_writeJSON. not_locked_phase. Qed.
#[local] Hint Resolve keepsPhase_fill keepsPhase_checkResults : phase.

Lemma keepsPhase_readJsonObjectCallback command r (k : string -> M unit) :
  (forall status, keepsPhase (k status)) ->
  keepsPhase (readJsonObjectCallback command r k).
Proof. intros Hk. unfold readJsonObjectCallback. keepsPhase_auto. Qed.

Lemma keepsPhase_onAddingToOurDatabase te g dst bufs done :
  keepsPhase (onAddingToOurDatabase te g dst bufs done).
Proof. unfold onAddingToOurDatabase. keepsPhase_auto. Qed.

Lemma keepsPhase_onRemoveFromOurDatabase g dst :
  keepsPhase (onRemoveFromOurDatabase g dst).
Proof. unfold onRemoveFromOurDatabase. keepsPhase_auto. Qed.

Lemma keepsPhase_sentRemoveOneCommand err d dsts :
  keepsPhase (sentRemoveOneCommand err d dsts).
Proof. unfold sentRemoveOneCommand. keepsPhase_auto. Qed.

Lemma keepsPhase_sentRemoveCommand err d : keepsPhase (sentRemoveCommand err d).
Proof. unfold sentRemoveCommand. keepsPhase_auto. Qed.

Lemma keepsPhase_sentResults err d : keepsPhase (sentResults err d).
Proof. unfold sentResults. keepsPhase_auto. Qed.

Lemma keepsPhase_sentResultsAtEof err d : keepsPhase (sentResultsAtEof err d).
Proof. unfold sentResultsAtEof. keepsPhase_auto. Qed.

Lemma keepsPhase_sentResultsAfterRecord err d r :
  keepsPhase (sentResultsAfterRecord err d r).
Proof. unfold sentResultsAfterRecord. keepsPhase_auto. Qed.

Lemma keepsPhase_dataFileRecordSent err d r : keepsPhase (dataFileRecordSent err d r).
Proof.
  unfold dataFileRecordSent.
  repeat first [ apply keepsPhase_writeJSON; not_locked_phase | keepsPhase_step ].
Qed.

Lemma keepsPhase_gotRecord err d : keepsPhase (gotRecord err d).
Proof.
  unfold gotRecord.
  repeat first [ apply keepsPhase_writeJSON; not_locked_phase | keepsPhase_step ].
Qed.

Lemma keepsPhase_receivedReplyForRefill status d :
  keepsPhase (receivedReplyForRefill status d).
Proof. unfold receivedReplyForRefill. keepsPhase_auto. Qed.

Lemma keepsPhase_handleCheckResultAfterRecord status d r :
  keepsPhase (handleCheckResultAfterSendingDataFileRecord status d r).
Proof. unfold handleCheckResultAfterSendingDataFileRecord. keepsPhase_auto. Qed.
#[local] Hint Resolve keepsPhase_onAddingToOurDatabase
  keepsPhase_onRemoveFromOurDatabase keepsPhase_sentRemoveOneCommand
  keepsPhase_sentRemoveCommand keepsPhase_sentResults keepsPhase_sentResultsAtEof
  keepsPhase_sentResultsAfterRecord keepsPhase_dataFileRecordSent
  keepsPhase_gotRecord keepsPhase_receivedReplyForRefill
  keepsPhase_handleCheckResultAfterRecord : phase.

Lemma advances_advancesFrom {A} (P : World -> Prop) (m : M A) :
  advances m -> advancesFrom P m.
Proof. intros Hm w Hw _. by apply Hm. Qed.

Lemma keepsState_bind {A B} (m : M A) (k : A -> M B) :
  keepsState m -> (forall a, keepsState (k a)) -> keepsState (bind m k).
Proof.
  intros Hm Hk w. unfold bind. specialize (Hm w).
  destruct (m w) as [a w1|e w1|]; [|done|done].
  destruct Hm as [Hs1 He1]. specialize (Hk a w1).
  destruct (k a w1) as [b w2|e w2|]; [| |done];
    (destruct Hk as [Hs2 He2]; split; [by eapply steady_trans|congruence]).
Qed.

Lemma keepsState_console_assert b what : keepsState (console_assert b what).
Proof.
  intros w. pose proof (keepsPhase_console_assert b what w) as H.
  destruct_world w. unfold console_assert in *.
  destruct b, ath; cbn in *; by split.
Qed.

Lemma keepsState_schedule : keepsState scheduleSlaveSynchronizationCommands.
Proof.
  intros w. pose proof (keepsPhase_schedule w) as H.
  rewrite schedule_run in *. split; [done|]. by destruct_world w.
Qed.

Lemma keepsState_set_currentWorkItem v : keepsState (modify (set_currentWorkItem v)).
Proof. intros w. destruct_world w. cbn. repeat split; auto. Qed.

Lemma keepsState_gets {A} (f : World -> A) : keepsState (gets f).
Proof. intros w. split; [apply steady_refl|done]. Qed.

(** From a known state: what stays in the state hands it on. *)
Lemma advancesFrom_bind {A B} (s : State) (m : M A) (k : A -> M B) :
  keepsState m ->
  (forall a, advancesFrom (fun w => state w = s) (k a)) ->
  advancesFrom (fun w => state w = s) (bind m k).
Proof.
  intros Hm Hk w Hw Hs. unfold bind. specialize (Hm w).
  destruct (m w) as [a w1|e w1|]; [| |done].
  - destruct Hm as [Hst He]. specialize (Hk a w1).
    assert (Hw1 : phased w1) by (by eapply steady_phased).
    specialize (Hk Hw1 (eq_trans He Hs)).
    destruct (k a w1) as [b w2|e w2|]; [| |done];
      (destruct Hk as [Hw2 Hr]; split; [done|]; rewrite He in Hr; lia).
  - destruct Hm as [Hst He]. split; [by eapply steady_phased|].
    by rewrite He.
Qed.

Lemma advances_gets_state {B} (k : State -> M B) :
  (forall s, advancesFrom (fun w => state w = s) (k s)) ->
  advances (bind (gets state) k).
Proof. intros Hk w Hw. by apply (Hk (state w) w). Qed.

Ltac simpl_setters :=
  cbn [set_state set_socketDestroyed set_toc set_workQueue set_currentWorkItem
       set_resultCheckCounter set_cleanupHandler set_nextOpId
       set_replicatorStarted set_items set_database set_subscribed set_pending
       set_log over_toc over_workQueue over_resultCheckCounter over_nextOpId
       over_items over_log over_entries] in *.

Ltac phase_solve :=
  unfold phased, ofLockedPhase in *; simpl_setters; simpl_fields;
  rewrite ?locks_app, ?unlocks_app; cbn [locks unlocks rank Nat.add];
  repeat split; try lia; try done; try tauto;
  try (intros [?|?]; discriminate);
  try (let H := fresh in
       intros H;
       repeat match goal with Hs : _ = true -> _ |- _ => specialize (Hs H) end;
       lia).

(** [doneBackgroundSynchronizing] takes the lock, once. *)
Lemma advancesFrom_doneBackgroundSynchronizing :
  advancesFrom (fun w => state w = BACKGROUND_SYNCHRONIZING)
    doneBackgroundSynchronizing.
Proof.
  intros w Hw Hs. destruct_world w. simpl_fields. subst st.
  unfold doneBackgroundSynchronizing.
  destruct Hw as [Hsub (Hl & Hu & Hp)]. simpl_fields.
  destruct (bool_decide (q = [])) eqn:Hq, (bool_decide (cur = None)) eqn:Hcur, ath;
    repeat progress (mrun; rewrite ?Hq, ?Hcur); phase_solve.
Qed.

(** [doneLockedSynchronizing] pings the slave and waits. *)
Lemma advancesFrom_doneLockedSynchronizing :
  advancesFrom (fun w => state w = LOCKED_SYNCHRONIZING) doneLockedSynchronizing.
Proof.
  intros w Hw Hs. destruct_world w. simpl_fields. subst st.
  unfold doneLockedSynchronizing.
  destruct Hw as [Hsub (Hl & Hu)]. simpl_fields.
  destruct (bool_decide (q = [])) eqn:Hq, (bool_decide (cur = None)) eqn:Hcur, ath;
    repeat progress (mrun; rewrite ?Hq, ?Hcur); phase_solve.
Qed.

Ltac advances_step :=
  lazymatch goal with
  | |- advances (bind _ _) => apply advances_bind; [|intros ?]
  | |- advances (when ?b _) => destruct b; cbn [when]
  | |- advances (if ?b then _ else _) => destruct b
  | |- advances (match ?x with _ => _ end) => destruct x
  | |- advances _ =>
      first [ assumption
            | solve [auto with phase]
            | solve [ apply keepsPhase_advances;
                      repeat first [ apply keepsPhase_writeJSON; not_locked_phase
                                   | apply keepsPhase_write; not_locked_phase
                                   | keepsPhase_step ] ] ]
  end.

Ltac advances_auto := repeat advances_step.

Section WithNext.
Variable next : M unit.
Hypothesis advances_next : advances next.

Lemma advances_pruneNextTimestamp d dsts : advances (pruneNextTimestamp next d dsts).
Proof. unfold pruneNextTimestamp. destruct (pop dsts) as [[dst|] rest]; advances_auto. Qed.

Lemma advances_pruneAll d : advances (pruneAll next d).
Proof.
  pose proof advances_pruneNextTimestamp. unfold pruneAll. advances_auto.
Qed.

Lemma advances_receivedReplyForRemoveOneCommand status d dsts :
  advances (receivedReplyForRemoveOneCommand next status d dsts).
Proof.
  pose proof advances_pruneNextTimestamp.
  unfold receivedReplyForRemoveOneCommand. advances_auto.
Qed.

Lemma advances_receivedReplyForRemoveCommand status d :
  advances (receivedReplyForRemoveCommand next status d).
Proof. unfold receivedReplyForRemoveCommand. advances_auto. Qed.

Lemma advances_written d : advances (written next d).
Proof. unfold written. advances_auto. Qed.

Lemma advances_visitRecord err record d : advances (visitRecord next err record d).
Proof. unfold visitRecord. advances_auto. Qed.

Lemma advances_dataFileFullyStreamed status d :
  advances (dataFileFullyStreamed next status d).
Proof. unfold dataFileFullyStreamed. advances_auto. Qed.

Lemma advances_handleCheckResult status d : advances (handleCheckResult next status d).
Proof. unfold handleCheckResult. advances_auto. Qed.

End WithNext.

Lemma advances_readJsonObjectCallback command r (k : string -> M unit) :
  (forall status, advances (k status)) ->
  advances (readJsonObjectCallback command r k).
Proof. intros Hk. unfold readJsonObjectCallback. advances_auto. Qed.

#[local] Hint Resolve advances_pruneNextTimestamp advances_pruneAll
  advances_receivedReplyForRemoveOneCommand advances_receivedReplyForRemoveCommand
  advances_written advances_visitRecord advances_dataFileFullyStreamed
  advances_handleCheckResult : phase.

Lemma advances_processNext (fuel : nat) : advances (processNext fuel).
Proof.
  induction fuel as [|fuel IH]; cbn [processNext].
  { apply keepsPhase_advances, keepsPhase_outOfFuel. }
  apply advances_bind; [apply keepsPhase_advances, keepsPhase_gets|intros c].
  destruct (negb c); [apply keepsPhase_advances, keepsPhase_ret|].
  apply advances_bind; [apply keepsPhase_advances, keepsPhase_gets|intros q].
  destruct q as [|d rest].
  - apply advances_gets_state. intros s.
    apply advancesFrom_bind; [apply keepsState_gets|intros started].
    destruct (bool_decide (s = BACKGROUND_SYNCHRONIZING)) eqn:Hbg.
    { apply bool_decide_eq_true in Hbg as ->.
      apply advancesFrom_bind; [apply keepsState_console_assert|intros _].
      apply advancesFrom_bind; [apply keepsState_set_currentWorkItem|intros _].
      apply advancesFrom_bind; [apply keepsState_schedule|intros _].
      apply advancesFrom_bind; [apply keepsState_gets|intros q'].
      destruct (bool_decide (q' <> [])).
      - by apply advances_advancesFrom.
      - apply advancesFrom_doneBackgroundSynchronizing. }
    destruct (bool_decide (s = LOCKED_SYNCHRONIZING)) eqn:Hl.
    { apply bool_decide_eq_true in Hl as ->.
      apply advancesFrom_bind; [apply keepsState_console_assert|intros _].
      apply advancesFrom_bind; [apply keepsState_set_currentWorkItem|intros _].
      apply advancesFrom_bind; [apply keepsState_schedule|intros _].
      apply advancesFrom_bind; [apply keepsState_gets|intros q'].
      apply advancesFrom_bind; [apply keepsState_console_assert|intros _].
      apply advancesFrom_doneLockedSynchronizing. }
    apply advances_advancesFrom, keepsPhase_advances. keepsPhase_auto.
  - pose proof (advances_pruneAll (processNext fuel) IH).
    advances_auto.
Qed.

Lemma advances_processNextReplicationCommand : advances processNextReplicationCommand.
Proof. intros w Hw. by apply advances_processNext. Qed.
#[local] Hint Resolve advances_processNext advances_processNextReplicationCommand
  : phase.

Lemma advances_databaseLocked : advances databaseLocked.
Proof. unfold databaseLocked. advances_auto. Qed.

(** The reply to the ping ends the locked phase: the database is
    unlocked, once. *)
Lemma advancesFrom_ping (r : JsonResult) :
  advancesFrom (fun w => locks (log w) = 1%nat /\ unlocks (log w) = 0%nat
                         /\ pending w = None
                         /\ (state w = LOCKED_SYNCHRONIZING \/ state w = DISCONNECTED))
    (readJsonObjectCallback "ping" r (fun _ => receivedReplyForPing)).
Proof.
  intros w Hw (Hl & Hu & Hp & Hs). destruct_world w. simpl_fields. subst p.
  unfold readJsonObjectCallback, receivedReplyForPing, _disconnectWithError,
    _disconnect.
  destruct Hw as [Hsub Hw]. simpl_fields.
  destruct Hs as [-> | ->], r as [[]| |status], sd; mstep; phase_solve.
Qed.

Lemma keepsPhase_clear_pending : keepsPhase (modify (set_pending None)).
Proof. apply keepsPhase_modify. steady_setter. Qed.
#[local] Hint Resolve keepsPhase_clear_pending advances_databaseLocked : phase.

Lemma advances_handle (ev : Event) : advances (handle ev).
Proof.
  intros w Hw. unfold handle. cbv zeta. rewrite bind_gets.
  destruct (pending w) as [k|] eqn:Hp.
  2:{ destruct ev;
        match goal with |- match ?m w with _ => _ end =>
          let H := fresh in
          assert (H : advances m); [|exact (H w Hw)]
        end;
        advances_auto. }
  destruct ev as [|err|r|err|err record| |te g dst bufs done|g dst| | |db], k;
    try solve
      [ match goal with |- match ?m w with _ => _ end =>
          let H := fresh in
          assert (H : advances m); [|exact (H w Hw)]
        end;
        repeat first [ apply advances_readJsonObjectCallback; intros ?
                     | advances_step ] ].
  unfold bind at 1, modify at 1.
  assert (H1 : phased (set_pending None w)).
  { eapply steady_phased; [exact Hw|]. apply keepsPhase_clear_pending. }
  assert (Hfacts : locks (log w) = 1%nat /\ unlocks (log w) = 0%nat
                   /\ (state w = LOCKED_SYNCHRONIZING \/ state w = DISCONNECTED)).
  { destruct Hw as [_ Hw]. rewrite Hp in Hw. unfold ofLockedPhase in Hw.
    destruct (state w); try done.
    - destruct Hw as (_ & _ & Hno). exfalso. apply Hno. by right.
    - destruct Hw as (-> & ->). auto.
    - destruct Hw as (_ & _ & Hno). exfalso. apply Hno. by right.
    - destruct Hw as (_ & Hw). destruct Hw as [-> ->]; [by right|]. auto. }
  pose proof (advancesFrom_ping r (set_pending None w) H1) as Hping.
  assert (Hsame : state (set_pending None w) = state w
                  /\ log (set_pending None w) = log w
                  /\ pending (set_pending None w) = None)
    by (by destruct_world w).
  destruct Hsame as (Hs & Hl & Hn).
  destruct Hfacts as (Hf1 & Hf2 & Hf3).
  assert (Hpre : locks (log (set_pending None w)) = 1%nat
                 /\ unlocks (log (set_pending None w)) = 0%nat
                 /\ pending (set_pending None w) = None
                 /\ (state (set_pending None w) = LOCKED_SYNCHRONIZING
                     \/ state (set_pending None w) = DISCONNECTED))
    by (by rewrite Hs, Hl, Hn).
  specialize (Hping Hpre). rewrite Hs in Hping.
  by destruct (readJsonObjectCallback _ _ _ _) as [a w'|e w'|].
Qed.

Lemma advances_step (w : World) (ev : Event) :
  phased w -> phased (step w ev) /\ (rank (state w) <= rank (state (step w ev)))%nat.
Proof.
  intros Hw. unfold step. pose proof (advances_handle ev w Hw) as H.
  destruct (handle ev w) as [a w'|e w'|]; [done| |by split].
  destruct H as [Hw' Hr].
  assert (Hs : steady w' (over_log (fun l => l ++ [Uncaught e]) w')).
  { apply (keepsPhase_emit (Uncaught e)); discriminate. }
  split; [by eapply steady_phased|].
  apply steady_rank in Hs. lia.
Qed.

Lemma advances_run (evs : list Event) : forall w : World,
  phased w -> phased (run w evs) /\ (rank (state w) <= rank (state (run w evs)))%nat.
Proof.
  induction evs as [|ev evs IH]; intros w Hw; [by split|].
  cbn [run foldl]. destruct (advances_step w ev Hw) as [Hw1 Hr1].
  destruct (IH _ Hw1) as [Hw2 Hr2]. split; [done|]. unfold run in Hr2. lia.
Qed.

Lemma phased_start threshold throws db t :
  phased (_continueReplication threshold throws db t).
Proof.
  unfold _continueReplication.
  assert (H0 : phased (newSession threshold throws db t)).
  { unfold newSession. phase_solve. }
  assert (Hadv : advances (scheduleSlaveSynchronizationCommands;;
                           processNextReplicationCommand)%js) by advances_auto.
  specialize (Hadv _ H0).
  destruct ((_ ;; _)%js _) as [a w'|e w'|]; [by destruct Hadv| |done].
  destruct Hadv as [Hw' _].
  eapply steady_phased; [exact Hw'|].
  apply (keepsPhase_emit (Uncaught e)); discriminate.
Qed.

(** X21.  The phases of a session and the lock of the database,
    whatever happens: the state only moves forward, from
    [BACKGROUND_SYNCHRONIZING] to [LOCKED_SYNCHRONIZING] to [READY], or to
    [DISCONNECTED]; the database is locked at most once and unlocked at
    most once, the unlock after the lock; it is not locked in the
    background phase, locked and not yet unlocked in the locked phase, and
    unlocked when the session is [READY]; and the session listens to the
    events of the database only once it has unlocked it. *)
Theorem database_is_locked_once (threshold : Z) (throws : bool) (db : Database)
    (t : Toc) (evs more : list Event) :
  let w := run (_continueReplication threshold throws db t) evs in
  let nl := locks (log w) in
  let nu := unlocks (log w) in
  (nu <= nl <= 1)%nat
  /\ state w <> UNINITIALIZED
  /\ (state w = BACKGROUND_SYNCHRONIZING -> nl = 0%nat)
  /\ (state w = LOCKED_SYNCHRONIZING -> nl = 1%nat /\ nu = 0%nat)
  /\ (state w = READY -> nl = 1%nat /\ nu = 1%nat)
  /\ (subscribed w = true -> nu = 1%nat)
  /\ (rank (state w) <= rank (state (run w more)))%nat.
Proof.
  cbv zeta.
  destruct (advances_run evs _ (phased_start threshold throws db t)) as [Hw _].
  destruct (advances_run more _ Hw) as [_ Hr].
  split; [|split; [|split; [|split; [|split; [|split]]]]]; try done.
  - destruct Hw as [_ Hw]. destruct (state _); try done.
    + destruct Hw as (-> & -> & _). lia.
    + destruct Hw as (-> & ->). lia.
    + destruct Hw as (-> & -> & _). lia.
    + by destruct Hw.
  - destruct Hw as [_ Hw]. intros Hs. by rewrite Hs in Hw.
  - destruct Hw as [_ Hw]. intros Hs. rewrite Hs in Hw. by destruct Hw.
  - destruct Hw as [_ Hw]. intros Hs. by rewrite Hs in Hw.
  - destruct Hw as [_ Hw]. intros Hs. rewrite Hs in Hw. by destruct Hw as (? & ? & _).
  - by destruct Hw.
Qed.

(** ** The callbacks of the database *)

Lemma invoked_app (cb : cbRef) (l1 l2 : list Effect) :
  invoked cb (l1 ++ l2) = (invoked cb l1 + invoked cb l2)%nat.
Proof.
  induction l1 as [|e l1 IH]; [done|]. destruct e; cbn; rewrite ?IH; lia.
Qed.

Lemma owed_app (cb : cbRef) (l1 l2 : list WorkItem) :
  owed cb (l1 ++ l2) = (owed cb l1 + owed cb l2)%nat.
Proof. induction l1 as [|it l1 IH]; [done|]. cbn. rewrite IH. lia. Qed.

Lemma owes_owing (cb : cbRef) (it : WorkItem) : owes cb it = true -> owing it.
Proof.
  unfold owes, owing. intros [Hc Hcb%bool_decide_eq_true]%andb_true_iff.
  split; [by destruct (cleaned it)|by rewrite Hcb].
Qed.

Lemma owed_none (cb : cbRef) (its : list WorkItem) :
  Forall (fun it => ~ owing it) its -> owed cb its = 0%nat.
Proof.
  induction 1 as [|it its Hit _ IH]; [done|]. cbn. rewrite IH.
  destruct (owes cb it) eqn:Ho; [|done]. by apply owes_owing in Ho.
Qed.

(** The calls owed when the item [d] changes. *)
Lemma owed_alter (cb : cbRef) (f : WorkItem -> WorkItem) (d : itemRef) :
  forall (its : list WorkItem) (it : WorkItem),
  its !! d = Some it ->
  (owed cb (alter f d its) + (if owes cb it then 1 else 0)
   = owed cb its + (if owes cb (f it) then 1 else 0))%nat.
Proof.
  induction d as [|d IH]; intros [|x its] it Hit; try done.
  - injection Hit as ->. cbn. lia.
  - cbn in Hit. cbn. specialize (IH its it Hit).
    change (list_alter f d its) with (alter f d its). lia.
Qed.

Lemma alter_beyond {A} (f : A -> A) (d : nat) :
  forall l : list A, l !! d = None -> alter f d l = l.
Proof.
  induction d as [|d IH]; intros [|x l] Hl; try done.
  cbn in Hl. cbn. f_equal. by apply IH.
Qed.

Lemma owed_alter_same (cb : cbRef) (f : WorkItem -> WorkItem) (d : itemRef)
    (its : list WorkItem) :
  (forall it, owes cb (f it) = owes cb it) ->
  owed cb (alter f d its) = owed cb its.
Proof.
  intros Hf. destruct (its !! d) as [it|] eqn:Hit.
  - pose proof (owed_alter cb f d its it Hit) as H. rewrite Hf in H. lia.
  - by rewrite alter_beyond.
Qed.

Lemma itemStep_refl (it : WorkItem) : itemStep it it.
Proof. by repeat split. Qed.

Lemma itemStep_trans (a b c : WorkItem) : itemStep a b -> itemStep b c -> itemStep a c.
Proof.
  intros (H1 & H2 & H3) (H4 & H5 & H6). repeat split; [congruence|auto|auto].
Qed.

Lemma itemSteps_refl (its : list WorkItem) : Forall2 itemStep its its.
Proof. apply Forall_Forall2_diag, Forall_forall. intros. apply itemStep_refl. Qed.

Lemma itemSteps_trans (a b c : list WorkItem) :
  Forall2 itemStep a b -> Forall2 itemStep b c -> Forall2 itemStep a c.
Proof.
  intros Hab. revert c. induction Hab as [|x y a b Hxy _ IH]; intros c Hbc.
  - by inversion Hbc.
  - inversion Hbc as [|? z ? c' Hyz Hbc']; subst. constructor.
    + by eapply itemStep_trans.
    + by apply IH.
Qed.

Lemma itemSteps_wf (its its' : list WorkItem) :
  Forall2 itemStep its its' -> Forall wfItem its -> Forall wfItem its'.
Proof.
  induction 1 as [|x y a b (_ & _ & Hwf) _ IH]; [done|].
  intros [Hx Ha]%Forall_cons. constructor; auto.
Qed.

(** The item behind a reference, across such steps: what owes a callback
    afterwards owed it before. *)
Lemma itemSteps_owing (its its' : list WorkItem) (c : itemRef) :
  Forall2 itemStep its its' -> owing (its' !!! c) -> owing (its !!! c).
Proof.
  intros Hsteps. pose proof (Forall2_length _ _ _ Hsteps) as Hlen.
  destruct (its !! c) as [it|] eqn:Hit.
  - destruct (Forall2_lookup_l _ _ _ _ _ Hsteps Hit) as (it' & Hit' & Hcb & Hcl & _).
    rewrite (list_lookup_total_correct _ _ _ Hit),
      (list_lookup_total_correct _ _ _ Hit').
    intros [Hc Hs]. split; [|by rewrite <- Hcb].
    destruct (cleaned it); [|done]. by rewrite Hcl in Hc.
  - assert (Hit' : its' !! c = None).
    { apply lookup_ge_None. apply lookup_ge_None in Hit. lia. }
    by rewrite !list_lookup_total_alt, Hit, Hit'.
Qed.

Lemma itemSteps_owing_lookup (its its' : list WorkItem) (d : itemRef) (it' : WorkItem) :
  Forall2 itemStep its its' -> its' !! d = Some it' -> owing it' ->
  exists it, its !! d = Some it /\ owing it.
Proof.
  intros Hsteps Hit' Ho.
  destruct (Forall2_lookup_r _ _ _ _ _ Hsteps Hit') as (it & Hit & _).
  exists it. split; [done|].
  pose proof (itemSteps_owing its its' d Hsteps) as H.
  rewrite (list_lookup_total_correct _ _ _ Hit),
    (list_lookup_total_correct _ _ _ Hit') in H. auto.
Qed.

Lemma gentle_refl r (w : World) : gentle r w w.
Proof. unfold gentle. split_and!; auto using itemSteps_refl. Qed.

Lemma gentle_trans r (w1 w2 w3 : World) :
  gentle r w1 w2 -> gentle r w2 w3 -> gentle r w1 w3.
Proof.
  intros (Hq1 & Hc1 & Hs1 & Hm1 & Hi1 & Hb1 & Hp1)
         (Hq2 & Hc2 & Hs2 & Hm2 & Hi2 & Hb2 & Hp2).
  split; [congruence|]. split; [congruence|]. split; [congruence|].
  split; [auto|]. split; [by eapply itemSteps_trans|]. split.
  - intros Hwf cb. rewrite Hb2, Hb1; [done|done|by eapply itemSteps_wf].
  - destruct Hp2 as [Hp2|Hp2]; [|by right].
    destruct Hp1 as [Hp1|Hp1]; [left; congruence|right; by rewrite Hp2].
Qed.

Lemma gentle_weaken r (w w' : World) : gentle None w w' -> gentle r w w'.
Proof.
  intros (Hq & Hc & Hs & Hm & Hi & Hb & Hp). unfold gentle. split_and!; auto.
  destruct Hp as [Hp|(k & _ & Hk)]; [by left|done].
Qed.

Lemma gentle_heldItems r (w w' : World) : gentle r w w' -> heldItems w' = heldItems w.
Proof. intros (Hq & Hc & _). unfold heldItems. by rewrite Hq, Hc. Qed.

Lemma gentle_core n r (w w' : World) : core n w -> gentle r w w' -> core n w'.
Proof.
  intros (Hwf & Hv & Hh & Hb) Hg.
  pose proof (gentle_heldItems _ _ _ Hg) as Hheld.
  destruct Hg as (Hq & Hc & Hs & Hm & Hi & Hbal & Hp).
  split; [by eapply itemSteps_wf|]. split; [|split].
  - intros d Hd. rewrite Hheld in Hd. rewrite <- (Forall2_length _ _ _ Hi). auto.
  - intros d it' Hit' Ho. rewrite Hheld.
    destruct (itemSteps_owing_lookup _ _ _ _ Hi Hit' Ho) as (it & Hit & Ho').
    by eapply Hh.
  - intros cb. rewrite Hbal by done. apply Hb.
Qed.

Lemma gentle_settled r o (w w' : World) :
  currentSettled o w -> gentle r w w' -> currentSettled o w'.
Proof.
  intros Hset (Hq & Hc & Hs & Hm & Hi & Hbal & Hp) c Hcur. rewrite Hc in Hcur.
  destruct (Hset c Hcur) as [?|Hno]; [by left|right].
  intros Ho. apply Hno. by eapply itemSteps_owing.
Qed.

Lemma gentle_flight n o r (w w' : World) :
  flight n o w -> gentle r w w' -> r = None \/ (is_Some o /\ r = Some o) ->
  flight n o w'.
Proof.
  intros (Hcore & Hset & Hst & Hpend) Hg Hr.
  split; [by eapply gentle_core|]. split; [by eapply gentle_settled|].
  destruct Hg as (Hq & Hc & Hs & Hm & Hi & Hbal & Hp). split.
  - intros Hmay. rewrite Hs. auto.
  - intros k Hk. destruct Hp as [Hp|(k' & Hk' & Hreg)].
    + rewrite Hp in Hk. auto.
    + rewrite Hk' in Hk. injection Hk as ->.
      destruct Hr as [->|[Ho ->]]; [done|]. injection Hreg as ->. by split.
Qed.

Lemma gentle_aloft n o (w w' : World) :
  aloft n o w -> gentle None w w' -> aloft n o w'.
Proof.
  intros [Hf Hp] Hg. split; [eapply gentle_flight; eauto|].
  destruct Hg as (_ & _ & _ & _ & _ & _ & [Hp'|(k & _ & Hk)]); [congruence|done].
Qed.

Lemma flight_tidy n o (w : World) : flight n o w -> tidy n w.
Proof.
  intros (Hcore & Hset & Hst & Hpend). split; [done|]. split.
  - intros k Hk. destruct (Hpend k Hk) as [_ ->]. done.
  - intros Hmay Hns. rewrite Hst in Hns by done. done.
Qed.

Lemma gentle_tidy n (w w' : World) : tidy n w -> gentle None w w' -> tidy n w'.
Proof.
  intros [Hcore [Hd1 Hd2]] Hg. split; [by eapply gentle_core|].
  pose proof Hg as (Hq & Hc & Hs & Hm & Hi & Hbal & Hp).
  assert (Hpend : pending w' = pending w).
  { destruct Hp as [Hp|(k & _ & Hk)]; [done|done]. }
  split.
  - intros k Hk. rewrite Hpend in Hk. eapply gentle_settled; eauto.
  - intros Hmay Hns. rewrite Hs in Hns. destruct (Hd2 (Hm Hmay) Hns) as [Hp0 Hset].
    split; [congruence|]. eapply gentle_settled; eauto.
Qed.

(** A handler that works for no item may leave a callback that works for
    none. *)
Lemma gentle_landed n (w w' : World) :
  flight n None w -> gentle (Some None) w w' -> tidy n w'.
Proof.
  intros (Hcore & Hset & Hst & Hpend) Hg. split; [by eapply gentle_core|].
  pose proof Hg as (Hq & Hc & Hs & Hm & Hi & Hbal & Hp).
  split.
  - intros k Hk. destruct Hp as [Hp|(k' & Hk' & Hreg)].
    + rewrite Hp in Hk. by destruct (Hpend k Hk) as [[? ?] _].
    + rewrite Hk' in Hk. injection Hk as ->. injection Hreg as <-.
      eapply gentle_settled; eauto.
  - intros Hmay Hns. rewrite Hs, Hst in Hns by auto. done.
Qed.

Lemma tidy_ext n n' (w : World) : (forall cb, n' cb = n cb) -> tidy n w -> tidy n' w.
Proof.
  intros Hn [(Hwf & Hv & Hh & Hb) Hd]. split; [|done].
  unfold core. split_and!; auto. intros cb. by rewrite Hn.
Qed.

(** *** Steps that do not disturb the books *)

Lemma mild_ret {A} r (a : A) : mild r (ret a).
Proof. intros w. apply gentle_refl. Qed.

Lemma mild_gets {A} r (f : World -> A) : mild r (gets f).
Proof. intros w. apply gentle_refl. Qed.

Lemma mild_throw {A} r (e : Exn) : mild r (@throw A e).
Proof. intros w. apply gentle_refl. Qed.

Lemma mild_outOfFuel {A} r : mild r (@outOfFuel A).
Proof. by intros w. Qed.

Lemma mild_bind {A B} r (m : M A) (k : A -> M B) :
  mild r m -> (forall a, mild r (k a)) -> mild r (bind m k).
Proof.
  intros Hm Hk w. unfold bind. specialize (Hm w).
  destruct (m w) as [a w1|e w1|]; [|done|done].
  specialize (Hk a w1).
  destruct (k a w1) as [b w2|e w2|]; [| |done]; by eapply gentle_trans.
Qed.

Lemma mild_modify r (f : World -> World) :
  (forall w, gentle r w (f w)) -> mild r (modify f).
Proof. intros Hf w. apply Hf. Qed.

Lemma mild_forEach {A} r (l : list A) (body : A -> M unit) :
  (forall x, mild r (body x)) -> mild r (forEach l body).
Proof.
  intros Hb. induction l as [|x l IH]; cbn [forEach].
  - apply mild_ret.
  - apply mild_bind; [apply Hb|intros _; apply IH].
Qed.

Lemma mild_emit r (e : Effect) : (forall cb, e <> Invoke cb) -> mild r (emit e).
Proof.
  intros He w. destruct_world w. unfold emit, modify. cbn [over_log].
  unfold gentle. split_and!; auto using itemSteps_refl. simpl_fields.
  intros _ cb. rewrite invoked_app.
  assert (invoked cb [e] = 0%nat) as ->; [|lia].
  destruct e; try done. by destruct (He cb0).
Qed.

(** A change of a work item that keeps its callback, its mark and its
    time entry. *)
Lemma mild_updateItem r (d : itemRef) (f : WorkItem -> WorkItem) :
  (forall it, itemStep it (f it) /\ cleaned (f it) = cleaned it) ->
  mild r (updateItem d f).
Proof.
  intros Hf w. destruct_world w. unfold updateItem, modify. cbn [over_items].
  unfold gentle. split_and!; auto; simpl_fields.
  - apply Forall2_alter_r; [apply itemSteps_refl|].
    intros x y _ _ Hxy. eapply itemStep_trans; [exact Hxy|apply Hf].
  - intros _ cb. f_equal. apply owed_alter_same. intros it.
    destruct (Hf it) as [(Hcb & _ & _) Hcl]. unfold owes. by rewrite Hcb, Hcl.
Qed.

Create HintDb callbacks.

Ltac gentle_setter :=
  let w := fresh "w" in
  intros w; destruct_world w; unfold gentle; cbn;
  split_and!; auto using itemSteps_refl;
  try (unfold mayStart; cbn; tauto);
  try (left; reflexivity);
  try (right; eexists; split; reflexivity).

Lemma mild_writeJSON r m k :
  match k with Some c => r = Some (claims c) | None => True end ->
  mild r (_writeJSON m k).
Proof.
  intros Hk. unfold _writeJSON.
  apply mild_bind; [apply mild_emit; discriminate|intros _].
  destruct k as [k|]; [|apply mild_ret]. subst r.
  apply mild_modify. gentle_setter.
Qed.

Lemma mild_write r buf k :
  match k with Some c => r = Some (claims c) | None => True end ->
  mild r (_write buf k).
Proof.
  intros Hk. unfold _write.
  apply mild_bind; [apply mild_emit; discriminate|intros _].
  destruct k as [k|]; [|apply mild_ret]. subst r.
  apply mild_modify. gentle_setter.
Qed.

Ltac registers :=
  first [ done
        | reflexivity
        | match goal with
          | |- context [if ?b then _ else _] => destruct b; first [done|reflexivity]
          end ].

Ltac mild_step :=
  lazymatch goal with
  | |- mild _ (bind _ _) => apply mild_bind; [|intros ?]
  | |- mild _ (ret _) => apply mild_ret
  | |- mild _ skip => apply mild_ret
  | |- mild _ (gets _) => apply mild_gets
  | |- mild _ (getItem _) => apply mild_gets
  | |- mild _ (getTimeEntry _) => apply mild_gets
  | |- mild _ connected => apply mild_gets
  | |- mild _ (throw _) => apply mild_throw
  | |- mild _ (emit _) => apply mild_emit; discriminate
  | |- mild _ (updateItem _ _) =>
      apply mild_updateItem; intros [];
      repeat split; cbn; auto; unfold wfItem; cbn; try done
  | |- mild _ (modify _) => apply mild_modify; gentle_setter
  | |- mild _ (decReadOperations _) => apply mild_modify; gentle_setter
  | |- mild _ (incReadOperations _) => apply mild_modify; gentle_setter
  | |- mild _ (_readJsonObject _) => apply mild_modify; gentle_setter
  | |- mild _ (_writeJSON _ _) => apply mild_writeJSON; registers
  | |- mild _ (_write _ _) => apply mild_write; registers
  | |- mild _ (when ?b _) => destruct b; cbn [when]
  | |- mild _ (forEach _ _) => apply mild_forEach; intros ?
  | |- mild _ (if ?b then _ else _) => destruct b
  | |- mild _ (match ?x with _ => _ end) => destruct x
  | |- mild _ _ => solve [auto with callbacks]
  end.

Ltac mild_auto := repeat mild_step.

Lemma mild_console_assert r b what : mild r (console_assert b what).
Proof. unfold console_assert. mild_auto. Qed.
Lemma mild_readMirrorSize r d : mild r (readMirrorSize d).
Proof. unfold readMirrorSize. mild_auto. Qed.
Lemma mild_writeMirrorSize r d f : mild r (writeMirrorSize d f).
Proof. unfold writeMirrorSize. mild_auto. Qed.
Lemma mild_disconnect r : mild r _disconnect.
Proof. unfold _disconnect. mild_auto. Qed.
Lemma mild_disconnectWithError r msg : mild r (_disconnectWithError msg).
Proof. unfold _disconnectWithError. mild_auto. Qed.
#[local] Hint Resolve mild_console_assert mild_readMirrorSize mild_writeMirrorSize
  mild_disconnect mild_disconnectWithError : callbacks.

(** [cleanupWorkItem] settles the books of its item: the call it makes is
    the call the item owed. *)
Lemma cleaned_balance (cb : cbRef) (its : list WorkItem) (d : itemRef)
    (l : list Effect) :
  cleaned (its !!! d) = false ->
  (invoked cb (l ++ match callback (its !!! d) with
                    | Some c => [Invoke c]
                    | None => []
                    end)
   + owed cb (alter (set_cleaned true) d its)
   = invoked cb l + owed cb its)%nat.
Proof.
  intros Hcl. rewrite invoked_app.
  destruct (its !! d) as [it|] eqn:Hit.
  - rewrite (list_lookup_total_correct _ _ _ Hit) in *.
    pose proof (owed_alter cb (set_cleaned true) d its it Hit) as H.
    assert (Hafter : owes cb (set_cleaned true it) = false) by (by destruct it).
    rewrite Hafter in H. unfold owes in H. rewrite Hcl in H. cbn [negb andb] in H.
    destruct (callback it) as [c|]; cbn [invoked].
    + destruct (decide (c = cb)) as [->|Hne].
      * rewrite !bool_decide_eq_true_2 in * by done. lia.
      * rewrite (bool_decide_eq_false_2 (c = cb)) by done.
        rewrite (bool_decide_eq_false_2 (Some c = Some cb)) in H by congruence. lia.
    + rewrite (bool_decide_eq_false_2 (None = Some cb)) in H by done. lia.
  - rewrite alter_beyond by done.
    rewrite list_lookup_total_alt, Hit. cbn. lia.
Qed.

Lemma itemSteps_cleaned (its : list WorkItem) (d : itemRef) :
  Forall2 itemStep its (alter (set_cleaned true) d its).
Proof.
  apply Forall2_alter_r; [apply itemSteps_refl|].
  intros x y _ _ (Hcb & Hcl & Hwf). destruct y. repeat split; auto.
Qed.

Lemma not_owing_cleaned (its : list WorkItem) (d : itemRef) :
  ~ owing (alter (set_cleaned true) d its !!! d).
Proof.
  intros [Hcl Hcb]. destruct (its !! d) as [it|] eqn:Hit.
  - rewrite list_lookup_total_alter_eq in Hcl by (by eapply lookup_lt_Some).
    by destruct (its !!! d).
  - rewrite alter_beyond in Hcb by done.
    rewrite list_lookup_total_alt, Hit in Hcb. by destruct Hcb.
Qed.

Lemma wf_timeEntry (its : list WorkItem) (d : itemRef) :
  Forall wfItem its -> command (its !!! d) = Some FILL_COMMAND ->
  is_Some (timeEntry (its !!! d)).
Proof.
  intros Hwf Hf. destruct (its !! d) as [it|] eqn:Hit.
  - rewrite (list_lookup_total_correct _ _ _ Hit) in *.
    rewrite Forall_lookup in Hwf. by apply (Hwf d it).
  - by rewrite list_lookup_total_alt, Hit in Hf.
Qed.

Lemma mild_cleanupWorkItem r d : mild r (cleanupWorkItem d).
Proof.
  intros w. destruct_world w. unfold cleanupWorkItem. mrun.
  destruct (cleaned (its !!! d)) eqn:Hcl; mrun; [apply gentle_refl|].
  assert (Hbal : forall (es' : list TimeEntry) cb,
    (invoked cb (l ++ match callback (its !!! d) with
                      | Some c => [Invoke c]
                      | None => []
                      end)
     + owed cb (alter (set_cleaned true) d its)
     = invoked cb l + owed cb its)%nat).
  { intros _ cb. by apply cleaned_balance. }
  destruct (bool_decide (command (its !!! d) = Some FILL_COMMAND)) eqn:Hf; mrun.
  - apply bool_decide_eq_true in Hf.
    destruct (timeEntry (its !!! d)) as [te|] eqn:Hte; mrun.
    + destruct (callback (its !!! d)) as [c|]; mrun;
        unfold gentle; simpl_fields; split_and!; auto using itemSteps_cleaned;
        intros _ cb; specialize (Hbal es cb); by rewrite ?app_nil_r in Hbal.
    + unfold gentle; simpl_fields; split_and!; auto using itemSteps_cleaned.
      intros Hwf cb. pose proof (wf_timeEntry _ d Hwf Hf) as [te Hte'].
      congruence.
  - destruct (callback (its !!! d)) as [c|]; mrun;
      unfold gentle; simpl_fields; split_and!; auto using itemSteps_cleaned;
      intros _ cb; specialize (Hbal es cb); by rewrite ?app_nil_r in Hbal.
Qed.
#[local] Hint Resolve mild_cleanupWorkItem : callbacks.

(** With the books in order [cleanupWorkItem] does not throw, and its
    item owes nothing afterwards. *)
Lemma cleanupWorkItem_settles (d : itemRef) (w : World) :
  Forall wfItem (items w) ->
  exists w', cleanupWorkItem d w = Ok tt w' /\ gentle None w w'
             /\ ~ owing (items w' !!! d).
Proof.
  intros Hwf. pose proof (mild_cleanupWorkItem None d w) as Hg.
  destruct_world w. simpl_fields. unfold cleanupWorkItem in *. revert Hg. mrun.
  destruct (cleaned (its !!! d)) eqn:Hcl; mrun.
  { intros Hg. eexists. split; [done|]. split; [done|]. simpl_fields.
    intros [Hc _]. congruence. }
  destruct (bool_decide (command (its !!! d) = Some FILL_COMMAND)) eqn:Hf; mrun.
  - apply bool_decide_eq_true in Hf.
    destruct (wf_timeEntry _ d Hwf Hf) as [te Hte]. rewrite Hte. mrun.
    destruct (callback (its !!! d)) as [c|]; mrun; intros Hg;
      (eexists; split; [done|]; split; [done|]; simpl_fields;
       apply not_owing_cleaned).
  - destruct (callback (its !!! d)) as [c|]; mrun; intros Hg;
      (eexists; split; [done|]; split; [done|]; simpl_fields;
       apply not_owing_cleaned).
Qed.

Lemma forEach_cleanupWorkItem_settles (ds : list itemRef) : forall w : World,
  Forall wfItem (items w) ->
  exists w', forEach ds cleanupWorkItem w = Ok tt w' /\ gentle None w w'
             /\ forall d, d ∈ ds -> ~ owing (items w' !!! d).
Proof.
  induction ds as [|d ds IH]; intros w Hwf.
  - exists w. split; [done|]. split; [apply gentle_refl|].
    intros d Hd. by apply elem_of_nil in Hd.
  - destruct (cleanupWorkItem_settles d w Hwf) as (w1 & Hrun1 & Hg1 & Hd1).
    assert (Hwf1 : Forall wfItem (items w1)).
    { destruct Hg1 as (_ & _ & _ & _ & Hi & _). by eapply itemSteps_wf. }
    destruct (IH w1 Hwf1) as (w2 & Hrun2 & Hg2 & Hd2).
    exists w2. split; [|split].
    + cbn [forEach]. unfold bind. by rewrite Hrun1.
    + by eapply gentle_trans.
    + intros x [->|Hx]%elem_of_cons; [|by apply Hd2].
      intros Ho. apply Hd1.
      destruct Hg2 as (_ & _ & _ & _ & Hi & _). by eapply itemSteps_owing.
Qed.

(** *** Handlers *)

Lemma hoare_bind {A B} n (P R Q : World -> Prop) (m : M A) (k : A -> M B) :
  hoare n P m R -> (forall a, hoare n R (k a) Q) -> hoare n P (bind m k) Q.
Proof.
  intros Hm Hk w Hw. unfold bind. specialize (Hm w Hw).
  destruct (m w) as [a w1|e w1|]; [|done|done]. by apply Hk.
Qed.

Lemma hoare_weaken {A} n (P P' Q : World -> Prop) (m : M A) :
  (forall w, P' w -> P w) -> hoare n P m Q -> hoare n P' m Q.
Proof. intros HP Hm w Hw. apply Hm. auto. Qed.

Lemma hoare_gets {A B} n (P Q : World -> Prop) (f : World -> A) (k : A -> M B) :
  (forall x, hoare n (fun w => P w /\ f w = x) (k x) Q) ->
  hoare n P (bind (gets f) k) Q.
Proof. intros Hk w Hw. unfold bind, gets. by apply (Hk (f w)). Qed.

(** A handler that ends by registering a callback for its item, or
    without one. *)
Lemma hoare_mild_end {A} n o (m : M A) :
  mild (Some o) m -> hoare n (aloft n o) m (tidy n).
Proof.
  intros Hm w [Hw Hp]. specialize (Hm w).
  assert (Hgo : forall w', gentle (Some o) w w' -> tidy n w').
  { intros w' Hg. destruct o as [d|].
    - eapply flight_tidy, gentle_flight; eauto.
    - by eapply gentle_landed. }
  destruct (m w) as [a w'|e w'|]; auto.
Qed.

Lemma hoare_mild_prefix {A B} n o (Q : World -> Prop) (m : M A) (k : A -> M B) :
  mild None m -> (forall a, hoare n (aloft n o) (k a) Q) ->
  hoare n (aloft n o) (bind m k) Q.
Proof.
  intros Hm Hk. apply (hoare_bind n _ (aloft n o)); [|done].
  intros w Hw. specialize (Hm w).
  destruct (m w) as [a w'|e w'|]; [by eapply gentle_aloft| |done].
  destruct (gentle_aloft _ _ _ _ Hw Hm) as [Hf _]. by eapply flight_tidy.
Qed.

Lemma hoare_mild_tidy {A} n (m : M A) : mild None m -> hoare n (tidy n) m (tidy n).
Proof.
  intros Hm w Hw. specialize (Hm w).
  destruct (m w) as [a w'|e w'|]; [| |done]; by eapply gentle_tidy.
Qed.

Lemma aloft_landed n d (w : World) :
  aloft n (Some d) w -> ~ owing (items w !!! d) -> aloft n None w.
Proof.
  intros [(Hcore & Hset & Hst & Hpend) Hp] Hd. split; [|done].
  split; [done|]. split; [|split; [done|]].
  - intros c Hc. right. destruct (Hset c Hc) as [Heq|?]; [|done].
    by injection Heq as <-.
  - intros k Hk. congruence.
Qed.

Lemma hoare_finish n d (next : M unit) :
  hoare n (aloft n None) next (tidy n) ->
  hoare n (aloft n (Some d)) (bind (cleanupWorkItem d) (fun _ => next)) (tidy n).
Proof.
  intros Hnext w Hw.
  assert (Hwf : Forall wfItem (items w)) by apply Hw.
  destruct (cleanupWorkItem_settles d w Hwf) as (w1 & Hrun & Hg & Hd).
  unfold bind. rewrite Hrun. apply Hnext.
  eapply aloft_landed; [by eapply gentle_aloft|done].
Qed.

(** *** The queue grows, the replicator moves on *)

(** New work items join the store and the queue. *)
Lemma core_grow n n' (w w' : World) (new : list WorkItem) :
  core n w -> Forall wfItem new ->
  items w' = items w ++ new ->
  workQueue w' = workQueue w ++ seq (List.length (items w)) (List.length new) ->
  currentWorkItem w' = currentWorkItem w ->
  (forall cb, invoked cb (log w') = invoked cb (log w)) ->
  (forall cb, n' cb = (n cb + owed cb new)%nat) ->
  core n' w'.
Proof.
  intros (Hwf & Hv & Hh & Hb) Hnew Hits Hq Hcur Hlog Hn.
  unfold core, heldItems in *. rewrite Hits, Hq, Hcur. split_and!.
  - by apply Forall_app.
  - intros d Hd. rewrite length_app.
    rewrite <- app_assoc in Hd. apply elem_of_app in Hd as [Hd|Hd].
    + assert (d < List.length (items w))%nat; [|lia].
      apply Hv. apply elem_of_app. by left.
    + apply elem_of_app in Hd as [Hd|Hd].
      * apply elem_of_seq in Hd. lia.
      * assert (d < List.length (items w))%nat; [|lia].
        apply Hv. apply elem_of_app. by right.
  - intros d it Hit Ho.
    destruct (decide (d < List.length (items w))%nat) as [Hlt|Hge].
    + rewrite lookup_app_l in Hit by done.
      specialize (Hh d it Hit Ho). rewrite <- app_assoc.
      apply elem_of_app in Hh as [Hd|Hd]; apply elem_of_app; [by left|right].
      apply elem_of_app. by right.
    + apply elem_of_app. left. apply elem_of_app. right.
      apply lookup_lt_Some in Hit. rewrite length_app in Hit.
      apply elem_of_seq. lia.
  - intros cb. rewrite Hlog, owed_app, Hn, <- Hb. lia.
Qed.

Lemma settled_grow n o (w w' : World) (new : list WorkItem) :
  core n w -> currentSettled o w ->
  items w' = items w ++ new -> currentWorkItem w' = currentWorkItem w ->
  currentSettled o w'.
Proof.
  intros (_ & Hv & _) Hset Hits Hcur c Hc. rewrite Hcur in Hc.
  destruct (Hset c Hc) as [?|Hno]; [by left|right].
  rewrite Hits, lookup_total_app_l; [done|].
  apply Hv. unfold heldItems. rewrite Hc. apply elem_of_app. right. by left.
Qed.

Lemma aloft_grow n (w w' : World) (new : list WorkItem) :
  aloft n None w -> Forall (fun it => wfItem it /\ ~ owing it) new ->
  items w' = items w ++ new ->
  workQueue w' = workQueue w ++ seq (List.length (items w)) (List.length new) ->
  currentWorkItem w' = currentWorkItem w ->
  (forall cb, invoked cb (log w') = invoked cb (log w)) ->
  state w' = state w -> replicatorStarted w' = replicatorStarted w ->
  pending w' = pending w ->
  aloft n None w'.
Proof.
  intros [(Hcore & Hset & Hst & Hpend) Hp] Hnew Hits Hq Hcur Hlog Hs Hrs Hpe.
  split; [|congruence]. split; [|split; [|split]].
  - apply (core_grow n n w w' new); try done.
    + eapply Forall_impl; [exact Hnew|]. by intros it [? _].
    + intros cb. rewrite owed_none; [lia|].
      eapply Forall_impl; [exact Hnew|]. by intros it [_ ?].
  - by eapply (settled_grow n None w w' new).
  - unfold mayStart. rewrite Hs, Hrs. apply Hst.
  - intros k Hk. congruence.
Qed.

Lemma tidy_grow n n' (w w' : World) (new : list WorkItem) :
  tidy n w -> Forall wfItem new ->
  items w' = items w ++ new ->
  workQueue w' = workQueue w ++ seq (List.length (items w)) (List.length new) ->
  currentWorkItem w' = currentWorkItem w ->
  (forall cb, invoked cb (log w') = invoked cb (log w)) ->
  state w' = state w -> replicatorStarted w' = replicatorStarted w ->
  pending w' = pending w ->
  (forall cb, n' cb = (n cb + owed cb new)%nat) ->
  tidy n' w'.
Proof.
  intros [Hcore [Hd1 Hd2]] Hnew Hits Hq Hcur Hlog Hs Hrs Hpe Hn.
  split; [by apply (core_grow n n' w w' new)|]. split.
  - intros k Hk. rewrite Hpe in Hk.
    apply (settled_grow n _ w w' new); auto.
  - unfold mayStart. rewrite Hs, Hrs, Hpe. intros Hmay Hns.
    destruct (Hd2 Hmay Hns) as [Hp0 Hset]. split; [done|].
    apply (settled_grow n _ w w' new); auto.
Qed.

(** The work items of the diff carry no callback, and each fill has its
    time entry. *)
Lemma scheduledItems_plain (db : Database) (t : Toc) :
  Forall (fun it => wfItem it /\ ~ owing it) (scheduledItems db t).
Proof.
  apply Forall_forall. intros it Hit%elem_of_scheduledItems.
  destruct Hit; unfold wfItem, owing; cbn;
    (split; [intros Hc; first [discriminate Hc|by eexists]
            |intros [_ [? Hcb]]; discriminate Hcb]).
Qed.

Lemma hoare_schedule n :
  hoare n (aloft n None) scheduleSlaveSynchronizationCommands (aloft n None).
Proof.
  intros w Hw. rewrite schedule_run.
  eapply (aloft_grow n w _ (scheduledItems (database w) (toc w)));
    [exact Hw|apply scheduledItems_plain|..]; by destruct_world w.
Qed.

(** [processNextReplicationCommand] takes the next work item: the one
    before it has been settled. *)
Lemma aloft_shift n d rest (w : World) :
  aloft n None w -> workQueue w = d :: rest ->
  aloft n (Some d) (set_currentWorkItem (Some d) (set_workQueue rest w)).
Proof.
  intros [((Hwf & Hv & Hh & Hb) & Hset & Hst & Hpend) Hp] Hq.
  destruct_world w. simpl_fields. subst q p. unfold heldItems in *. simpl_fields.
  split; [|done]. split; [|split; [|split]].
  - unfold core, heldItems. simpl_fields. split_and!; auto.
    + intros x Hx. apply Hv. apply elem_of_app. left.
      apply elem_of_app in Hx as [Hx|Hx]; [by right|].
      apply list_elem_of_singleton in Hx as ->. by left.
    + intros x it Hit Ho. specialize (Hh x it Hit Ho).
      apply elem_of_app in Hh as [Hx|Hx].
      * apply elem_of_cons in Hx as [->|Hx]; apply elem_of_app; [right|left; done].
        by left.
      * destruct cur as [c|]; [|by apply elem_of_nil in Hx].
        apply list_elem_of_singleton in Hx as ->.
        destruct (Hset c eq_refl) as [?|Hno]; [done|]. exfalso. apply Hno.
        by rewrite (list_lookup_total_correct _ _ _ Hit).
  - intros c Hc. left. by simpl_fields.
  - done.
  - intros k Hk. done.
Qed.

Lemma hoare_shift {A} n d rest (Q : World -> Prop) (m : M A) :
  hoare n (aloft n (Some d)) m Q ->
  hoare n (fun w => aloft n None w /\ workQueue w = d :: rest)
    (bind (modify (set_workQueue rest))
       (fun _ => bind (modify (set_currentWorkItem (Some d))) (fun _ => m))) Q.
Proof.
  intros Hm w [Hw Hq]. unfold bind, modify. apply Hm. by apply aloft_shift.
Qed.

Lemma aloft_clear_current n (w : World) :
  aloft n None w -> aloft n None (set_currentWorkItem None w).
Proof.
  intros [((Hwf & Hv & Hh & Hb) & Hset & Hst & Hpend) Hp].
  destruct_world w. simpl_fields. unfold heldItems in *. simpl_fields.
  split; [|done]. split; [|split; [|split]]; try done.
  unfold core, heldItems. simpl_fields. split_and!; auto.
  - intros x Hx. apply Hv. rewrite app_nil_r in Hx. apply elem_of_app. by left.
  - intros x it Hit Ho. specialize (Hh x it Hit Ho). rewrite app_nil_r.
    apply elem_of_app in Hh as [Hx|Hx]; [done|].
    destruct cur as [c|]; [|by apply elem_of_nil in Hx].
    apply list_elem_of_singleton in Hx as ->.
    destruct (Hset c eq_refl) as [?|Hno]; [done|]. exfalso. apply Hno.
    by rewrite (list_lookup_total_correct _ _ _ Hit).
Qed.

Lemma hoare_clear_current n :
  hoare n (aloft n None) (modify (set_currentWorkItem None)) (aloft n None).
Proof. intros w Hw. by apply aloft_clear_current. Qed.

(** The replicator comes to rest. *)
Lemma hoare_rest n :
  hoare n (aloft n None)
    (bind (modify (set_currentWorkItem None))
       (fun _ => modify (set_replicatorStarted false))) (tidy n).
Proof.
  intros w Hw%aloft_clear_current. unfold bind, modify.
  destruct Hw as [(Hcore & Hset & Hst & Hpend) Hp].
  destruct_world w. simpl_setters. simpl_fields. subst p.
  split; [done|]. split; [done|].
  intros _ _. split; [done|]. intros c Hc. done.
Qed.

(** The reply to the ping: the session becomes [READY] with the
    replicator at rest. *)
Lemma hoare_receivedReplyForPing n :
  hoare n (aloft n None) receivedReplyForPing (tidy n).
Proof.
  intros w [(Hcore & Hset & Hst & Hpend) Hp].
  destruct_world w. simpl_fields. subst p. unfold receivedReplyForPing. mrun.
  split.
  - destruct Hcore as (Hwf & Hv & Hh & Hb). unfold core, heldItems in *.
    simpl_fields. split_and!; auto. intros cb. rewrite invoked_app. cbn.
    rewrite <- Hb. lia.
  - split; [done|]. intros _ _. done.
Qed.

(** [startReplicator] *)
Lemma hoare_startReplicator n : hoare n (tidy n) startReplicator (tidy n).
Proof.
  intros w [Hcore [Hd1 Hd2]]. destruct_world w. simpl_fields.
  unfold startReplicator. mrun.
  destruct (negb rs && negb (bool_decide (st = BACKGROUND_SYNCHRONIZING))
            && negb (bool_decide (st = LOCKED_SYNCHRONIZING))
            && (negb (bool_decide (st = DISCONNECTED)) && negb sd)) eqn:Hgo; mrun.
  2:{ by split. }
  repeat (apply andb_true_iff in Hgo as [Hgo ?]).
  assert (Hmay : mayStart (mkWorld st sd th t q cur rc ch op rs its
                             (mkDatabase grps es calc) sub ath p l)).
  { unfold mayStart. simpl_fields.
    split_and!; intros ->; by rewrite bool_decide_eq_true_2 in *. }
  destruct rs; [done|]. destruct (Hd2 Hmay eq_refl) as [-> Hset]. simpl_fields.
  split.
  - destruct Hcore as (Hwf & Hv & Hh & Hb). unfold core, heldItems in *.
    simpl_fields. split_and!; auto. intros cb. rewrite invoked_app. cbn.
    rewrite <- Hb. lia.
  - split; [|done]. intros k Hk. injection Hk as <-. exact Hset.
Qed.

(** [addToWorkQueue]: the callback is owed by the last work item that
    joins the queue. *)
Lemma tidy_addToWorkQueue n n' (item : WorkItem) (cb : option cbRef) (w : World) :
  tidy n w -> wfItem item -> callback item = None -> cleaned item = false ->
  (forall c, n' c = (n c + match cb with
                           | Some done => if bool_decide (done = c) then 1 else 0
                           | None => 0
                           end)%nat) ->
  tidy n' (addToWorkQueueSpec item cb w).
Proof.
  intros Hw Hwf Hcb Hcl Hn. unfold addToWorkQueueSpec.
  assert (Hone : forall c, owes c (set_callback cb item)
                           = bool_decide (cb = Some c)).
  { intros c. destruct item. cbn in *. by subst. }
  assert (Hbool : forall c, (if bool_decide (cb = Some c) then 1 else 0)%nat
                  = match cb with
                    | Some done => if bool_decide (done = c) then 1 else 0
                    | None => 0
                    end%nat).
  { intros c. destruct cb as [dn|]; [|done].
    destruct (decide (dn = c)) as [->|Hne].
    - by rewrite !bool_decide_eq_true_2.
    - rewrite !bool_decide_eq_false_2; [done|done|congruence]. }
  destruct (bool_decide _); [destruct (bool_decide _)|].
  - eapply (tidy_grow n n' w _ [item; checkResultsItem cb]); [exact Hw|..];
      try (by destruct_world w).
    + repeat constructor; [done|]. by intros ?.
    + intros c. rewrite Hn. cbn. unfold owes at 1. rewrite Hcb.
      rewrite (bool_decide_eq_false_2 (None = Some c)) by done.
      rewrite andb_false_r. unfold owes. cbn. rewrite <- Hbool. lia.
  - eapply (tidy_grow n n' w _ [set_callback cb item]); [exact Hw|..];
      try (by destruct_world w).
    + repeat constructor. by destruct item.
    + intros c. rewrite Hn. cbn. rewrite Hone, <- Hbool. lia.
  - eapply (tidy_grow n n' w _ [set_callback cb item]); [exact Hw|..];
      try (by destruct_world w).
    + repeat constructor. by destruct item.
    + intros c. rewrite Hn. cbn. rewrite Hone, <- Hbool. lia.
Qed.

Lemma hoare_addToWorkQueue n (item : WorkItem) :
  wfItem item -> callback item = None -> cleaned item = false ->
  hoare n (tidy n) (addToWorkQueue item None) (tidy n).
Proof.
  intros Hwf Hcb Hcl w Hw. rewrite addToWorkQueue_run.
  apply (tidy_addToWorkQueue n n item None w); auto.
Qed.

(** A call of a callback that no work item owed. *)
Lemma tidy_invoke n n' (done : cbRef) (w : World) :
  tidy n w ->
  (forall c, n' c = (n c + (if bool_decide (done = c) then 1 else 0))%nat) ->
  tidy n' (over_log (fun l => l ++ [Invoke done]) w).
Proof.
  intros [(Hwf & Hv & Hh & Hb) [Hd1 Hd2]] Hn. destruct_world w.
  unfold tidy, core, due, heldItems, currentSettled, mayStart in *. simpl_fields.
  cbn [over_log]. simpl_fields. split_and!; auto.
  intros c. rewrite invoked_app, Hn, <- Hb. cbn. lia.
Qed.

(** *** The handlers of the replicator *)

Lemma mild_pruneOne d : mild (Some (Some d)) (pruneOne d).
Proof. unfold pruneOne. mild_auto. Qed.

Lemma mild_fillBySendingBuffers d : mild (Some (Some d)) (fillBySendingBuffers d).
Proof. unfold fillBySendingBuffers. mild_auto. Qed.

Lemma mild_startStreamingDataFile d : mild (Some (Some d)) (startStreamingDataFile d).
Proof. unfold startStreamingDataFile. mild_auto. Qed.

Lemma mild_fillByStreamingDataFile d : mild (Some (Some d)) (fillByStreamingDataFile d).
Proof. unfold fillByStreamingDataFile. mild_auto. Qed.

Lemma mild_checkResults d : mild (Some (Some d)) (checkResults d).
Proof. unfold checkResults. mild_auto. Qed.
#[local] Hint Resolve mild_pruneOne mild_fillBySendingBuffers
  mild_startStreamingDataFile mild_fillByStreamingDataFile mild_checkResults
  : callbacks.

Lemma mild_fill d : mild (Some (Some d)) (fill d).
Proof. unfold fill. mild_auto. Qed.

Lemma mild_sentRemoveOneCommand err d dsts :
  mild (Some (Some d)) (sentRemoveOneCommand err d dsts).
Proof. unfold sentRemoveOneCommand. mild_auto. Qed.

Lemma mild_sentRemoveCommand err d : mild (Some (Some d)) (sentRemoveCommand err d).
Proof. unfold sentRemoveCommand. mild_auto. Qed.

Lemma mild_sentResults err d : mild (Some (Some d)) (sentResults err d).
Proof. unfold sentResults. mild_auto. Qed.

Lemma mild_sentResultsAtEof err d : mild (Some (Some d)) (sentResultsAtEof err d).
Proof. unfold sentResultsAtEof. mild_auto. Qed.

Lemma mild_sentResultsAfterRecord err d r :
  mild (Some (Some d)) (sentResultsAfterRecord err d r).
Proof. unfold sentResultsAfterRecord. mild_auto. Qed.

Lemma mild_dataFileRecordSent err d r :
  mild (Some (Some d)) (dataFileRecordSent err d r).
Proof. unfold dataFileRecordSent. mild_auto. Qed.

Lemma mild_gotRecord err d : mild (Some (Some d)) (gotRecord err d).
Proof. unfold gotRecord. mild_auto. Qed.

Lemma mild_receivedReplyForRefill status d :
  mild (Some (Some d)) (receivedReplyForRefill status d).
Proof. unfold receivedReplyForRefill. mild_auto. Qed.

Lemma mild_handleCheckResultAfterRecord status d r :
  mild (Some (Some d)) (handleCheckResultAfterSendingDataFileRecord status d r).
Proof. unfold handleCheckResultAfterSendingDataFileRecord. mild_auto. Qed.

Lemma mild_doneBackgroundSynchronizing : mild (Some None) doneBackgroundSynchronizing.
Proof. unfold doneBackgroundSynchronizing. mild_auto. Qed.

Lemma mild_doneLockedSynchronizing : mild (Some None) doneLockedSynchronizing.
Proof. unfold doneLockedSynchronizing. mild_auto. Qed.
#[local] Hint Resolve mild_fill mild_sentRemoveOneCommand mild_sentRemoveCommand
  mild_sentResults mild_sentResultsAtEof mild_sentResultsAfterRecord
  mild_dataFileRecordSent mild_gotRecord mild_receivedReplyForRefill
  mild_handleCheckResultAfterRecord mild_doneBackgroundSynchronizing
  mild_doneLockedSynchronizing : callbacks.

Ltac hoare_step :=
  lazymatch goal with
  | |- hoare _ _ (bind (cleanupWorkItem _) _) _ =>
      apply hoare_finish; first [assumption|solve [auto with callbacks]]
  | |- hoare _ (aloft _ _) _ _ =>
      first
        [ assumption
        | solve [auto with callbacks]
        | solve [apply hoare_mild_end; mild_auto]
        | lazymatch goal with
          | |- hoare _ _ (bind _ _) _ =>
              apply hoare_mild_prefix; [solve [mild_auto]|intros ?]
          | |- hoare _ _ (when ?b _) _ => destruct b; cbn [when]
          | |- hoare _ _ (if ?b then _ else _) _ => destruct b
          | |- hoare _ _ (match ?x with _ => _ end) _ => destruct x
          end ]
  end.

Ltac hoare_auto := repeat hoare_step.

Section Replicator.
Variable n : cbRef -> nat.
Variable next : M unit.
Hypothesis hoare_next : hoare n (aloft n None) next (tidy n).

Lemma hoare_pruneNextTimestamp d dsts :
  hoare n (aloft n (Some d)) (pruneNextTimestamp next d dsts) (tidy n).
Proof. unfold pruneNextTimestamp. hoare_auto. Qed.

Lemma hoare_pruneAll d : hoare n (aloft n (Some d)) (pruneAll next d) (tidy n).
Proof. pose proof hoare_pruneNextTimestamp. unfold pruneAll. hoare_auto. Qed.

Lemma hoare_receivedReplyForRemoveOneCommand status d dsts :
  hoare n (aloft n (Some d)) (receivedReplyForRemoveOneCommand next status d dsts)
    (tidy n).
Proof.
  pose proof hoare_pruneNextTimestamp.
  unfold receivedReplyForRemoveOneCommand. hoare_auto.
Qed.

Lemma hoare_receivedReplyForRemoveCommand status d :
  hoare n (aloft n (Some d)) (receivedReplyForRemoveCommand next status d) (tidy n).
Proof. unfold receivedReplyForRemoveCommand. hoare_auto. Qed.

Lemma hoare_written d : hoare n (aloft n (Some d)) (written next d) (tidy n).
Proof. unfold written. hoare_auto. Qed.

Lemma hoare_visitRecord err record d :
  hoare n (aloft n (Some d)) (visitRecord next err record d) (tidy n).
Proof. unfold visitRecord. hoare_auto. Qed.

Lemma hoare_dataFileFullyStreamed status d :
  hoare n (aloft n (Some d)) (dataFileFullyStreamed next status d) (tidy n).
Proof. unfold dataFileFullyStreamed. hoare_auto. Qed.

Lemma hoare_handleCheckResult status d :
  hoare n (aloft n (Some d)) (handleCheckResult next status d) (tidy n).
Proof. unfold handleCheckResult. hoare_auto. Qed.

End Replicator.

Lemma hoare_readJsonObjectCallback n o command r (k : string -> M unit) :
  (forall status, hoare n (aloft n o) (k status) (tidy n)) ->
  hoare n (aloft n o) (readJsonObjectCallback command r k) (tidy n).
Proof. intros Hk. unfold readJsonObjectCallback. hoare_auto. Qed.

#[local] Hint Resolve hoare_pruneNextTimestamp hoare_pruneAll
  hoare_receivedReplyForRemoveOneCommand hoare_receivedReplyForRemoveCommand
  hoare_written hoare_visitRecord hoare_dataFileFullyStreamed
  hoare_handleCheckResult hoare_receivedReplyForPing : callbacks.

Lemma hoare_processNext n (fuel : nat) :
  hoare n (aloft n None) (processNext fuel) (tidy n).
Proof.
  induction fuel as [|fuel IH]; cbn [processNext]; [by intros w _|].
  apply hoare_mild_prefix; [mild_auto|intros c].
  destruct (negb c); [apply hoare_mild_end; mild_auto|].
  apply hoare_gets. intros [|d rest].
  - apply (hoare_weaken n (aloft n None)); [by intros w [? _]|].
    apply hoare_mild_prefix; [mild_auto|intros st].
    apply hoare_mild_prefix; [mild_auto|intros started].
    destruct (bool_decide (st = BACKGROUND_SYNCHRONIZING)).
    { apply hoare_mild_prefix; [mild_auto|intros _].
      apply (hoare_bind n _ (aloft n None)); [apply hoare_clear_current|intros _].
      apply (hoare_bind n _ (aloft n None)); [apply hoare_schedule|intros _].
      apply hoare_mild_prefix; [mild_auto|intros q'].
      destruct (bool_decide (q' <> [])); [exact IH|].
      apply hoare_mild_end. mild_auto. }
    destruct (bool_decide (st = LOCKED_SYNCHRONIZING)).
    { apply hoare_mild_prefix; [mild_auto|intros _].
      apply (hoare_bind n _ (aloft n None)); [apply hoare_clear_current|intros _].
      apply (hoare_bind n _ (aloft n None)); [apply hoare_schedule|intros _].
      apply hoare_mild_prefix; [mild_auto|intros q'].
      apply hoare_mild_prefix; [mild_auto|intros _].
      apply hoare_mild_end. mild_auto. }
    apply hoare_mild_prefix; [mild_auto|intros _].
    apply hoare_mild_prefix; [mild_auto|intros _].
    apply hoare_rest.
  - apply hoare_shift.
    pose proof (hoare_pruneAll n (processNext fuel) IH).
    hoare_auto.
Qed.

Lemma hoare_processNextReplicationCommand n :
  hoare n (aloft n None) processNextReplicationCommand (tidy n).
Proof. intros w Hw. by apply hoare_processNext. Qed.
#[local] Hint Resolve hoare_processNextReplicationCommand : callbacks.

Lemma hoare_databaseLocked n : hoare n (aloft n None) databaseLocked (tidy n).
Proof.
  unfold databaseLocked.
  apply hoare_mild_prefix; [mild_auto|intros q].
  apply hoare_mild_prefix; [mild_auto|intros _].
  apply (hoare_bind n _ (aloft n None)); [apply hoare_schedule|intros _].
  apply hoare_processNextReplicationCommand.
Qed.
#[local] Hint Resolve hoare_databaseLocked : callbacks.

(** *** The events *)

(** A callback that the environment held is called: the handler starts
    with the replicator started and nothing registered. *)
Lemma takeoff n k (w : World) :
  tidy n w -> pending w = Some k -> aloft n (claims k) (set_pending None w).
Proof.
  intros [Hcore [Hd1 Hd2]] Hp. specialize (Hd1 k Hp).
  destruct_world w. simpl_fields. subst p. split; [|done].
  split; [done|]. split; [done|]. split; [|done].
  intros Hmay. destruct rs; [done|]. by destruct (Hd2 Hmay eq_refl).
Qed.

Lemma hoare_takeoff n k (h : M unit) (w : World) :
  tidy n w -> pending w = Some k ->
  hoare n (aloft n (claims k)) h (tidy n) ->
  match bind (modify (set_pending None)) (fun _ => h) w with
  | Ok _ w' | Throw _ w' => tidy n w'
  | OutOfFuel => True
  end.
Proof. intros Hw Hp Hh. apply (Hh (set_pending None w)). by apply takeoff. Qed.

Lemma hoare_bind_tidy {A B} n (Q : World -> Prop) (m : M A) (k : A -> M B) :
  mild None m -> (forall a, hoare n (tidy n) (k a) Q) ->
  hoare n (tidy n) (bind m k) Q.
Proof.
  intros Hm Hk. apply (hoare_bind n _ (tidy n)); [|done]. by apply hoare_mild_tidy.
Qed.

(** [onRemoveFromOurDatabase]: its work items carry no callback. *)
Lemma hoare_onRemoveFromOurDatabase n g dst :
  hoare n (tidy n) (onRemoveFromOurDatabase g dst) (tidy n).
Proof.
  unfold onRemoveFromOurDatabase.
  apply hoare_bind_tidy; [mild_auto|intros c].
  destruct (negb c); [apply hoare_mild_tidy; mild_auto|].
  apply hoare_bind_tidy; [mild_auto|intros st].
  apply hoare_bind_tidy; [mild_auto|intros _].
  destruct (bool_decide (st = READY)); cbn [when]; [|apply hoare_mild_tidy; mild_auto].
  apply (hoare_bind n _ (tidy n)); [|intros _; apply hoare_startReplicator].
  destruct (truthyNumber dst); by apply hoare_addToWorkQueue.
Qed.

Lemma forEach_app {A} (l1 l2 : list A) (body : A -> M unit) (w : World) :
  forEach (l1 ++ l2) body w = bind (forEach l1 body) (fun _ => forEach l2 body) w.
Proof.
  revert w. induction l1 as [|x l1 IH]; intros w; [done|].
  cbn [forEach app]. unfold bind in *.
  destruct (body x w) as [[] w'| |]; [|done|done]. apply IH.
Qed.

Lemma forEach_single {A} (x : A) (body : A -> M unit) (w : World) :
  forEach [x] body w = body x w.
Proof. cbn. unfold bind, skip, ret. by destruct (body x w) as [[] ?| |]. Qed.

(** [onConnectionClose]: every work item that owed a callback was in
    the queue or in flight, so nothing is owed afterwards. *)
Lemma cleanupWorkQueue_settles n (w : World) :
  tidy n w ->
  exists w', cleanupWorkQueue w = Ok tt w' /\ tidy n w'
             /\ Forall (fun it => ~ owing it) (items w').
Proof.
  intros [(Hwf & Hv & Hh & Hb) [Hd1 Hd2]].
  set (w1 := set_currentWorkItem None (set_workQueue [] w)).
  assert (Hw1 : items w1 = items w /\ log w1 = log w /\ pending w1 = pending w
                /\ state w1 = state w /\ replicatorStarted w1 = replicatorStarted w
                /\ workQueue w1 = [] /\ currentWorkItem w1 = None)
    by (by destruct_world w).
  destruct Hw1 as (Hits & Hlog & Hpe & Hst & Hrs & Hq1 & Hc1).
  assert (Hwf1 : Forall wfItem (items w1)) by (by rewrite Hits).
  destruct (forEach_cleanupWorkItem_settles (heldItems w) w1 Hwf1)
    as (w2 & Hrun & Hg & Hclean).
  assert (Hrun' : cleanupWorkQueue w = Ok tt w2).
  { unfold cleanupWorkQueue, heldItems in *. rewrite !bind_gets.
    unfold bind at 1, modify at 1. rewrite bind_gets.
    unfold bind at 1, modify at 1.
    assert (Hcur : currentWorkItem (set_workQueue [] w) = currentWorkItem w)
      by (by destruct_world w).
    rewrite Hcur. fold w1.
    destruct (currentWorkItem w) as [c|]; cbn [option_list] in Hrun.
    - rewrite forEach_app in Hrun. unfold bind in *.
      destruct (forEach (workQueue w) cleanupWorkItem w1) as [[] w'| |]; try done.
      change (option_list (Some c)) with [c] in Hrun.
      by rewrite forEach_single in Hrun.
    - rewrite app_nil_r in Hrun. unfold bind. by rewrite Hrun. }
  pose proof Hg as (Hq2 & Hc2 & Hs2 & Hm2 & Hi2 & Hbal2 & Hp2).
  assert (Hnone : forall d it, items w2 !! d = Some it -> ~ owing it).
  { intros d it Hit Ho.
    destruct (itemSteps_owing_lookup _ _ _ _ Hi2 Hit Ho) as (it0 & Hit0 & Ho0).
    rewrite Hits in Hit0. specialize (Hh d it0 Hit0 Ho0).
    apply (Hclean d Hh). by rewrite (list_lookup_total_correct _ _ _ Hit). }
  exists w2. split; [done|]. split; [|by apply Forall_lookup].
  assert (Hpend : pending w2 = pending w).
  { destruct Hp2 as [Hp2|(k & _ & Hk)]; [congruence|done]. }
  split.
  - unfold core, heldItems. rewrite Hq2, Hc2, Hq1, Hc1. split_and!.
    + by eapply itemSteps_wf.
    + intros d Hd. by apply elem_of_nil in Hd.
    + intros d it Hit Ho. by destruct (Hnone d it Hit).
    + intros cb. rewrite Hbal2 by done. rewrite Hits, Hlog. apply Hb.
  - split.
    + intros k Hk c Hc. congruence.
    + intros Hmay Hns. rewrite Hs2, Hrs in Hns.
      assert (Hmay0 : mayStart w).
      { apply Hm2 in Hmay. unfold mayStart in *. by rewrite Hst in Hmay. }
      destruct (Hd2 Hmay0 Hns) as [Hp0 _]. split; [congruence|].
      intros c Hc. congruence.
Qed.

Lemma onConnectionClose_settles n (w : World) :
  tidy n w ->
  exists w', onConnectionClose w = Ok tt w' /\ tidy n w'
             /\ Forall (fun it => ~ owing it) (items w').
Proof.
  intros Hw. unfold onConnectionClose.
  set (m := (modify (set_subscribed false);;
             handler ← gets cleanupHandler;
             when handler (modify (set_cleanupHandler false);; emit RecordStop))%js).
  assert (Hm : mild None m) by (unfold m; mild_auto).
  assert (Hok : exists w1, m w = Ok tt w1).
  { unfold m. destruct_world w. mrun. destruct ch; mrun; by eexists. }
  destruct Hok as [w1 Hw1]. specialize (Hm w). rewrite Hw1 in Hm.
  destruct (cleanupWorkQueue_settles n w1) as (w2 & Hrun & Hw2 & Hnone);
    [by apply (gentle_tidy n w w1)|].
  exists w2. split; [|done].
  unfold m in Hw1. revert Hw1 Hrun. clear. destruct_world w. mrun.
  destruct ch; mrun; intros [= <-] Hrun; exact Hrun.
Qed.

(** [onAddingToOurDatabase] outside the locked phase: the callback is
    called at once, or it is owed by a work item of the queue. *)
Lemma onAddingToOurDatabase_books n n' te g dst bufs (dn : cbRef) (w : World) :
  tidy n w -> state w <> LOCKED_SYNCHRONIZING ->
  (forall c, n' c = (n c + (if bool_decide (dn = c) then 1 else 0))%nat) ->
  match onAddingToOurDatabase te g dst bufs dn w with
  | Ok _ w' | Throw _ w' => tidy n' w'
  | OutOfFuel => True
  end.
Proof.
  intros Hw Hst Hn. unfold onAddingToOurDatabase, connected.
  rewrite bind_gets.
  destruct (negb _); [by apply (tidy_invoke n)|].
  rewrite bind_gets. rewrite (bool_decide_eq_false_2 (state w = _)) by done.
  cbn [negb console_assert]. unfold bind at 1, skip at 1, ret at 1.
  destruct (bool_decide (state w = READY)); [|by apply (tidy_invoke n)].
  unfold bind at 1, incReadOperations at 1, updateTimeEntry at 1, modify at 1.
  rewrite bind_gets.
  match goal with |- context [addToWorkQueue ?it ?cb] =>
    match goal with |- match bind _ _ ?w1 with _ => _ end =>
      rewrite (bind_Ok _ _ _ _ _ (addToWorkQueue_run it cb w1));
      apply (hoare_startReplicator n');
      apply (tidy_addToWorkQueue n n' it cb w1); try done
    end
  end.
  - eapply gentle_tidy; [exact Hw|].
    match goal with |- gentle _ _ (over_entries ?f w) =>
      pose proof (mild_modify None (over_entries f)) as Hm
    end.
    apply Hm. gentle_setter.
  - by intros _; eexists.
Qed.

Lemma hoare_removed n g dst :
  hoare n (tidy n)
    (s ← gets subscribed; when s (onRemoveFromOurDatabase g dst))%js (tidy n).
Proof.
  apply hoare_bind_tidy; [mild_auto|intros s].
  destruct s; cbn [when]; [apply hoare_onRemoveFromOurDatabase|].
  apply hoare_mild_tidy. mild_auto.
Qed.

Lemma hoare_closed n : hoare n (tidy n) onConnectionClose (tidy n).
Proof.
  intros w Hw. destruct (onConnectionClose_settles n w Hw) as (w' & -> & Hw' & _).
  done.
Qed.

(** Every event but [adding] leaves the calls made and the calls owed
    as they are. *)
Lemma handle_books n (ev : Event) (w : World) :
  tidy n w ->
  (forall te g dst bufs dn, ev <> Adding te g dst bufs dn) ->
  match handle ev w with
  | Ok _ w' | Throw _ w' => tidy n w'
  | OutOfFuel => True
  end.
Proof.
  intros Hw Hev. unfold handle. cbv zeta. rewrite bind_gets.
  destruct (pending w) as [k|] eqn:Hp.
  - destruct ev as [|err|r|err|err record| |te g dst bufs dn|g dst| | |db];
      try (by destruct (Hev _ _ _ _ _ eq_refl));
      try (by apply hoare_removed);
      try (by apply hoare_closed);
      try (by apply hoare_mild_tidy; [mild_auto|]);
      destruct k;
      try exact Hw;
      (eapply hoare_takeoff; [exact Hw|exact Hp|]; cbn [claims];
       repeat first [ apply hoare_readJsonObjectCallback; intros ?
                    | hoare_step ]).
  - destruct ev as [|err|r|err|err record| |te g dst bufs dn|g dst| | |db];
      try (by destruct (Hev _ _ _ _ _ eq_refl));
      try (by apply hoare_removed);
      try (by apply hoare_closed);
      try (by apply hoare_mild_tidy; [mild_auto|]);
      exact Hw.
Qed.

Lemma handle_adding te g dst bufs dn (w : World) :
  handle (Adding te g dst bufs dn) w
  = (if subscribed w then onAddingToOurDatabase te g dst bufs dn w else Ok tt w).
Proof.
  unfold handle. cbv zeta. rewrite bind_gets.
  destruct (pending w) as [[]|]; rewrite bind_gets; by destruct (subscribed w).
Qed.

Lemma tidy_uncaught n e (w : World) :
  tidy n w -> tidy n (over_log (fun l => l ++ [Uncaught e]) w).
Proof.
  intros Hw. eapply gentle_tidy; [exact Hw|].
  apply (mild_emit None (Uncaught e)). discriminate.
Qed.

Lemma phased_not_locked (w : World) :
  phased w -> subscribed w = true -> state w <> LOCKED_SYNCHRONIZING.
Proof.
  intros [Hsub Hph] Hs Hst. rewrite Hst in Hph. specialize (Hsub Hs).
  destruct Hph as [_ Hu]. cbv zeta in *. congruence.
Qed.

Lemma tidy_step n (ev : Event) (w : World) :
  tidy n w -> phased w ->
  tidy (fun cb => (n cb + hears cb w ev)%nat) (step w ev).
Proof.
  intros Hw Hph. unfold step.
  assert (Hother : (forall te g dst bufs dn, ev <> Adding te g dst bufs dn) ->
    tidy (fun cb => (n cb + hears cb w ev)%nat)
      match handle ev w with
      | Ok _ w' => w'
      | Throw e w' => over_log (fun l => l ++ [Uncaught e]) w'
      | OutOfFuel => w
      end).
  { intros Hev. apply (tidy_ext n).
    { intros cb. destruct ev; cbn; try lia. by destruct (Hev _ _ _ _ _ eq_refl). }
    pose proof (handle_books n ev w Hw Hev) as H.
    destruct (handle ev w) as [a w'|e w'|]; [done| |done].
    by apply tidy_uncaught. }
  destruct ev as [|err|r|err|err record| |te g dst bufs dn|g dst| | |db];
    try (apply Hother; discriminate).
  pose proof (total_handle (Adding te g dst bufs dn) w) as Htot.
  rewrite handle_adding in *. cbn [hears].
  destruct (subscribed w) eqn:Hsub; cbn [andb].
  - pose proof (onAddingToOurDatabase_books n
                  (fun cb => (n cb + (if bool_decide (dn = cb) then 1 else 0))%nat)
                  te g dst bufs dn w Hw (phased_not_locked w Hph Hsub)
                  (fun c => eq_refl)) as H.
    destruct (onAddingToOurDatabase _ _ _ _ _ _) as [a w'|e w'|].
    + done.
    + by apply tidy_uncaught.
    + done.
  - apply (tidy_ext n); [intros cb; lia|done].
Qed.

Lemma tidy_run (evs : list Event) : forall n (w : World),
  tidy n w -> phased w ->
  tidy (fun cb => (n cb + heard cb w evs)%nat) (run w evs).
Proof.
  induction evs as [|ev evs IH]; intros n w Hw Hph.
  - apply (tidy_ext n); [intros cb; cbn; lia|done].
  - cbn [run foldl heard].
    pose proof (tidy_step n ev w Hw Hph) as H1.
    destruct (advances_step w ev Hph) as [Hph1 _].
    specialize (IH _ _ H1 Hph1).
    eapply tidy_ext; [|exact IH]. intros cb. cbn beta. lia.
Qed.

Lemma tidy_start threshold throws db t :
  tidy (fun _ => 0%nat) (_continueReplication threshold throws db t).
Proof.
  unfold _continueReplication.
  assert (H0 : aloft (fun _ => 0%nat) None (newSession threshold throws db t)).
  { unfold newSession, aloft, flight, core, heldItems, currentSettled, mayStart.
    simpl_fields. split_and!; try done.
    - intros d Hd. by apply elem_of_nil in Hd.
    - tauto. }
  assert (Hstart : hoare (fun _ => 0%nat) (aloft (fun _ => 0%nat) None)
                     (scheduleSlaveSynchronizationCommands;;
                      processNextReplicationCommand)%js (tidy (fun _ => 0%nat))).
  { eapply hoare_bind; [apply hoare_schedule|intros _].
    apply hoare_processNextReplicationCommand. }
  specialize (Hstart _ H0).
  destruct ((_ ;; _)%js _) as [a w'|e w'|]; [done|by apply tidy_uncaught|].
  by eapply flight_tidy, H0.
Qed.

Lemma heard_announced (cb : cbRef) (evs : list Event) : forall w : World,
  (heard cb w evs <= announced cb evs)%nat.
Proof.
  induction evs as [|ev evs IH]; intros w; [done|].
  cbn [heard]. specialize (IH (step w ev)).
  destruct ev; cbn [hears announced]; try lia.
  destruct (subscribed w); cbn [andb]; destruct (bool_decide _); lia.
Qed.

Lemma handle_close (w : World) : handle Close w = onConnectionClose w.
Proof.
  unfold handle. cbv zeta. rewrite bind_gets. by destruct (pending w) as [[]|].
Qed.

(** X22.  The [done] callbacks of the [adding] events are neither lost
    nor called twice.  At any point of a session, for every callback: the
    number of times it has been called so far, plus the number of work
    items not yet cleaned up that carry it, is the number of [adding]
    events with this callback that the listener has heard; this is never
    more than the number of [adding] events that carried it.  So a
    callback handed over once is called at most once, and until it is
    called a work item of the session still owes the call. *)
Theorem done_callbacks_are_conserved (threshold : Z) (throws : bool)
    (db : Database) (t : Toc) (evs : list Event) (cb : cbRef) :
  let w0 := _continueReplication threshold throws db t in
  let w := run w0 evs in
  (invoked cb (log w) + owed cb (items w))%nat = heard cb w0 evs
  /\ (heard cb w0 evs <= announced cb evs)%nat
  /\ (invoked cb (log w) <= announced cb evs)%nat.
Proof.
  cbv zeta.
  destruct (tidy_run evs _ _ (tidy_start threshold throws db t)
              (phased_start threshold throws db t)) as [(_ & _ & _ & Hb) _].
  specialize (Hb cb). cbn beta in Hb.
  pose proof (heard_announced cb evs (_continueReplication threshold throws db t)).
  split; [lia|]. split; [done|lia].
Qed.

(** X23.  When the connection closes every callback is settled: once
    [onConnectionClose] has run, no work item owes a callback any more,
    and each callback has been called exactly as many times as the
    listener had heard an [adding] event with it -- whatever happened
    before, be it errors of the slave, failed writes or exceptions in the
    handlers. *)
Theorem done_callbacks_are_called_by_close (threshold : Z) (throws : bool)
    (db : Database) (t : Toc) (evs : list Event) (cb : cbRef) :
  let w0 := _continueReplication threshold throws db t in
  let w := run w0 (evs ++ [Close]) in
  invoked cb (log w) = heard cb w0 evs
  /\ owed cb (items w) = 0%nat
  /\ Forall (fun it => cleaned it = true \/ callback it = None) (items w).
Proof.
  cbv zeta. unfold run. rewrite foldl_app. cbn [foldl]. fold (run (_continueReplication threshold throws db t) evs).
  destruct (tidy_run evs _ _ (tidy_start threshold throws db t)
              (phased_start threshold throws db t)) as [Hcore Hdue].
  set (w := run _ evs) in *.
  destruct (onConnectionClose_settles _ w (conj Hcore Hdue))
    as (w' & Hrun & [(_ & _ & _ & Hb) _] & Hnone).
  unfold step. rewrite handle_close, Hrun.
  specialize (Hb cb). cbn beta in Hb.
  rewrite (owed_none cb (items w') Hnone) in *. split; [lia|]. split; [done|].
  eapply Forall_impl; [exact Hnone|]. intros it Hno. unfold owing in Hno.
  destruct (cleaned it); [by left|right].
  destruct (callback it); [|done]. exfalso. apply Hno. by split.
Qed.

(** ** The check of the results *)

Lemma alter_middle {A} (f : A -> A) (l1 l2 : list A) (x : A) :
  alter f (List.length l1) (l1 ++ x :: l2) = l1 ++ f x :: l2.
Proof.
  rewrite <- (Nat.add_0_r (List.length l1)) at 1. by rewrite alter_app_r.
Qed.

Lemma lookup_total_second (l : list WorkItem) (a b : WorkItem) :
  (l ++ [a; b]) !!! S (List.length l) = b.
Proof.
  change (l ++ [a; b]) with (l ++ [a] ++ [b]). rewrite app_assoc.
  replace (S (List.length l)) with (List.length (l ++ [a]))
    by (rewrite length_app; cbn; lia).
  by rewrite list_lookup_total_middle.
Qed.

Lemma alter_second (f : WorkItem -> WorkItem) (l : list WorkItem) (a b : WorkItem) :
  alter f (S (List.length l)) (l ++ [a; b]) = l ++ [a; f b].
Proof.
  change (l ++ [a; b]) with (l ++ [a] ++ [b]). rewrite app_assoc.
  replace (S (List.length l)) with (List.length (l ++ [a]))
    by (rewrite length_app; cbn; lia).
  by rewrite alter_middle, <- app_assoc.
Qed.

(** X24.  A write announced to a [READY] session at rest that brings the
    count of fills to [resultCheckThreshold]: the [add] command and the
    buffers are followed by a [results] command, and the count starts
    again from 0; [done] is not called when the buffers are written, but
    only once the slave has answered the [results] command with status
    ok; then the opids start again from 0 and the replicator is at rest. *)
Theorem adding_is_checked (w : World) (te : teRef) (g : string) (dst : Z)
    (bufs : list Buffer) (dn : cbRef) (err : bool) :
  state w = READY -> socketDestroyed w = false -> subscribed w = true ->
  workQueue w = [] -> replicatorStarted w = false ->
  resultCheckThreshold w <= resultCheckCounter w + 1 ->
  let w3 := run w [Adding te g dst bufs dn; Tick; Written err] in
  let w5 := run w3 [Written false; Json (JsonObject "ok")] in
  log w3 = log w ++ [NextTick;
                     WriteJSON (MsgAdd (Some g) (Some (dst * 24 * 60 * 60))
                                  (totalDataSize bufs) (nextOpId w) None)]
                 ++ (Write <$> bufs) ++ [WriteJSON MsgResults]
  /\ resultCheckCounter w3 = 0 /\ nextOpId w3 = nextOpId w + 1
  /\ pending w3 = Some (KSentResults (S (List.length (items w))))
  /\ log w5 = log w3 ++ [ReadJSON "results" "ok"; Invoke dn]
  /\ nextOpId w5 = 0
  /\ mirrorSize (toc w5) (g, dst)
     = mirrorSize (toc w) (g, dst) + calculateRecordSize (database w) bufs
  /\ state w5 = READY /\ workQueue w5 = [] /\ currentWorkItem w5 = None
  /\ replicatorStarted w5 = false /\ pending w5 = None.
Proof.
  intros Hst Hsd Hsub Hq Hrs Hrc w3 w5.
  destruct_world w. simpl_fields. subst.
  unfold w5, w3, run. cbn [foldl].
  match goal with |- context [step ?W (Adding te g dst bufs dn)] =>
    eassert (H1 : step W (Adding te g dst bufs dn) = _);
      [|rewrite !H1; clear H1]
  end.
  { unfold step, handle, onAddingToOurDatabase, startReplicator.
    mstep. rewrite addToWorkQueue_run. unfold addToWorkQueueSpec. mstep.
    rewrite (bool_decide_eq_true_2 (th <= rc + 1)) by lia. mstep.
    reflexivity. }
  match goal with |- context [step ?W Tick] =>
    eassert (H2 : step W Tick = _); [|rewrite !H2; clear H2]
  end.
  { unfold step, handle, processNextReplicationCommand.
    cbn [workQueue List.length processNext].
    unfold fill.
    repeat progress
      (mstep; rewrite ?alter_middle, ?list_lookup_total_middle by done).
    erewrite fillBySendingBuffers_run;
      [|done|simpl_fields; by rewrite list_lookup_total_middle].
    simpl_fields. rewrite list_lookup_total_middle by done.
    mstep. reflexivity. }
  match goal with |- context [step ?W (Written err)] =>
    eassert (H3 : step W (Written err) = _); [|rewrite !H3; clear H3]
  end.
  { unfold step, handle, written, writeMirrorSize, cleanupWorkItem, lookupMirror,
      processNextReplicationCommand, checkResults.
    cbn [workQueue List.length processNext].
    repeat progress
      (mstep;
       rewrite ?alter_middle, ?list_lookup_total_middle, ?lookup_insert_eq,
         ?lookup_total_second, ?alter_second by done).
    reflexivity. }
  match goal with |- context [step ?W (Written false)] =>
    eassert (H4 : step W (Written false) = _); [|rewrite !H4; clear H4]
  end.
  { unfold step, handle, sentResults. mstep. reflexivity. }
  match goal with |- context [step ?W (Json ?r)] =>
    eassert (H5 : step W (Json r) = _); [|rewrite !H5; clear H5]
  end.
  { unfold step, handle, readJsonObjectCallback, handleCheckResult, cleanupWorkItem,
      processNextReplicationCommand.
    cbn [workQueue List.length processNext].
    repeat progress
      (mstep;
       rewrite ?alter_middle, ?list_lookup_total_middle, ?lookup_insert_eq,
         ?lookup_total_second, ?alter_second by done).
    reflexivity. }
  simpl_fields. unfold mirrorSize, lookupMirror. cbn [fst snd].
  split_and!; try done; try (by rewrite <- !app_assoc).
  rewrite lookup_alter_eq, lookup_insert_eq. cbn.
  rewrite lookup_insert_eq. cbn.
  destruct (t !! g) as [gr|]; cbn; [|by rewrite lookup_empty].
  by destruct (gr !! dst).
Qed.

Lemma adding_is_checked_witness :
  let w := run (_continueReplication 1 true exampleDb exampleToc)
             [Locked; Json (JsonObject "ok")] in
  let w3 := run w [addingHi; Tick; Written false] in
  resultCheckCounter w3 = 0
  /\ nextOpId (run w3 [Written false; Json (JsonObject "ok")]) = 0.
Proof.
  cbv zeta.
  destruct (adding_is_checked
              (run (_continueReplication 1 true exampleDb exampleToc)
                 [Locked; Json (JsonObject "ok")])
              0%nat "a" 1 [[Byte.x68; Byte.x69]] 7%nat false)
    as (_ & H1 & _ & _ & _ & H2 & _);
    [reflexivity|reflexivity|reflexivity|reflexivity|reflexivity
    |vm_compute; discriminate|].
  split; [exact H1|exact H2].
Defined.

(** ** Pruning in the background *)

Lemma pruneItem_due (db : Database) (t : Toc) (g : string) (day : option Z) :
  Due db t (pruneItem g day) ->
  exists gr, t !! g = Some gr
             /\ match day with Some dst => is_Some (gr !! dst) | None => True end.
Proof.
  unfold pruneItem. inversion 1 as [g' [gr Hg] _|g' dst [e He] _ _| | | |]; subst.
  - by exists gr.
  - unfold lookupMirror in He. cbn in He.
    destruct (t !! g) as [gr|]; [|done]. exists gr. split; [done|by exists e].
  - match goal with H : lookupMirror _ _ = Some _ |- _ =>
      unfold lookupMirror in H; cbn in H end.
    destruct (t !! g) as [gr|]; [|done]. exists gr. split; [done|by eexists].
Qed.

(** X25.  A slave that has one day, or one group, that the master does
    not have, and nothing else to synchronize: [_continueReplication]
    takes the entry out of the mirror of the slave's table of contents and
    sends one [removeOne] command (one [remove] command for a group); when
    the command is written and answered with status ok, the work item is
    cleaned up, the diff is run again against the mirror, finds nothing,
    and the session asks for the lock of the database. *)
Theorem stale_entry_is_pruned (threshold : Z) (throws : bool) (db : Database)
    (t : Toc) (g : string) (day : option Z) :
  scheduledItems db t = [pruneItem g day] ->
  scheduledItems db (pruned g day t) = [] ->
  let w0 := _continueReplication threshold throws db t in
  let w2 := run w0 [Written false; Json (JsonObject "ok")] in
  (state w0 = BACKGROUND_SYNCHRONIZING
   /\ log w0 = [WriteJSON (pruneMessage g day)]
   /\ toc w0 = pruned g day t
   /\ pending w0 = Some (KSentRemove 0%nat))
  /\ state w2 = LOCKED_SYNCHRONIZING
  /\ log w2 = [WriteJSON (pruneMessage g day); ReadJSON "remove" "ok"; DatabaseLock]
  /\ toc w2 = pruned g day t
  /\ workQueue w2 = [] /\ currentWorkItem w2 = None
  /\ pending w2 = Some KLock
  /\ items w2 = [set_cleaned true (set_command None (pruneItem g day))].
Proof.
  intros Hdiff Hnone w0 w2.
  assert (Hdue : Due db t (pruneItem g day)).
  { apply elem_of_scheduledItems. rewrite Hdiff. by left. }
  destruct (pruneItem_due db t g day Hdue) as (gr & Hgr & Hday).
  assert (H0 : w0 = mkWorld BACKGROUND_SYNCHRONIZING false threshold (pruned g day t)
                      [] (Some 0%nat) 0 false 0 false
                      [set_command None (pruneItem g day)] db false throws
                      (Some (KSentRemove 0%nat)) [WriteJSON (pruneMessage g day)]).
  { unfold w0, _continueReplication, newSession.
    erewrite bind_Ok by apply schedule_run. simpl_fields. rewrite Hdiff.
    unfold processNextReplicationCommand, enqueued.
    destruct db as [grps es calc].
    cbn [workQueue List.length processNext over_items over_workQueue over_entries
         items app seq bumpReaders foldl pruneItem command timeEntry].
    unfold pruneOne, pruned, pruneMessage.
    repeat progress (mstep; cbn [lookup_total list_lookup_total alter list_alter]).
    rewrite Hgr. mstep.
    destruct day as [dst|]; mstep; [|done].
    rewrite (bool_decide_eq_true_2 (is_Some (gr !! dst))) by done. by mstep. }
  assert (H2 : w2 = mkWorld LOCKED_SYNCHRONIZING false threshold (pruned g day t)
                      [] None 0 false 0 false
                      [set_cleaned true (set_command None (pruneItem g day))] db
                      false throws (Some KLock)
                      [WriteJSON (pruneMessage g day); ReadJSON "remove" "ok";
                       DatabaseLock]).
  { unfold w2, run. rewrite H0. cbn [foldl].
    match goal with |- context [step ?W (Written false)] =>
      eassert (H1 : step W (Written false) = _); [|rewrite H1; clear H1]
    end.
    { unfold step, handle, sentRemoveCommand. mstep. reflexivity. }
    unfold step, handle, readJsonObjectCallback, receivedReplyForRemoveCommand,
      cleanupWorkItem, processNextReplicationCommand.
    cbn [workQueue List.length processNext].
    repeat progress (mstep; cbn [lookup_total list_lookup_total alter list_alter]).
    rewrite schedule_run. simpl_fields. rewrite Hnone, enqueued_nil.
    unfold doneBackgroundSynchronizing. by mstep. }
  rewrite H0, H2. simpl_fields. done.
Qed.

Lemma stale_entry_is_pruned_witness :
  let w2 := run (_continueReplication 10 true exampleDb staleToc)
              [Written false; Json (JsonObject "ok")] in
  state w2 = LOCKED_SYNCHRONIZING
  /\ toc w2 = pruned "a" (Some 7) staleToc.
Proof.
  destruct (stale_entry_is_pruned 10 true exampleDb staleToc "a" (Some 7))
    as (_ & H1 & _ & H2 & _); [by vm_compute|by vm_compute|].
  split; [exact H1|exact H2].
Defined.

(** ** The recursion of the replicator *)

Lemma extends_refl {A} (m : M A) : extends m m.
Proof. by intros w _. Qed.

Lemma extends_bind {A B} (m : M A) (k1 k2 : A -> M B) :
  (forall a, extends (k1 a) (k2 a)) -> extends (bind m k1) (bind m k2).
Proof.
  intros Hk w. unfold bind. destruct (m w) as [a w'|e w'|]; [|done|done].
  apply Hk.
Qed.

Ltac extends_step :=
  lazymatch goal with
  | |- extends (bind _ _) (bind _ _) => apply extends_bind; intros ?
  | |- extends (if ?b then _ else _) (if ?b then _ else _) => destruct b
  | |- extends (match ?x with _ => _ end) (match ?x with _ => _ end) => destruct x
  | |- extends _ _ => first [assumption|apply extends_refl]
  end.

Lemma pruneNextTimestamp_extends (n1 n2 : M unit) d dsts :
  extends n1 n2 ->
  extends (pruneNextTimestamp n1 d dsts) (pruneNextTimestamp n2 d dsts).
Proof. intros Hn. unfold pruneNextTimestamp. repeat extends_step. Qed.

Lemma pruneAll_extends (n1 n2 : M unit) d :
  extends n1 n2 -> extends (pruneAll n1 d) (pruneAll n2 d).
Proof.
  intros Hn. pose proof (pruneNextTimestamp_extends n1 n2 d) as Hp.
  unfold pruneAll. repeat first [by apply Hp|extends_step].
Qed.

(** One more level of recursion changes nothing once the recursion has
    come to an end. *)
Lemma processNext_more (fuel : nat) : extends (processNext fuel) (processNext (S fuel)).
Proof.
  induction fuel as [|fuel IH]; [by intros w H|].
  remember (S fuel) as k eqn:Hk.
  assert (Hgoal : extends (processNext (S fuel)) (processNext (S k))).
  { cbn [processNext].
    repeat first [by apply pruneAll_extends|extends_step]. }
  by rewrite <- Hk in Hgoal.
Qed.

(** X26.  [processNextReplicationCommand] always returns.  It calls
    itself, directly and through [pruneAll] and [pruneNextTimestamp]; the
    depth of these calls is at most the length of the work queue plus
    two, and what the function does is the same under any larger bound.
    So no handler of the session, and no run of [_continueReplication],
    goes on forever. *)
Theorem replicator_terminates (fuel : nat) (w : World) (ev : Event) :
  (List.length (workQueue w) + 2 <= fuel)%nat ->
  processNext fuel w = processNextReplicationCommand w
  /\ processNextReplicationCommand w <> OutOfFuel
  /\ handle ev w <> OutOfFuel
  /\ (scheduleSlaveSynchronizationCommands;; processNextReplicationCommand)%js w
     <> OutOfFuel.
Proof.
  intros Hfuel. split; [|split; [|split]].
  - unfold processNextReplicationCommand.
    replace fuel with ((fuel - (List.length (workQueue w) + 2))
                       + S (S (List.length (workQueue w))))%nat by lia.
    generalize (fuel - (List.length (workQueue w) + 2))%nat as extra.
    induction extra as [|extra IH]; [done|].
    cbn [Nat.add]. rewrite processNext_more; [done|].
    rewrite IH. apply processNext_fuel. lia.
  - apply total_processNextReplicationCommand.
  - apply total_handle.
  - apply total_start.
Qed.

Lemma replicator_terminates_witness :
  processNext 7 (readySession true) = processNextReplicationCommand (readySession true).
Proof.
  apply (replicator_terminates 7 (readySession true) Tick). vm_compute. lia.
Defined.

(** ** Filling in the background *)

(** X27.  A slave that lacks data of one time entry, and nothing else:
    [_continueReplication] takes a reader on the time entry of the master,
    looks the entry up in the mirror of the slave's table of contents
    (creating it with size 0 when the slave does not have it) and reads
    the time entry from the size that the slave has; when this first read
    succeeds, the data file is streamed from that same offset. *)
Theorem missing_data_is_streamed (threshold : Z) (throws : bool) (db : Database)
    (t : Toc) (g : string) (dst : Z) (te : teRef) :
  scheduledItems db t = [fillItem g dst te] ->
  let offset := mirrorSize t (g, dst) in
  let w0 := _continueReplication threshold throws db t in
  let w1 := step w0 (GetDone false) in
  (state w0 = BACKGROUND_SYNCHRONIZING
   /\ log w0 = [TimeEntryGet te offset]
   /\ toc w0 = withEntry g dst t
   /\ mirrorSize (toc w0) (g, dst) = offset
   /\ entries (database w0) = bumpReaders [fillItem g dst te] (entries db)
   /\ currentWorkItem w0 = Some 0%nat /\ workQueue w0 = []
   /\ pending w0 = Some (KGet 0%nat))
  /\ log w1 = [TimeEntryGet te offset; TimeEntryEach te offset]
  /\ pending w1 = Some (KEach 0%nat)
  /\ toc w1 = withEntry g dst t
  /\ state w1 = BACKGROUND_SYNCHRONIZING.
Proof.
  intros Hdiff offset w0 w1.
  assert (Hsize : mirrorSize (withEntry g dst t) (g, dst) = offset).
  { unfold offset, mirrorSize, withEntry, lookupMirror. cbn [fst snd].
    rewrite lookup_insert_eq. cbn. rewrite lookup_insert_eq. cbn.
    destruct (t !! g) as [gr|]; cbn; [|by rewrite lookup_empty].
    by destruct (gr !! dst). }
  assert (H0 : w0 = mkWorld BACKGROUND_SYNCHRONIZING false threshold
                      (withEntry g dst t) [] (Some 0%nat) 0 false 0 false
                      [set_timeEntryOnReplica (Some (g, dst))
                         (set_command None (fillItem g dst te))]
                      (mkDatabase (groups db)
                         (bumpReaders [fillItem g dst te] (entries db))
                         (calculateRecordSize db))
                      false throws (Some (KGet 0%nat)) [TimeEntryGet te offset]).
  { unfold w0, _continueReplication, newSession.
    erewrite bind_Ok by apply schedule_run. simpl_fields. rewrite Hdiff.
    unfold processNextReplicationCommand, enqueued.
    destruct db as [grps es calc].
    cbn [workQueue List.length processNext over_items over_workQueue over_entries
         items app seq fillItem command timeEntry].
    unfold fill, fillByStreamingDataFile, readMirrorSize, lookupMirror.
    repeat progress
      (mstep; cbn [lookup_total list_lookup_total alter list_alter fst snd];
       rewrite ?lookup_insert_eq).
    fold (withEntry g dst t).
    unfold mirrorSize, lookupMirror, withEntry in Hsize. cbn [fst snd] in Hsize.
    rewrite lookup_insert_eq in Hsize. cbn in Hsize.
    rewrite lookup_insert_eq in Hsize. cbn in Hsize.
    unfold withEntry. by rewrite Hsize. }
  assert (H1 : w1 = set_pending (Some (KEach 0%nat))
                      (over_log (fun l => l ++ [TimeEntryEach te offset]) w0)).
  { unfold w1. rewrite H0. unfold step, handle, gotRecord, startStreamingDataFile,
      readMirrorSize.
    repeat progress
      (mstep; cbn [lookup_total list_lookup_total alter list_alter fst snd]).
    unfold mirrorSize in Hsize. cbn [fst snd] in Hsize.
    destruct (lookupMirror (withEntry g dst t) (g, dst)) as [e|] eqn:He.
    - cbn in Hsize. subst offset. rewrite <- Hsize. by mstep.
    - exfalso. unfold lookupMirror, withEntry in He. cbn [fst snd] in He.
      rewrite lookup_insert_eq in He. cbn in He.
      by rewrite lookup_insert_eq in He. }
  rewrite H1, H0. simpl_setters. simpl_fields. by rewrite Hsize.
Qed.

Lemma missing_data_is_streamed_witness :
  let w0 := _continueReplication 10 true exampleDb shortToc in
  log (step w0 (GetDone false)) = [TimeEntryGet 0%nat 40; TimeEntryEach 0%nat 40].
Proof.
  destruct (missing_data_is_streamed 10 true exampleDb shortToc "a" 1 0%nat)
    as (_ & H & _); [by vm_compute|].
  exact H.
Defined.

End ReplicaSlaveProofs.
